(** * Merge-based CSR SpMM kernels: a shallow embedding and its properties

    This development embeds the computational core of [cpu_spmm_v2.cpp]
    (the merge-path search, the three OpenMP SpMM kernels, their carry-out
    fix-up and the serial reference [SpmvGold]), the call sequences of its
    test harness, two computations of [RunTests] and the three loops of
    [axpy.cpp].  It proves the properties the specification states about
    them, and then further properties read off the code.

    Modelling conventions.

    - [int] / [OffsetT] values are integers of [Z]; C++ [/] on them is
      [Z.quot], [>> 1] is [Z.shiftr _ 1].  Signed overflow is undefined in
      C++.  Where a statement depends on it the model stops there: the
      countdown loops of [axpy.cpp] fault when [size--] reaches the least
      [int], and the iteration count of [RunTests] has no result when its
      [int] product does not fit.  Elsewhere every statement is about
      sizes that fit the machine type.
    - [ValueT] ([float] or [double]) is an arbitrary type with the
      operations the code uses ([0.0], [+], [*], and [1.0], the default
      [alpha]).  Statements that only track which operations are performed
      hold for any such type; statements that re-associate sums assume the
      semi-ring laws explicitly, which exact arithmetic has and rounding
      arithmetic has not.
    - Buffers handed to the kernels as [__restrict] pointers are lists; a
      read outside the list yields a default and a write outside it is
      dropped (both are undefined in C++).  The two [axpy] loops take plain
      pointers, so they run on one flat heap and may alias.
    - The per-thread carry-out arrays of the load-balanced kernels have the
      fixed length 256 of the source and every access to them is checked.
    - [#pragma omp parallel for] loops run their iterations in index
      order.  For the load-balanced kernels the rows an iteration writes
      are characterised separately ([overwrites_rows]); in the merge-path
      kernel they are disjoint from one iteration to the next, so the
      order does not matter there.
    - The transposing prepass of [OmpCsrSpmmT] is the one loop whose pragma
      has a [private] clause: every thread of its team has an [xt_index]
      of its own that nothing initialises.  The values those copies start
      from are an argument of the model, one per thread, and each thread
      runs its chunk of the static schedule from its own value.
    - [value_carry_out[tid]] holds a pointer to the thread's
      [running_total]; it is modelled by its referent, the contents of
      that array when the thread finishes its segment.
    - Of the test harness only what happens to the buffers is modelled:
      the [memset], whose byte pattern is a value [all_ones] of the value
      type, and the kernel calls.  Timers, printing and [CompareResults]
      (declared in [utils.h]) are left out. *)

From Stdlib Require Import ZArith List Lia Bool QArith Qabs Ring.
From stdpp Require Import base list.
Local Open Scope Z_scope.

(** ** Value arithmetic *)

(** The arithmetic of the template parameter [ValueT]. *)
Class ValueOps (V : Type) := {
  vzero : V;
  vone : V;
  vadd : V -> V -> V;
  vmul : V -> V -> V
}.

#[export] Instance Z_ValueOps : ValueOps Z :=
  {| vzero := 0; vone := 1; vadd := Z.add; vmul := Z.mul |}.

#[export] Instance Q_ValueOps : ValueOps Q :=
  {| vzero := 0%Q; vone := 1%Q; vadd := Qplus; vmul := Qmult |}.

(** ** Faults *)

Inductive fault : Type :=
  | CarryOutOfBounds   (* index outside [row_carry_out] / [value_carry_out] *)
  | OutOfFuel          (* a [while] loop did not finish within its fuel *)
  | SignedOverflow.    (* [size--] on the least [int] *)

Inductive outcome (A : Type) : Type :=
  | Done (a : A)
  | Fault (f : fault).
Arguments Done {A} a.
Arguments Fault {A} f.

#[export] Instance outcome_ret : MRet outcome := @Done.
#[export] Instance outcome_bind : MBind outcome := fun A B k m =>
  match m with
  | Done a => k a
  | Fault f => Fault f
  end.

(** ** Loops *)

(** [for (i = lo; i < hi; ++i) body], with a body that leaves [i] and [hi]
    alone. *)
Definition for_loop {St : Type} (lo hi : Z) (body : Z -> St -> St) (s : St) : St :=
  foldl (fun s i => body i s) s (seqZ lo (hi - lo)).

(** The same loop with a body that may fault. *)
Definition for_loopM {St : Type} (lo hi : Z) (body : Z -> St -> outcome St) (s : St)
  : outcome St :=
  foldl (fun m i => s ← m; body i s) (Done s) (seqZ lo (hi - lo)).

(** ** Buffers *)

Definition rd {A : Type} (d : A) (l : list A) (i : Z) : A :=
  if i <? 0 then d else default d (l !! Z.to_nat i).

Definition wr {A : Type} (l : list A) (i : Z) (v : A) : list A :=
  if i <? 0 then l else <[Z.to_nat i := v]> l.

(** A pointer into a buffer of offsets, as in [a.row_offsets + 1]. *)
Record ptr : Type := Ptr { base : list Z; offset : Z }.

Definition ptr_add (p : ptr) (n : Z) : ptr :=
  {| base := base p; offset := offset p + n |}.

(** The iterator of the source: [operator[]] returns [val + n]. *)
Record CountingInputIterator : Type := Counting { val : Z }.

(** What [MergePathSearch] and [RowPathSearch] need of their template
    parameters [AIteratorT] and [BIteratorT]: [operator[]]. *)
Class Subscript (I : Type) := subscript : I -> Z -> Z.

#[export] Instance ptr_subscript : Subscript ptr :=
  fun p n => rd 0 (base p) (offset p + n).
#[export] Instance counting_subscript : Subscript CountingInputIterator :=
  fun it n => val it + n.

Module int2.
Record t : Type := mk { x : Z; y : Z }.
End int2.

(** ** The two loops of axpy.cpp *)

(** The least and the greatest [int]. *)
Definition int_min : Z := - 2 ^ 31.
Definition int_max : Z := 2 ^ 31 - 1.

Section Axpy.
Context {V : Type} `{ValueOps V}.

(** One flat memory of values; a [double*] is an address in it. *)
Definition heap : Type := Z -> V.

Definition store (m : heap) (p : Z) (v : V) : heap :=
  fun q => if q =? p then v else m q.

(** [for (i = 0; i < size; i++) vector_y[i] += a * vector_x[i];] *)
Definition axpy_ (size : Z) (a : V) (vector_x vector_y : Z) (m : heap) : heap :=
  for_loop 0 size
    (fun i m => store m (vector_y + i)
                  (vadd (m (vector_y + i)) (vmul a (m (vector_x + i))))) m.

(** [while (size--) { *(vector_y++) = a * *(vector_x++); }]
    The test reads [size] and decrements it; on the least [int] the
    decrement overflows. *)
Fixpoint axpy_2 (fuel : nat) (size : Z) (a : V) (vector_x vector_y : Z)
    (m : heap) : outcome heap :=
  if size =? 0 then Done m
  else if size =? int_min then Fault SignedOverflow
  else match fuel with
       | O => Fault OutOfFuel
       | S fuel' =>
           axpy_2 fuel' (size - 1) a (vector_x + 1) (vector_y + 1)
                  (store m vector_y (vmul a (m vector_x)))
       end.
End Axpy.

(** ** The copy loop of axpy.cpp *)

Section Copy.
Context {V : Type} `{ValueOps V}.

(** [while (size--) { *(y++) = *(x++); }], with the same test as in
    [axpy_2]. *)
Fixpoint copy_loop (fuel : nat) (size : Z) (x y : Z) (m : @heap V)
    : outcome (@heap V) :=
  if size =? 0 then Done m
  else if size =? int_min then Fault SignedOverflow
  else match fuel with
       | O => Fault OutOfFuel
       | S fuel' => copy_loop fuel' (size - 1) (x + 1) (y + 1) (store m y (m x))
       end.

(** [copy]: the loop above on [x = vector_x], [y = vector_y], then
    [return vector_x;].  The argument [a] is not used.  The result is the
    returned pointer and the heap. *)
Definition copy (fuel : nat) (size : Z) (a : V) (vector_x vector_y : Z)
    (m : @heap V) : outcome (Z * @heap V) :=
  m ← copy_loop fuel size vector_x vector_y m;
  Done (vector_x, m).
End Copy.

(** ** Path searches *)

Section PathSearch.
Context {AIteratorT BIteratorT : Type}
        `{Subscript AIteratorT} `{Subscript BIteratorT}.

(** The [while (x_min < x_max)] loop of [MergePathSearch]. *)
Fixpoint MergePathSearch_loop (fuel : nat) (diagonal : Z) (a : AIteratorT)
    (b : BIteratorT) (x_min x_max : Z) : outcome Z :=
  if x_min <? x_max then
    match fuel with
    | O => Fault OutOfFuel
    | S fuel' =>
        let x_pivot := Z.shiftr (x_min + x_max) 1 in
        if subscript a x_pivot <=? subscript b (diagonal - x_pivot - 1)
        then MergePathSearch_loop fuel' diagonal a b (x_pivot + 1) x_max
        else MergePathSearch_loop fuel' diagonal a b x_min x_pivot
    end
  else Done x_min.

Definition MergePathSearch (diagonal : Z) (a : AIteratorT) (b : BIteratorT)
    (a_len b_len : Z) : outcome int2.t :=
  let x_min := Z.max (diagonal - b_len) 0 in
  let x_max := Z.min diagonal a_len in
  x_min ← MergePathSearch_loop (Z.to_nat (x_max - x_min)) diagonal a b x_min x_max;
  Done {| int2.x := Z.min x_min a_len; int2.y := diagonal - x_min |}.

(** [RowPathSearch] reads [path_coordinate.y] and sets [path_coordinate.x];
    its loop is the one above with [diagonal - x_pivot] replaced by the
    fixed [path_coordinate.y]. *)
Fixpoint RowPathSearch_loop (fuel : nat) (a : AIteratorT) (b : BIteratorT)
    (path_y : Z) (x_min x_max : Z) : outcome Z :=
  if x_min <? x_max then
    match fuel with
    | O => Fault OutOfFuel
    | S fuel' =>
        let x_pivot := Z.shiftr (x_min + x_max) 1 in
        if subscript a x_pivot <=? subscript b (path_y - 1)
        then RowPathSearch_loop fuel' a b path_y (x_pivot + 1) x_max
        else RowPathSearch_loop fuel' a b path_y x_min x_pivot
    end
  else Done x_min.

Definition RowPathSearch (a : AIteratorT) (b : BIteratorT) (a_len : Z)
    (path_coordinate : int2.t) : outcome int2.t :=
  let x_min := 0 in
  let x_max := a_len in
  x_min ← RowPathSearch_loop (Z.to_nat (x_max - x_min)) a b
             (int2.y path_coordinate) x_min x_max;
  Done {| int2.x := Z.min x_min a_len; int2.y := int2.y path_coordinate |}.
End PathSearch.

(** ** Compressed-row matrices *)

(** Modelled from the spec: the class [CsrMatrix] is declared in
    [sparse_matrix.h]; these are the fields of section 3 of the
    specification, which are the ones the kernels read. *)
Record CsrMatrix (V : Type) : Type := {
  num_rows : Z;
  num_cols : Z;
  num_nonzeros : Z;
  row_offsets : list Z;
  column_indices : list Z;
  values : list V
}.
Arguments num_rows {V} _.
Arguments num_cols {V} _.
Arguments num_nonzeros {V} _.
Arguments row_offsets {V} _.
Arguments column_indices {V} _.
Arguments values {V} _.

(** Modelled from the spec: the invariants of section 3, as a check that
    can be run on a concrete matrix. *)
Definition csr_wfb {V : Type} (a : CsrMatrix V) : bool :=
  (0 <=? num_rows a) && (0 <=? num_cols a)
  && (Z.of_nat (length (row_offsets a)) =? num_rows a + 1)
  && (rd 0 (row_offsets a) 0 =? 0)
  && (rd 0 (row_offsets a) (num_rows a) =? num_nonzeros a)
  && forallb (fun i => rd 0 (row_offsets a) i <=? rd 0 (row_offsets a) (i + 1))
             (seqZ 0 (num_rows a))
  && (Z.of_nat (length (column_indices a)) =? num_nonzeros a)
  && (Z.of_nat (length (values a)) =? num_nonzeros a)
  && forallb (fun c => (0 <=? c) && (c <? num_cols a)) (column_indices a).

(** The configuration the kernels read from global variables. *)
Record globals : Type := {
  g_input_row_major : bool;
  g_output_row_major : bool
}.

Section Kernels.
Context {V : Type} `{ValueOps V}.

(** *** Reference kernel *)

Definition SpmvGold (a : CsrMatrix V) (vector_x vector_y_in vector_y_out : list V)
    (alpha beta : V) : list V :=
  for_loop 0 (num_rows a)
    (fun row vector_y_out =>
       let partial := vmul beta (rd vzero vector_y_in row) in
       let partial :=
         for_loop (rd 0 (row_offsets a) row) (rd 0 (row_offsets a) (row + 1))
           (fun offset partial =>
              vadd partial
                (vmul (vmul alpha (rd vzero (values a) offset))
                      (rd vzero vector_x (rd 0 (column_indices a) offset))))
           partial in
       wr vector_y_out row partial)
    vector_y_out.

(** *** Blocks the three kernels repeat *)

(** [val = values[off]; ind = column_indices[off]*num_vectors;
    for (i...) total[i] += val * vector_x_row_major[ind + i];] *)
Definition accumulate (column_indices : list Z) (values : list V)
    (vector_x_row_major : list V) (num_vectors : Z) (off : Z) (total : list V)
    : list V :=
  let val := rd vzero values off in
  let ind := rd 0 column_indices off * num_vectors in
  for_loop 0 num_vectors
    (fun i total =>
       wr total i (vadd (rd vzero total i)
                        (vmul val (rd vzero vector_x_row_major (ind + i)))))
    total.

(** [ValueT running_total[num_vectors] = {0.0};] *)
Definition zeros (num_vectors : Z) : list V :=
  replicate (Z.to_nat num_vectors) vzero.

(** *** Row-parallel kernel *)

(** [for (j = lo; j < hi; j += step) body], entered with [0 < step]. *)
Definition for_step {St : Type} (lo hi step : Z) (body : Z -> St -> St) (s : St) : St :=
  foldl (fun s k => body (lo + k * step) s) s
        (seqZ 0 (Z.quot (hi - lo + step - 1) step)).

(** The loop of the transposing prepass.  [xt_index] is [private] in the
    pragma, so the value a thread starts from is indeterminate; it is an
    argument here, and the loop is the one a team of one thread runs. *)
Definition transpose_prepass (xt_index : Z) (num_cols num_vectors : Z)
    (vector_x vector_x_row_major : list V) : Z * list V :=
  for_loop 0 num_cols
    (fun i st =>
       for_step i (num_cols * num_vectors) num_cols
         (fun j '(xt_index, vector_x_row_major) =>
            (xt_index + 1, wr vector_x_row_major xt_index (rd vzero vector_x j)))
         st)
    (xt_index, vector_x_row_major).

(** The iterations [lo .. hi - 1] of that loop, run by a thread whose
    [xt_index] starts at the given value. *)
Definition prepass_chunk (lo hi : Z) (xt_index : Z) (num_cols num_vectors : Z)
    (vector_x vector_x_row_major : list V) : Z * list V :=
  for_loop lo hi
    (fun i st =>
       for_step i (num_cols * num_vectors) num_cols
         (fun j '(xt_index, vector_x_row_major) =>
            (xt_index + 1, wr vector_x_row_major xt_index (rd vzero vector_x j)))
         st)
    (xt_index, vector_x_row_major).

(** [schedule(static)] without a chunk size splits the [n] iterations into
    [num_threads] contiguous chunks, one per thread in thread order.
    OpenMP leaves their sizes to the runtime; these are the ones of the
    GNU and LLVM runtimes, where the first [n mod num_threads] threads
    take one iteration more than the others.  Thread [tid] runs the
    iterations from [static_chunk_start n num_threads tid] up to
    [static_chunk_start n num_threads (tid + 1) - 1]. *)
Definition static_chunk_start (n num_threads tid : Z) : Z :=
  let n := Z.max 0 n in
  Z.quot n num_threads * tid + Z.min tid (Z.rem n num_threads).

(** The prepass under its pragma, [parallel for schedule(static)
    num_threads(num_threads) private(xt_index)], entered with
    [1 <= num_threads].  The [xt_index = 0] of the enclosing function does
    not reach the loop: [xt_index tid] is the value the copy of thread
    [tid] starts from.  The threads run one after the other in thread
    order; where two of them store to the same entry the source leaves the
    order open. *)
Definition team_prepass (xt_index : Z -> Z) (num_threads : Z)
    (num_cols num_vectors : Z) (vector_x vector_x_row_major : list V) : list V :=
  for_loop 0 num_threads
    (fun tid vector_x_row_major =>
       snd (prepass_chunk (static_chunk_start num_cols num_threads tid)
              (static_chunk_start num_cols num_threads (tid + 1))
              (xt_index tid) num_cols num_vectors vector_x vector_x_row_major))
    vector_x_row_major.

(** Returns [vector_y_out] and [vector_x_row_major] as the call leaves
    them. *)
Definition OmpCsrSpmmT (g : globals) (xt_index : Z -> Z) (num_threads : Z)
    (a : CsrMatrix V) (vector_x vector_y_out : list V) (num_vectors : Z)
    (vector_x_row_major : list V) : list V * list V :=
  let vector_x_row_major :=
    if negb (g_input_row_major g)
    then team_prepass xt_index num_threads (num_cols a) num_vectors
           vector_x vector_x_row_major
    else vector_x_row_major in
  let vector_y_out :=
    for_loop 0 (num_rows a)
      (fun row vector_y_out =>
         let partial :=
           for_loop (rd 0 (row_offsets a) row) (rd 0 (row_offsets a) (row + 1))
             (accumulate (column_indices a) (values a) vector_x_row_major
                num_vectors)
             (zeros num_vectors) in
         if g_output_row_major g then
           let ind := row * num_vectors in
           for_loop 0 num_vectors
             (fun i vector_y_out => wr vector_y_out (ind + i) (rd vzero partial i))
             vector_y_out
         else
           for_loop 0 num_vectors
             (fun i vector_y_out =>
                wr vector_y_out (row + i * num_rows a) (rd vzero partial i))
             vector_y_out)
      vector_y_out in
  (vector_y_out, vector_x_row_major).

(** *** Load-balanced kernels: the shared part *)

(** What a thread holds while it walks its path segment. *)
Record walk : Type := Walk {
  walk_y : Z;                   (* [thread_coord.y] *)
  running_total : list V;
  walk_out : list V             (* [vector_y_out] *)
}.

(** One iteration of "Consume whole rows": finish row [row], store its
    total and clear it. *)
Definition consume_row (row_end_offsets : ptr) (column_indices : list Z)
    (values : list V) (vector_x_row_major : list V) (num_vectors : Z)
    (row : Z) (w : walk) : walk :=
  let row_end := subscript row_end_offsets row in
  let total :=
    for_loop (walk_y w) row_end
      (accumulate column_indices values vector_x_row_major num_vectors)
      (running_total w) in
  let ind := row * num_vectors in
  let '(out, total) :=
    for_loop 0 num_vectors
      (fun i '(out, total) =>
         (wr out (ind + i) (rd vzero total i), wr total i vzero))
      (walk_out w, total) in
  {| walk_y := Z.max (walk_y w) row_end; running_total := total; walk_out := out |}.

(** The body of the parallel loop between the coordinate search and
    "Save carry-outs"; the text is the same in both kernels. *)
Definition consume_segment (row_end_offsets : ptr) (column_indices : list Z)
    (values : list V) (vector_x_row_major : list V) (num_vectors : Z)
    (thread_coord thread_coord_end : int2.t) (vector_y_out : list V) : walk :=
  let w :=
    for_loop (int2.x thread_coord) (int2.x thread_coord_end)
      (consume_row row_end_offsets column_indices values vector_x_row_major
         num_vectors)
      {| walk_y := int2.y thread_coord;
         running_total := zeros num_vectors;
         walk_out := vector_y_out |} in
  let total :=
    for_loop (walk_y w) (int2.y thread_coord_end)
      (accumulate column_indices values vector_x_row_major num_vectors)
      (running_total w) in
  {| walk_y := Z.max (walk_y w) (int2.y thread_coord_end);
     running_total := total;
     walk_out := walk_out w |}.

(** [row_carry_out[256]], [value_carry_out[256]] and [vector_y_out]. *)
Record shared : Type := Shared {
  row_carry_out : list Z;
  value_carry_out : list (list V);
  shared_out : list V
}.

Definition carry_slots : Z := 256.

Definition carry_store {A : Type} (arr : list A) (tid : Z) (v : A)
    : outcome (list A) :=
  if (0 <=? tid) && (tid <? carry_slots)
  then Done (<[Z.to_nat tid := v]> arr)
  else Fault CarryOutOfBounds.

Definition carry_load {A : Type} (d : A) (arr : list A) (tid : Z) : outcome A :=
  if (0 <=? tid) && (tid <? carry_slots)
  then Done (default d (arr !! Z.to_nat tid))
  else Fault CarryOutOfBounds.

(** The arrays are uninitialised in the source; no entry is read before
    it is written. *)
Definition shared_init (vector_y_out : list V) : shared :=
  {| row_carry_out := replicate (Z.to_nat carry_slots) 0;
     value_carry_out := replicate (Z.to_nat carry_slots) [];
     shared_out := vector_y_out |}.

(** "Save carry-outs". *)
Definition save_carry (tid : Z) (thread_coord_end : int2.t) (w : walk)
    (s : shared) : outcome shared :=
  rco ← carry_store (row_carry_out s) tid (int2.x thread_coord_end);
  vco ← carry_store (value_carry_out s) tid (running_total w);
  Done {| row_carry_out := rco; value_carry_out := vco; shared_out := walk_out w |}.

(** The loop [for (tid = 0; tid < num_threads; tid++)] under the pragma,
    iterations in index order.  The two kernels differ only in how a
    thread finds its coordinates ([coords]); the rest of the body is the
    same text. *)
Definition parallel_phase (coords : Z -> outcome (int2.t * int2.t))
    (num_threads : Z) (row_end_offsets : ptr) (column_indices : list Z)
    (values : list V) (num_vectors : Z) (vector_x_row_major : list V)
    (s : shared) : outcome shared :=
  for_loopM 0 num_threads
    (fun tid s =>
       '(thread_coord, thread_coord_end) ← coords tid;
       save_carry tid thread_coord_end
         (consume_segment row_end_offsets column_indices values
            vector_x_row_major num_vectors thread_coord thread_coord_end
            (shared_out s))
         s)
    s.

(** "Carry-out fix-up (rows spanning multiple threads)". *)
Definition carry_fixup (num_threads : Z) (a : CsrMatrix V) (num_vectors : Z)
    (s : shared) : outcome (list V) :=
  for_loopM 0 (num_threads - 1)
    (fun tid vector_y_out =>
       row ← carry_load 0 (row_carry_out s) tid;
       if row <? num_rows a then
         let ind := row * num_vectors in
         carry ← carry_load [] (value_carry_out s) tid;
         Done (for_loop 0 num_vectors
                 (fun i vector_y_out =>
                    wr vector_y_out (ind + i)
                       (vadd (rd vzero vector_y_out (ind + i)) (rd vzero carry i)))
                 vector_y_out)
       else Done vector_y_out)
    (shared_out s).

(** *** Merge-path kernel *)

(** [items_per_thread], [start_diagonal] and [end_diagonal] of thread
    [tid] in [OmpMergeCsrmm]. *)
Definition merge_items_per_thread (num_threads : Z) (a : CsrMatrix V) : Z :=
  let num_merge_items := num_rows a + num_nonzeros a in
  Z.quot (num_merge_items + num_threads - 1) num_threads.

Definition start_diagonal (num_threads : Z) (a : CsrMatrix V) (tid : Z) : Z :=
  let num_merge_items := num_rows a + num_nonzeros a in
  let items_per_thread := merge_items_per_thread num_threads a in
  Z.min (items_per_thread * tid) num_merge_items.

Definition end_diagonal (num_threads : Z) (a : CsrMatrix V) (tid : Z) : Z :=
  let num_merge_items := num_rows a + num_nonzeros a in
  let items_per_thread := merge_items_per_thread num_threads a in
  Z.min (start_diagonal num_threads a tid + items_per_thread) num_merge_items.

(** Start and end coordinate of thread [tid]. *)
Definition merge_coords (num_threads : Z) (a : CsrMatrix V)
    (row_end_offsets : ptr) (tid : Z) : outcome (int2.t * int2.t) :=
  let nonzero_indices := Counting 0 in
  thread_coord ← MergePathSearch (start_diagonal num_threads a tid)
                    row_end_offsets nonzero_indices
                    (num_rows a) (num_nonzeros a);
  thread_coord_end ← MergePathSearch (end_diagonal num_threads a tid)
                        row_end_offsets nonzero_indices
                        (num_rows a) (num_nonzeros a);
  Done (thread_coord, thread_coord_end).

(** The parallel loop, iterations in index order. *)
Definition merge_parallel (num_threads : Z) (a : CsrMatrix V)
    (row_end_offsets : ptr) (column_indices : list Z) (values : list V)
    (num_vectors : Z) (vector_x_row_major : list V) (s : shared)
    : outcome shared :=
  parallel_phase (merge_coords num_threads a row_end_offsets) num_threads
    row_end_offsets column_indices values num_vectors vector_x_row_major s.

Definition OmpMergeCsrmm (num_threads : Z) (a : CsrMatrix V)
    (row_end_offsets : ptr) (column_indices : list Z) (values : list V)
    (vector_x vector_y_out : list V) (num_vectors : Z)
    (vector_x_row_major : list V) : outcome (list V) :=
  s ← merge_parallel num_threads a row_end_offsets column_indices values
        num_vectors vector_x_row_major (shared_init vector_y_out);
  carry_fixup num_threads a num_vectors s.

(** *** Nonzero-split kernel *)

(** [items_per_thread], [thread_coord.y] and [thread_coord_end.y] of thread
    [tid] in [OmpNonzeroSplitCsrmm]. *)
Definition nonzero_items_per_thread (num_threads : Z) (a : CsrMatrix V) : Z :=
  Z.quot (num_nonzeros a + num_threads - 1) num_threads.

Definition thread_coord_y (num_threads : Z) (a : CsrMatrix V) (tid : Z) : Z :=
  let items_per_thread := nonzero_items_per_thread num_threads a in
  Z.min (items_per_thread * tid) (num_nonzeros a).

Definition thread_coord_end_y (num_threads : Z) (a : CsrMatrix V) (tid : Z) : Z :=
  let items_per_thread := nonzero_items_per_thread num_threads a in
  Z.min (thread_coord_y num_threads a tid + items_per_thread) (num_nonzeros a).

(** [thread_coord.x] is not initialised before [RowPathSearch] sets it; the
    0 passed here is never read. *)
Definition nonzero_coords (num_threads : Z) (a : CsrMatrix V)
    (row_end_offsets : ptr) (tid : Z) : outcome (int2.t * int2.t) :=
  let nonzero_indices := Counting 0 in
  thread_coord ← RowPathSearch row_end_offsets nonzero_indices (num_rows a)
                    {| int2.x := 0; int2.y := thread_coord_y num_threads a tid |};
  thread_coord_end ← RowPathSearch row_end_offsets nonzero_indices (num_rows a)
                        {| int2.x := 0;
                           int2.y := thread_coord_end_y num_threads a tid |};
  Done (thread_coord, thread_coord_end).

Definition nonzero_parallel (num_threads : Z) (a : CsrMatrix V)
    (row_end_offsets : ptr) (column_indices : list Z) (values : list V)
    (num_vectors : Z) (vector_x_row_major : list V) (s : shared)
    : outcome shared :=
  parallel_phase (nonzero_coords num_threads a row_end_offsets) num_threads
    row_end_offsets column_indices values num_vectors vector_x_row_major s.

Definition OmpNonzeroSplitCsrmm (num_threads : Z) (a : CsrMatrix V)
    (row_end_offsets : ptr) (column_indices : list Z) (values : list V)
    (vector_x vector_y_out : list V) (num_vectors : Z)
    (vector_x_row_major : list V) : outcome (list V) :=
  s ← nonzero_parallel num_threads a row_end_offsets column_indices values
        num_vectors vector_x_row_major (shared_init vector_y_out);
  carry_fixup num_threads a num_vectors s.

(** *** The calls of the test harness *)

(** [a.row_offsets + 1] *)
Definition row_end_offsets_of (a : CsrMatrix V) : ptr :=
  ptr_add {| base := row_offsets a; offset := 0 |} 1.

(** [OmpMergeCsrmm(g_omp_threads, a, a.row_offsets + 1, a.column_indices,
    a.values, vector_x, vector_y_out, num_vectors, vector_x_row_major)] *)
Definition TestOmpMergeCsrmm_call (num_threads : Z) (a : CsrMatrix V)
    (vector_x vector_y_out : list V) (num_vectors : Z)
    (vector_x_row_major : list V) : outcome (list V) :=
  OmpMergeCsrmm num_threads a (row_end_offsets_of a) (column_indices a)
    (values a) vector_x vector_y_out num_vectors vector_x_row_major.

Definition TestOmpNonzeroSplitCsrmm_call (num_threads : Z) (a : CsrMatrix V)
    (vector_x vector_y_out : list V) (num_vectors : Z)
    (vector_x_row_major : list V) : outcome (list V) :=
  OmpNonzeroSplitCsrmm num_threads a (row_end_offsets_of a) (column_indices a)
    (values a) vector_x vector_y_out num_vectors vector_x_row_major.
End Kernels.

(** ** The test harness *)

Section Harness.
Context {V : Type} `{ValueOps V}.

(** [memset(vector_y_out, -1, sizeof(ValueT) * count)]: the first [count]
    values of the buffer become the value whose bytes are all 0xFF, here
    [all_ones]. *)
Definition memset (all_ones : V) (count : Z) (vector_y_out : list V) : list V :=
  for_loop 0 count (fun i vector_y_out => wr vector_y_out i all_ones) vector_y_out.

(** [for (it = 0; it < timing_iterations; ++it) kernel(..., vector_y_out, ...)] *)
Definition timing_loop (timing_iterations : Z)
    (kernel : list V -> outcome (list V)) (vector_y_out : list V)
    : outcome (list V) :=
  for_loopM 0 timing_iterations (fun it vector_y_out => kernel vector_y_out)
    vector_y_out.

(** [TestOmpMergeCsrmm] as far as [vector_y_out] is concerned: the warm-up
    call after [memset], then the two loops of [timing_iterations] calls.
    [num_threads] is [g_omp_threads] once it is set.  The result is the
    buffer as [CompareResults] is given it and the buffer when the
    function returns; timers and printing are left out. *)
Definition TestOmpMergeCsrmm (all_ones : V) (num_threads : Z) (a : CsrMatrix V)
    (vector_x vector_y_out : list V) (timing_iterations num_vectors : Z)
    (vector_x_row_major : list V) : outcome (list V * list V) :=
  let kernel vector_y_out :=
    OmpMergeCsrmm num_threads a (row_end_offsets_of a) (column_indices a)
      (values a) vector_x vector_y_out num_vectors vector_x_row_major in
  checked ← kernel (memset all_ones (num_rows a * num_vectors) vector_y_out);
  vector_y_out ← timing_loop timing_iterations kernel checked;
  vector_y_out ← timing_loop timing_iterations kernel vector_y_out;
  Done (checked, vector_y_out).

(** [TestOmpNonzeroSplitCsrmm], likewise. *)
Definition TestOmpNonzeroSplitCsrmm (all_ones : V) (num_threads : Z)
    (a : CsrMatrix V) (vector_x vector_y_out : list V)
    (timing_iterations num_vectors : Z) (vector_x_row_major : list V)
    : outcome (list V * list V) :=
  let kernel vector_y_out :=
    OmpNonzeroSplitCsrmm num_threads a (row_end_offsets_of a) (column_indices a)
      (values a) vector_x vector_y_out num_vectors vector_x_row_major in
  checked ← kernel (memset all_ones (num_rows a * num_vectors) vector_y_out);
  vector_y_out ← timing_loop timing_iterations kernel checked;
  vector_y_out ← timing_loop timing_iterations kernel vector_y_out;
  Done (checked, vector_y_out).
End Harness.

Section HarnessRowParallel.
Context {V : Type} `{ValueOps V}.

(** [TestOmpCsrSpmmT] as far as [vector_y_out] and [vector_x_row_major]
    are concerned: the warm-up call after [memset], then the two loops of
    [timing_iterations] calls.  [xt_index call tid] is the value the
    private [xt_index] of thread [tid] starts from in call number [call].
    The result is the two
    buffers as they are when [CompareResults] reads [vector_y_out], and as
    they are when the function returns. *)
Definition TestOmpCsrSpmmT (g : globals) (xt_index : Z -> Z -> Z) (all_ones : V)
    (num_threads : Z) (a : CsrMatrix V) (vector_x vector_y_out : list V)
    (timing_iterations num_vectors : Z) (vector_x_row_major : list V)
    : (list V * list V) * (list V * list V) :=
  let kernel call '(vector_y_out, vector_x_row_major) :=
    OmpCsrSpmmT g (xt_index call) num_threads a vector_x vector_y_out
      num_vectors vector_x_row_major in
  let checked :=
    kernel 0 (memset all_ones (num_rows a * num_vectors) vector_y_out,
              vector_x_row_major) in
  let buffers :=
    for_loop 0 timing_iterations (fun it => kernel (1 + it)) checked in
  let buffers :=
    for_loop 0 timing_iterations
      (fun it => kernel (1 + timing_iterations + it)) buffers in
  (checked, buffers).
End HarnessRowParallel.

(** ** Two computations of [RunTests] *)

(** Conversion of an [int] to [unsigned long long]. *)
Definition to_ull (z : Z) : Z := z mod 2 ^ 64.

(** "Determine # of timing iterations": the block under
    [if (timing_iterations == -1)], and the value passed through
    otherwise.  The product is computed on [int]s and then converted to
    [unsigned long long] by the division.  A product that does not fit an
    [int] overflows, and dividing by zero has no result either. *)
Definition RunTests_timing_iterations (timing_iterations : Z)
    (num_nonzeros num_vectors : Z) : option Z :=
  if timing_iterations =? -1 then
    let product := num_nonzeros * num_vectors in
    if (product <? int_min) || (int_max <? product) then None
    else
      let work := to_ull product in
      if work =? 0 then None
      else
        let timing_iterations :=
          Z.min 1000 (Z.max 10 (Z.quot (Z.shiftl 16 30) work)) in
        Some (if timing_iterations <? 2 then 3 else timing_iterations)
  else Some timing_iterations.

(** "count max-min row nums": the loop runs over [i < csr_matrix.num_cols]
    and returns [(min, max)]. *)
Definition RunTests_min_max {V : Type} (csr_matrix : CsrMatrix V) : Z * Z :=
  for_loop 0 (num_cols csr_matrix)
    (fun i '(min, max) =>
       let diff := rd 0 (row_offsets csr_matrix) (i + 1)
                   - rd 0 (row_offsets csr_matrix) i in
       let max := if diff >? max then diff else max in
       let min := if diff <? min then diff else min in
       (min, max))
    (100000000, 0).

(** ** Vocabulary of the statements *)

(** Modelled from the spec: the invariants of section 3 as a proposition
    ([csr_wfb] decides it). *)
Record csr_wf {V : Type} (a : CsrMatrix V) : Prop := {
  wf_rows : 0 <= num_rows a;
  wf_cols : 0 <= num_cols a;
  wf_offsets_len : Z.of_nat (length (row_offsets a)) = num_rows a + 1;
  wf_first : rd 0 (row_offsets a) 0 = 0;
  wf_last : rd 0 (row_offsets a) (num_rows a) = num_nonzeros a;
  wf_mono : forall i, 0 <= i < num_rows a ->
              rd 0 (row_offsets a) i <= rd 0 (row_offsets a) (i + 1);
  wf_columns_len : Z.of_nat (length (column_indices a)) = num_nonzeros a;
  wf_values_len : Z.of_nat (length (values a)) = num_nonzeros a;
  wf_columns : forall k, 0 <= k < num_nonzeros a ->
                 0 <= rd 0 (column_indices a) k < num_cols a
}.

(** The shape shared by the two search loops: bisection on a test [p]. *)
Fixpoint bisect (fuel : nat) (p : Z -> bool) (x_min x_max : Z) : outcome Z :=
  if x_min <? x_max then
    match fuel with
    | O => Fault OutOfFuel
    | S fuel' =>
        let x_pivot := Z.shiftr (x_min + x_max) 1 in
        if p x_pivot then bisect fuel' p (x_pivot + 1) x_max
        else bisect fuel' p x_min x_pivot
    end
  else Done x_min.

(** The ranges [[lo t, hi t)] of threads [0 .. num_threads - 1] follow one
    another from 0 to [total]. *)
Definition chained (num_threads total : Z) (lo hi : Z -> Z) : Prop :=
  lo 0 = 0 /\ hi (num_threads - 1) = total /\
  (forall t, 0 <= t < num_threads -> lo t <= hi t) /\
  (forall t, 0 <= t < num_threads - 1 -> hi t = lo (t + 1)).

(** Every item of [[0, total)] lies in the range of exactly one thread. *)
Definition covered_once (num_threads total : Z) (lo hi : Z -> Z) : Prop :=
  forall d, 0 <= d < total ->
    exists t, (0 <= t < num_threads /\ lo t <= d < hi t) /\
      forall t', 0 <= t' < num_threads -> lo t' <= d < hi t' -> t' = t.

(** The sum of [values[k] * x[column_indices[k]]] for [k] from [lo] up to
    [hi - 1], added up in that order starting from zero. *)
Definition dot_range {V : Type} `{ValueOps V} (a : CsrMatrix V) (x : list V)
    (lo hi : Z) : V :=
  for_loop lo hi
    (fun k acc =>
       vadd acc (vmul (rd vzero (values a) k)
                      (rd vzero x (rd 0 (column_indices a) k))))
    vzero.

(** [values[k] * vector_x_row_major[column_indices[k] * num_vectors + i]] *)
Definition product_at {V : Type} `{ValueOps V} (column_indices : list Z)
    (values : list V) (vector_x_row_major : list V) (num_vectors : Z)
    (k i : Z) : V :=
  vmul (rd vzero values k)
       (rd vzero vector_x_row_major (rd 0 column_indices k * num_vectors + i)).

(** [start] plus the products of the entries [lo .. hi - 1] for vector
    column [i], added in that order. *)
Definition column_sum {V : Type} `{ValueOps V} (column_indices : list Z)
    (values : list V) (vector_x_row_major : list V) (num_vectors : Z)
    (i lo hi : Z) (start : V) : V :=
  for_loop lo hi
    (fun k acc =>
       vadd acc (product_at column_indices values vector_x_row_major
                   num_vectors k i))
    start.

(** The value of [thread_coord.y] when a thread that starts at [c] enters
    row [r] of "Consume whole rows": each earlier row has moved it up to
    the end of that row. *)
Definition row_resume (row_end_offsets : ptr) (c : int2.t) (r : Z) : Z :=
  for_loop (int2.x c) r
    (fun row y => Z.max y (subscript row_end_offsets row)) (int2.y c).

(** Its value when the thread leaves that loop. *)
Definition partial_start (row_end_offsets : ptr) (c ce : int2.t) : Z :=
  row_resume row_end_offsets c (int2.x ce).

(** The running total of a thread after its last stored row, as the
    kernel builds it: [accumulate] over the entries from [partial_start]
    up to [thread_coord_end.y - 1], starting from [zeros]. *)
Definition partial_total {V : Type} `{ValueOps V} (row_end_offsets : ptr)
    (column_indices : list Z) (values : list V) (vector_x_row_major : list V)
    (num_vectors : Z) (c ce : int2.t) : list V :=
  for_loop (partial_start row_end_offsets c ce) (int2.y ce)
    (accumulate column_indices values vector_x_row_major num_vectors)
    (zeros num_vectors).

(** After the parallel loop, slot [tid] of the carry-out arrays holds the
    row index of the thread's end coordinate and its last running total:
    [num_vectors] entries, entry [i] being the products of the entries
    from [partial_start] up to [thread_coord_end.y - 1] against vector
    column [i], added in that order starting from zero. *)
Definition carries_recorded {V : Type} `{ValueOps V}
    (coords : Z -> outcome (int2.t * int2.t)) (num_threads : Z)
    (row_end_offsets : ptr) (column_indices : list Z) (values : list V)
    (num_vectors : Z) (vector_x_row_major : list V) (s : shared) : Prop :=
  forall tid, 0 <= tid < num_threads ->
    exists c ce, coords tid = Done (c, ce) /\
      rd 0 (row_carry_out s) tid = int2.x ce /\
      Z.of_nat (length (rd [] (value_carry_out s) tid)) = num_vectors /\
      forall i, 0 <= i < num_vectors ->
        rd vzero (rd [] (value_carry_out s) tid) i
        = column_sum column_indices values vector_x_row_major num_vectors i
            (partial_start row_end_offsets c ce) (int2.y ce) vzero.

(** [start] with the carry-outs of the threads of [tids] whose recorded row
    is [r] added to it, column [i], in the order of [tids]. *)
Definition add_carries {V : Type} `{ValueOps V} (s : shared) (r i : Z)
    (tids : list Z) (start : V) : V :=
  foldl (fun acc tid =>
           if rd 0 (row_carry_out s) tid =? r
           then vadd acc (rd vzero (rd [] (value_carry_out s) tid) i)
           else acc)
        start tids.

(** [out] is what the parallel loop left, with the carry-out of every
    thread [0 .. num_threads - 2] added once to its row. *)
Definition carries_applied {V : Type} `{ValueOps V} (num_threads : Z)
    (a : CsrMatrix V) (num_vectors : Z) (s : shared) (out : list V) : Prop :=
  length out = length (shared_out s) /\
  (forall r i, 0 <= r < num_rows a -> 0 <= i < num_vectors ->
     rd vzero out (r * num_vectors + i)
     = add_carries s r i (seqZ 0 (num_threads - 1))
         (rd vzero (shared_out s) (r * num_vectors + i))) /\
  (forall j, ~ (0 <= j < num_rows a * num_vectors) ->
     rd vzero out j = rd vzero (shared_out s) j).

(** [s] with slot [tid] of both carry-out arrays replaced. *)
Definition with_carry {V : Type} (s : @shared V) (tid : Z) (row : Z)
    (carry : list V) : shared :=
  {| row_carry_out := wr (row_carry_out s) tid row;
     value_carry_out := wr (value_carry_out s) tid carry;
     shared_out := shared_out s |}.

(** The threads whose carry-out the fix-up adds to row [r]: those of
    [0 .. num_threads - 2] that recorded [r]. *)
Definition carry_contributors {V : Type} (num_threads : Z) (s : @shared V)
    (r : Z) : list Z :=
  List.filter (fun tid => rd 0 (row_carry_out s) tid =? r)
              (seqZ 0 (num_threads - 1)).

(** The merge-path coordinate on diagonal [d] (the search always returns,
    see [MergePathSearch_total]). *)
Definition merge_point {V : Type} (a : CsrMatrix V) (d : Z) : int2.t :=
  match MergePathSearch d (row_end_offsets_of a) (Counting 0)
          (num_rows a) (num_nonzeros a) with
  | Done c => c
  | Fault _ => {| int2.x := 0; int2.y := 0 |}
  end.

(** First row and past-the-end row of "Consume whole rows" in thread [tid]
    of the merge-path kernel. *)
Definition merge_first_row {V : Type} (num_threads : Z) (a : CsrMatrix V)
    (tid : Z) : Z :=
  int2.x (merge_point a (start_diagonal num_threads a tid)).

Definition merge_end_row {V : Type} (num_threads : Z) (a : CsrMatrix V)
    (tid : Z) : Z :=
  int2.x (merge_point a (end_diagonal num_threads a tid)).

(** The row [RowPathSearch] finds for position [y] (the search always
    returns, see [RowPathSearch_total]). *)
Definition row_of_position {V : Type} (a : CsrMatrix V) (y : Z) : Z :=
  match RowPathSearch (row_end_offsets_of a) (Counting 0) (num_rows a)
          {| int2.x := 0; int2.y := y |} with
  | Done c => int2.x c
  | Fault _ => 0
  end.

(** A segment from [c] to [ce] overwrites the rows [c.x .. ce.x - 1] of
    [vector_y_out] and nothing else: every other entry keeps its value,
    and what those rows receive does not depend on what the buffer
    held. *)
Definition overwrites_rows {V : Type} `{ValueOps V} (row_end_offsets : ptr)
    (column_indices : list Z) (values : list V) (vector_x_row_major : list V)
    (num_vectors : Z) (c ce : int2.t) : Prop :=
  forall out : list V,
    let w := consume_segment row_end_offsets column_indices values
               vector_x_row_major num_vectors c ce out in
    length (walk_out w) = length out /\
    (forall j, ~ (int2.x c * num_vectors <= j < int2.x ce * num_vectors) ->
       rd vzero (walk_out w) j = rd vzero out j) /\
    (forall (out' : list V) r i,
       length out' = length out ->
       int2.x c <= r < int2.x ce -> 0 <= i < num_vectors ->
       rd vzero (walk_out w) (r * num_vectors + i)
       = rd vzero
           (walk_out (consume_segment row_end_offsets column_indices values
                        vector_x_row_major num_vectors c ce out'))
           (r * num_vectors + i)).

(** The carry-out protocol of a load-balanced kernel whose threads find
    their coordinates with [coords] and whose result is [result]: the
    parallel loop finishes in a state [s] that records every thread's
    carry-out, the kernel returns what [s] holds with the carry-outs of
    threads [0 .. num_threads - 2] applied, and whatever the last slot
    holds has no influence on that. *)
Definition fixup_protocol {V : Type} `{ValueOps V}
    (coords : Z -> outcome (int2.t * int2.t)) (num_threads : Z)
    (a : CsrMatrix V) (row_end_offsets : ptr) (column_indices : list Z)
    (values : list V) (vector_y_out : list V) (num_vectors : Z)
    (vector_x_row_major : list V) (result : outcome (list V)) : Prop :=
  exists s out,
    parallel_phase coords num_threads row_end_offsets column_indices values
      num_vectors vector_x_row_major (shared_init vector_y_out) = Done s /\
    carries_recorded coords num_threads row_end_offsets column_indices values
      num_vectors vector_x_row_major s /\
    result = Done out /\
    carries_applied num_threads a num_vectors s out /\
    (forall row carry,
       carry_fixup num_threads a num_vectors
         (with_carry s (num_threads - 1) row carry) = Done out).

(** Where entry [(r, i)] of a [num_rows] x [num_vectors] result lives: the
    two write branches of [OmpCsrSpmmT]. *)
Definition entry_index (row_major : bool) (num_rows num_vectors r i : Z) : Z :=
  if row_major then r * num_vectors + i else r + i * num_rows.

(** Entry [(r, i)] of a result buffer read in the layout that [g]
    configures for the output. *)
Definition result_entry {V : Type} `{ValueOps V} (g : globals) (a : CsrMatrix V)
    (num_vectors : Z) (buffer : list V) (r i : Z) : V :=
  rd vzero buffer (entry_index (g_output_row_major g) (num_rows a) num_vectors r i).


(** The coordinates of thread [tid] of the nonzero-split kernel. *)
Definition nonzero_first_point {V : Type} (num_threads : Z) (a : CsrMatrix V)
    (tid : Z) : int2.t :=
  {| int2.x := row_of_position a (thread_coord_y num_threads a tid);
     int2.y := thread_coord_y num_threads a tid |}.

Definition nonzero_end_point {V : Type} (num_threads : Z) (a : CsrMatrix V)
    (tid : Z) : int2.t :=
  {| int2.x := row_of_position a (thread_coord_end_y num_threads a tid);
     int2.y := thread_coord_end_y num_threads a tid |}.

(** A coordinate on the merge path of [a]: position [y] lies in row [x],
    or at its end. *)
Definition on_path {V : Type} (a : CsrMatrix V) (c : int2.t) : Prop :=
  0 <= int2.x c <= num_rows a /\
  0 <= int2.y c <= num_nonzeros a /\
  rd 0 (row_offsets a) (int2.x c) <= int2.y c /\
  (int2.x c < num_rows a -> int2.y c <= rd 0 (row_offsets a) (int2.x c + 1)).

(** ** Matrices used in examples *)

(** [[3]] *)
Definition one_by_one {V : Type} (v : V) : CsrMatrix V :=
  {| num_rows := 1; num_cols := 1; num_nonzeros := 1;
     row_offsets := [0; 1]; column_indices := [0]; values := [v] |}.

(** One row with two entries. *)
Definition one_row_two : CsrMatrix Z :=
  {| num_rows := 1; num_cols := 2; num_nonzeros := 2;
     row_offsets := [0; 2]; column_indices := [0; 1]; values := [1; 1] |}.

(** One row with five entries. *)
Definition one_row_five : CsrMatrix Z :=
  {| num_rows := 1; num_cols := 5; num_nonzeros := 5;
     row_offsets := [0; 5]; column_indices := [0; 1; 2; 3; 4];
     values := [1; 2; 3; 4; 5] |}.

(** Four rows, the second empty and the third holding seven of the nine
    entries. *)
Definition skewed : CsrMatrix Z :=
  {| num_rows := 4; num_cols := 3; num_nonzeros := 9;
     row_offsets := [0; 1; 1; 8; 9];
     column_indices := [0; 0; 1; 2; 0; 1; 2; 1; 2];
     values := [1; 2; 3; 4; 5; 6; 7; 8; 9] |}.

(** The 2 x 2 identity. *)
Definition identity2 : CsrMatrix Z :=
  {| num_rows := 2; num_cols := 2; num_nonzeros := 2;
     row_offsets := [0; 1; 2]; column_indices := [0; 1]; values := [1; 1] |}.

(** Two configurations: operand and result row-major; operand row-major
    and result column-major. *)
Definition row_major_both : globals :=
  {| g_input_row_major := true; g_output_row_major := true |}.

Definition column_major_out : globals :=
  {| g_input_row_major := true; g_output_row_major := false |}.

(** A matrix without rows. *)
Definition no_rows : CsrMatrix Z :=
  {| num_rows := 0; num_cols := 3; num_nonzeros := 0;
     row_offsets := [0]; column_indices := []; values := [] |}.

(** A matrix whose last two rows are empty. *)
Definition trailing_empty : CsrMatrix Z :=
  {| num_rows := 3; num_cols := 2; num_nonzeros := 2;
     row_offsets := [0; 2; 2; 2]; column_indices := [0; 1]; values := [1; 2] |}.

(** Configuration: operand column-major, result row-major. *)
Definition column_major_in : globals :=
  {| g_input_row_major := false; g_output_row_major := true |}.

(** Configuration: operand and result column-major. *)
Definition column_major_both : globals :=
  {| g_input_row_major := false; g_output_row_major := false |}.

(** * Properties *)

(** ** Loops and buffers *)

Lemma for_loop_nil {St : Type} (lo hi : Z) (body : Z -> St -> St) (s : St) :
  hi <= lo -> for_loop lo hi body s = s.
Proof. intros Hle. unfold for_loop. rewrite seqZ_nil by lia. reflexivity. Qed.

Lemma for_loop_last {St : Type} (lo hi : Z) (body : Z -> St -> St) (s : St) :
  lo <= hi -> for_loop lo (hi + 1) body s = body hi (for_loop lo hi body s).
Proof.
  intros Hle. unfold for_loop.
  replace (hi + 1 - lo) with ((hi - lo) + 1) by lia.
  rewrite seqZ_app by lia. rewrite foldl_app.
  rewrite (seqZ_cons _ 1) by lia. rewrite (seqZ_nil _ (Z.pred 1)) by lia. simpl.
  replace (lo + (hi - lo)) with hi by lia. reflexivity.
Qed.

Lemma for_loop_split {St : Type} (lo mid hi : Z) (body : Z -> St -> St) (s : St) :
  lo <= mid <= hi ->
  for_loop lo hi body s = for_loop mid hi body (for_loop lo mid body s).
Proof.
  intros Hm. unfold for_loop.
  replace (hi - lo) with ((mid - lo) + (hi - mid)) by lia.
  rewrite seqZ_app by lia. rewrite foldl_app.
  replace (lo + (mid - lo)) with mid by lia. reflexivity.
Qed.

(** Invariant rule: [P i s] holds of the state before iteration [i]. *)
Lemma for_loop_inv {St : Type} (P : Z -> St -> Prop) (lo hi : Z)
    (body : Z -> St -> St) (s : St) :
  lo <= hi ->
  P lo s ->
  (forall i s, lo <= i < hi -> P i s -> P (i + 1) (body i s)) ->
  P hi (for_loop lo hi body s).
Proof.
  intros Hle H0 Hstep.
  assert (Hgen : forall n : nat, lo + Z.of_nat n <= hi ->
                   P (lo + Z.of_nat n) (for_loop lo (lo + Z.of_nat n) body s)).
  { induction n as [|n IH]; intros Hn.
    - rewrite Z.add_0_r, for_loop_nil by lia. exact H0.
    - replace (lo + Z.of_nat (S n)) with ((lo + Z.of_nat n) + 1) by lia.
      rewrite for_loop_last by lia. apply Hstep; [lia|]. apply IH. lia. }
  specialize (Hgen (Z.to_nat (hi - lo))).
  replace (lo + Z.of_nat (Z.to_nat (hi - lo))) with hi in Hgen by lia.
  apply Hgen. lia.
Qed.

Lemma for_loop_ext {St : Type} (lo hi : Z) (f g : Z -> St -> St) (s : St) :
  (forall i s, lo <= i < hi -> f i s = g i s) ->
  for_loop lo hi f s = for_loop lo hi g s.
Proof.
  intros Hfg. destruct (Z_le_gt_dec lo hi) as [Hle|Hgt].
  - apply (for_loop_inv (fun i t => for_loop lo i f s = t)); [done| |].
    + rewrite !for_loop_nil by lia. reflexivity.
    + intros i t Hi <-. rewrite for_loop_last by lia. apply Hfg. lia.
  - rewrite !for_loop_nil by lia. reflexivity.
Qed.

Lemma length_wr {A : Type} (l : list A) (i : Z) (v : A) :
  length (wr l i v) = length l.
Proof. unfold wr. destruct (i <? 0); [done|]. apply length_insert. Qed.

Lemma rd_wr_eq {A : Type} (d : A) (l : list A) (i : Z) (v : A) :
  0 <= i < Z.of_nat (length l) -> rd d (wr l i v) i = v.
Proof.
  intros Hi. unfold rd, wr. destruct (Z.ltb_spec i 0) as [?|_]; [lia|].
  rewrite list_lookup_insert_eq by lia. reflexivity.
Qed.

Lemma rd_wr_ne {A : Type} (d : A) (l : list A) (i j : Z) (v : A) :
  i <> j -> rd d (wr l i v) j = rd d l j.
Proof.
  intros Hne. unfold rd, wr.
  destruct (Z.ltb_spec j 0) as [?|Hj]; [done|].
  destruct (Z.ltb_spec i 0) as [?|Hi]; [done|].
  rewrite list_lookup_insert_ne by lia. reflexivity.
Qed.

Lemma rd_in_range {A : Type} (d : A) (l : list A) (i : Z) :
  0 <= i < Z.of_nat (length l) -> l !! Z.to_nat i = Some (rd d l i).
Proof.
  intros Hi. unfold rd. destruct (Z.ltb_spec i 0) as [?|_]; [lia|].
  destruct (lookup_lt_is_Some_2 l (Z.to_nat i)) as [v Hv]; [lia|].
  rewrite Hv. reflexivity.
Qed.

(** Two buffers of one length with the same reads are the same buffer. *)
Lemma rd_ext {A : Type} (d : A) (l k : list A) :
  length l = length k ->
  (forall i, 0 <= i < Z.of_nat (length l) -> rd d l i = rd d k i) ->
  l = k.
Proof.
  intros Hlen Hrd. apply list_eq_same_length with (n := length l); [done|done|].
  intros i x y Hi Hx Hy.
  assert (Hr := Hrd (Z.of_nat i) ltac:(lia)).
  unfold rd in Hr. destruct (Z.ltb_spec (Z.of_nat i) 0) as [?|_]; [lia|].
  rewrite Nat2Z.id, Hx, Hy in Hr. exact Hr.
Qed.

(** ** axpy.cpp *)

Section AxpyFacts.
Context {V : Type} `{ValueOps V}.

Lemma store_eq (m : heap) (p : Z) (v : V) : store m p v p = v.
Proof. unfold store. rewrite Z.eqb_refl. reflexivity. Qed.

Lemma store_ne (m : heap) (p q : Z) (v : V) : q <> p -> store m p v q = m q.
Proof. unfold store. intros Hne. destruct (Z.eqb_spec q p); [lia|done]. Qed.

Lemma not_int_min (size : Z) : 0 <= size -> (size =? int_min) = false.
Proof. intros Hsize. apply Z.eqb_neq. unfold int_min. lia. Qed.

(** The [while (size--)] loop runs [size] times and then stops; every
    amount of fuel from [size] on gives the same heap. *)
Lemma axpy_2_runs (fuel : nat) (a : V) :
  forall (size vector_x vector_y : Z) (m : heap),
    0 <= size -> (Z.to_nat size <= fuel)%nat ->
    vector_x + size <= vector_y \/ vector_y + size <= vector_x ->
    exists m2, axpy_2 fuel size a vector_x vector_y m = Done m2 /\
      (forall i, 0 <= i < size -> m2 (vector_y + i) = vmul a (m (vector_x + i))) /\
      (forall q, ~ (vector_y <= q < vector_y + size) -> m2 q = m q).
Proof.
  induction fuel as [|fuel IH]; intros size px py m Hsize Hfuel Hdisj.
  - assert (size = 0) as -> by lia. exists m. simpl.
    split; [done|]. split; [intros; lia|done].
  - simpl. destruct (Z.eqb_spec size 0) as [->|Hnz].
    + exists m. split; [done|]. split; [intros; lia|done].
    + rewrite not_int_min by lia.
      destruct (IH (size - 1) (px + 1) (py + 1)
                   (store m py (vmul a (m px)))) as (m2 & Hrun & Hy & Hframe);
        [lia|lia|lia|].
      exists m2. split; [exact Hrun|]. split.
      * intros i Hi. destruct (Z.eq_dec i 0) as [->|Hi0].
        -- rewrite !Z.add_0_r. rewrite Hframe by lia. apply store_eq.
        -- replace (py + i) with (py + 1 + (i - 1)) by lia.
           rewrite Hy by lia. rewrite store_ne by lia. f_equal. f_equal. lia.
      * intros q Hq. rewrite Hframe by lia. apply store_ne. lia.
Qed.

Lemma axpy__spec (size : Z) (a : V) (vector_x vector_y : Z) (m : heap) :
  0 <= size ->
  vector_x + size <= vector_y \/ vector_y + size <= vector_x ->
  (forall i, 0 <= i < size ->
     axpy_ size a vector_x vector_y m (vector_y + i)
     = vadd (m (vector_y + i)) (vmul a (m (vector_x + i)))) /\
  (forall q, ~ (vector_y <= q < vector_y + size) ->
     axpy_ size a vector_x vector_y m q = m q).
Proof.
  intros Hsize Hdisj. unfold axpy_.
  apply (for_loop_inv
    (fun n (m' : heap) =>
       (forall i, 0 <= i < n ->
          m' (vector_y + i) = vadd (m (vector_y + i)) (vmul a (m (vector_x + i)))) /\
       (forall q, ~ (vector_y <= q < vector_y + n) -> m' q = m q)));
    [lia| |].
  - split; [intros; lia|done].
  - intros i m' Hi [Hdone Hframe]. split.
    + intros j Hj. destruct (Z.eq_dec j i) as [->|Hne].
      * rewrite store_eq. rewrite !Hframe by lia. reflexivity.
      * rewrite store_ne by lia. apply Hdone. lia.
    + intros q Hq. rewrite store_ne by lia. apply Hframe. lia.
Qed.
End AxpyFacts.

(** C10.  For a size [n >= 0] and arrays [x], [y] of [n] elements that do
    not overlap, [axpy_2] stops and leaves [y[i] = a * x[i]] for every
    [i < n], whatever [y] held before, and changes nothing outside [y]
    (so [x] is unchanged); [axpy_] leaves [y[i]] equal to its previous
    value plus [a * x[i]] and changes nothing outside [y] either.  The two
    results therefore differ at every index where adding the old [y[i]]
    makes a difference. *)
Theorem C10_axpy_2_overwrites_axpy_accumulates
    {V : Type} `{ValueOps V} (n : Z) (a : V) (vector_x vector_y : Z)
    (m : heap) (fuel : nat) :
  0 <= n ->
  (Z.to_nat n <= fuel)%nat ->
  vector_x + n <= vector_y \/ vector_y + n <= vector_x ->
  exists m2,
    axpy_2 fuel n a vector_x vector_y m = Done m2 /\
    (forall i, 0 <= i < n -> m2 (vector_y + i) = vmul a (m (vector_x + i))) /\
    (forall q, ~ (vector_y <= q < vector_y + n) -> m2 q = m q) /\
    (forall i, 0 <= i < n -> m2 (vector_x + i) = m (vector_x + i)) /\
    (forall i, 0 <= i < n ->
       axpy_ n a vector_x vector_y m (vector_y + i)
       = vadd (m (vector_y + i)) (vmul a (m (vector_x + i)))) /\
    (forall q, ~ (vector_y <= q < vector_y + n) ->
       axpy_ n a vector_x vector_y m q = m q) /\
    (forall i, 0 <= i < n ->
       vadd (m (vector_y + i)) (vmul a (m (vector_x + i)))
         <> vmul a (m (vector_x + i)) ->
       axpy_ n a vector_x vector_y m (vector_y + i) <> m2 (vector_y + i)).
Proof.
  intros Hn Hfuel Hdisj.
  destruct (axpy_2_runs fuel a n vector_x vector_y m Hn Hfuel Hdisj)
    as (m2 & Hrun & Hy & Hframe).
  destruct (axpy__spec n a vector_x vector_y m Hn Hdisj) as [Hacc Hframe'].
  exists m2. repeat split; try assumption.
  - intros i Hi. apply Hframe. lia.
  - intros i Hi Hne. rewrite Hacc, Hy by lia. exact Hne.
Qed.

(** The theorem at [n = 2], [a = 3], [x = {1, 1}] at address 0 and
    [y = {1, 1}] at address 2: [axpy_2] leaves 3 in [y[0]], [axpy_] 4. *)
Lemma C10_witness :
  0 <= 2 /\ (Z.to_nat 2 <= 2)%nat /\ (0 + 2 <= 2 \/ 2 + 2 <= 0) /\
  exists m2 : heap,
    axpy_2 2 2 3 0 2 (fun _ => 1) = Done m2 /\
    m2 (2 + 0) = 3 /\ axpy_ 2 3 0 2 (fun _ => 1) (2 + 0) = 4.
Proof.
  split; [lia|]. split; [simpl; lia|]. split; [left; lia|].
  destruct (C10_axpy_2_overwrites_axpy_accumulates (V := Z) 2 3 0 2 (fun _ => 1) 2)
    as (m2 & Hrun & Hy & _ & _ & Hacc & _); [lia|simpl; lia|left; lia|].
  exists m2. split; [exact Hrun|]. split.
  - rewrite (Hy 0) by lia. reflexivity.
  - rewrite (Hacc 0) by lia. reflexivity.
Defined.

(** ** Well-formed matrices *)

Lemma csr_wfb_sound {V : Type} (a : CsrMatrix V) : csr_wfb a = true -> csr_wf a.
Proof.
  unfold csr_wfb. rewrite !andb_true_iff.
  intros [[[[[[[[Hr Hc] Hlen] Hfirst] Hlast] Hmono] Hcl] Hvl] Hcols].
  split; try lia.
  - intros i Hi. apply Z.leb_le.
    rewrite forallb_forall in Hmono. apply Hmono.
    apply list_elem_of_In, elem_of_seqZ. lia.
  - intros k Hk. rewrite forallb_forall in Hcols.
    assert (Hin : In (rd 0 (column_indices a) k) (column_indices a)).
    { apply list_elem_of_In, list_elem_of_lookup. exists (Z.to_nat k).
      apply rd_in_range. lia. }
    apply Hcols in Hin. lia.
Qed.

(** Well-formedness of a concrete matrix, by running the check. *)
Ltac csr_wf_by_check := apply csr_wfb_sound; reflexivity.

Lemma row_offsets_mono {V : Type} (a : CsrMatrix V) :
  csr_wf a ->
  forall i j, 0 <= i <= j -> j <= num_rows a ->
    rd 0 (row_offsets a) i <= rd 0 (row_offsets a) j.
Proof.
  intros Hwf i j Hij Hj.
  replace j with (i + Z.of_nat (Z.to_nat (j - i))) in * by lia.
  induction (Z.to_nat (j - i)) as [|n IH].
  - rewrite Z.add_0_r. lia.
  - etransitivity; [apply IH; lia|].
    replace (i + Z.of_nat (S n)) with (i + Z.of_nat n + 1) by lia.
    apply (wf_mono a Hwf). lia.
Qed.

Lemma row_offsets_range {V : Type} (a : CsrMatrix V) :
  csr_wf a ->
  forall i, 0 <= i <= num_rows a ->
    0 <= rd 0 (row_offsets a) i <= num_nonzeros a.
Proof.
  intros Hwf i Hi. rewrite <- (wf_first a Hwf) at 1. rewrite <- (wf_last a Hwf).
  split; apply row_offsets_mono; auto; lia.
Qed.

(** [row_end_offsets[x]] is [row_offsets[x + 1]]. *)
Lemma subscript_row_end {V : Type} (a : CsrMatrix V) (x : Z) :
  subscript (row_end_offsets_of a) x = rd 0 (row_offsets a) (x + 1).
Proof.
  unfold subscript, ptr_subscript, row_end_offsets_of, ptr_add. simpl.
  f_equal. lia.
Qed.

(** ** Bisection *)

Lemma shiftr_1_between (lo hi : Z) :
  lo < hi -> lo <= Z.shiftr (lo + hi) 1 < hi.
Proof.
  intros Hlt. rewrite Z.shiftr_div_pow2 by lia. change (2 ^ 1) with 2.
  split; [apply Z.div_le_lower_bound|apply Z.div_lt_upper_bound]; lia.
Qed.

(** The loop stops within [x_max - x_min] steps, whatever the test. *)
Lemma bisect_total (fuel : nat) (p : Z -> bool) :
  forall lo hi, (Z.to_nat (hi - lo) <= fuel)%nat ->
    exists r, bisect fuel p lo hi = Done r.
Proof.
  induction fuel as [|fuel IH]; intros lo hi Hfuel; simpl.
  - destruct (Z.ltb_spec lo hi); [lia|]. eauto.
  - destruct (Z.ltb_spec lo hi) as [Hlt|]; [|eauto].
    pose proof (shiftr_1_between lo hi Hlt).
    destruct (p _); apply IH; lia.
Qed.

(** On a test that, once false, stays false, the loop returns the first
    index at which it is false. *)
Lemma bisect_spec (fuel : nat) (p : Z -> bool) :
  forall lo hi,
    (Z.to_nat (hi - lo) <= fuel)%nat ->
    lo <= hi ->
    (forall x x', lo <= x' <= x -> x < hi -> p x = true -> p x' = true) ->
    exists r, bisect fuel p lo hi = Done r /\ lo <= r <= hi /\
      (forall x, lo <= x < r -> p x = true) /\
      (forall x, r <= x < hi -> p x = false).
Proof.
  induction fuel as [|fuel IH]; intros lo hi Hfuel Hle Hanti; simpl.
  - destruct (Z.ltb_spec lo hi); [lia|].
    exists lo. repeat split; intros; lia.
  - destruct (Z.ltb_spec lo hi) as [Hlt|Hge].
    2:{ exists lo. repeat split; intros; lia. }
    pose proof (shiftr_1_between lo hi Hlt) as Hpiv.
    set (x_pivot := Z.shiftr (lo + hi) 1) in *.
    destruct (p x_pivot) eqn:Hp.
    + destruct (IH (x_pivot + 1) hi) as (r & Hrun & Hr & Hbelow & Habove);
        [lia|lia| |].
      { intros x x' Hx Hxh. apply Hanti; lia. }
      exists r. split; [exact Hrun|]. split; [lia|]. split; [|exact Habove].
      intros x Hx. destruct (Z_le_gt_dec x x_pivot) as [Hxp|Hxp].
      * apply (Hanti x_pivot x); [lia|lia|exact Hp].
      * apply Hbelow. lia.
    + destruct (IH lo x_pivot) as (r & Hrun & Hr & Hbelow & Habove);
        [lia|lia| |].
      { intros x x' Hx Hxh. apply Hanti; lia. }
      exists r. split; [exact Hrun|]. split; [lia|]. split; [exact Hbelow|].
      intros x Hx. destruct (Z_lt_ge_dec x x_pivot) as [Hxp|Hxp].
      * apply Habove. lia.
      * destruct (p x) eqn:Hpx; [|reflexivity].
        rewrite (Hanti x x_pivot) in Hp; [discriminate|lia|lia|exact Hpx].
Qed.

Lemma MergePathSearch_loop_bisect {A B : Type} `{Subscript A} `{Subscript B}
    (fuel : nat) (diagonal : Z) (a : A) (b : B) :
  forall lo hi,
    MergePathSearch_loop fuel diagonal a b lo hi
    = bisect fuel (fun x => subscript a x <=? subscript b (diagonal - x - 1)) lo hi.
Proof.
  induction fuel as [|fuel IH]; intros lo hi; simpl; [reflexivity|].
  rewrite !IH. reflexivity.
Qed.

Lemma RowPathSearch_loop_bisect {A B : Type} `{Subscript A} `{Subscript B}
    (fuel : nat) (a : A) (b : B) (path_y : Z) :
  forall lo hi,
    RowPathSearch_loop fuel a b path_y lo hi
    = bisect fuel (fun x => subscript a x <=? subscript b (path_y - 1)) lo hi.
Proof.
  induction fuel as [|fuel IH]; intros lo hi; simpl; [reflexivity|].
  rewrite !IH. reflexivity.
Qed.

(** Both searches return, on any input. *)
Lemma MergePathSearch_total {A B : Type} `{Subscript A} `{Subscript B}
    (diagonal : Z) (a : A) (b : B) (a_len b_len : Z) :
  exists c, MergePathSearch diagonal a b a_len b_len = Done c.
Proof.
  unfold MergePathSearch. rewrite MergePathSearch_loop_bisect.
  edestruct bisect_total as [r ->]; [reflexivity|]. simpl. eauto.
Qed.

Lemma RowPathSearch_total {A B : Type} `{Subscript A} `{Subscript B}
    (a : A) (b : B) (a_len : Z) (c : int2.t) :
  exists x, RowPathSearch a b a_len c
            = Done {| int2.x := x; int2.y := int2.y c |}.
Proof.
  unfold RowPathSearch. rewrite RowPathSearch_loop_bisect.
  edestruct bisect_total as [r ->]; [reflexivity|]. simpl. eauto.
Qed.

(** ** [MergePathSearch] on the row-end offsets of a matrix *)

Section MergePathFacts.
Context {V : Type} (a : CsrMatrix V) (Hwf : csr_wf a).

(** The coordinate on diagonal [d]: its row index is the first [x] with
    [row_offsets[x + 1] + x >= d]. *)
Lemma MergePathSearch_csr (d : Z) :
  0 <= d <= num_rows a + num_nonzeros a ->
  exists c,
    MergePathSearch d (row_end_offsets_of a) (Counting 0)
      (num_rows a) (num_nonzeros a) = Done c /\
    int2.x c + int2.y c = d /\
    Z.max (d - num_nonzeros a) 0 <= int2.x c <= Z.min d (num_rows a) /\
    rd 0 (row_offsets a) (int2.x c) <= int2.y c /\
    (int2.x c < num_rows a -> int2.y c <= rd 0 (row_offsets a) (int2.x c + 1)).
Proof.
  intros Hd. unfold MergePathSearch. rewrite MergePathSearch_loop_bisect.
  pose proof (wf_rows a Hwf) as Hrows.
  pose proof (row_offsets_range a Hwf (num_rows a) ltac:(lia)) as Hnnz.
  set (lo := Z.max (d - num_nonzeros a) 0).
  set (hi := Z.min d (num_rows a)).
  destruct (bisect_spec (Z.to_nat (hi - lo))
              (fun x => subscript (row_end_offsets_of a) x
                        <=? subscript (Counting 0) (d - x - 1)) lo hi)
    as (r & Hrun & Hr & Hbelow & Habove); [lia|lia| |].
  { intros x x' Hx Hxh. rewrite !Z.leb_le, !subscript_row_end.
    unfold subscript, counting_subscript. simpl. intros Hpx.
    pose proof (row_offsets_mono a Hwf (x' + 1) (x + 1)). lia. }
  rewrite Hrun. simpl. eexists. split; [reflexivity|]. simpl.
  rewrite Z.min_l by lia.
  split; [lia|]. split; [lia|]. split.
  - destruct (Z.eq_dec r lo) as [->|Hne].
    + destruct (Z_le_gt_dec (d - num_nonzeros a) 0).
      * replace lo with 0 by lia. rewrite (wf_first a Hwf). lia.
      * pose proof (row_offsets_range a Hwf lo). lia.
    + specialize (Hbelow (r - 1) ltac:(lia)). rewrite Z.leb_le in Hbelow.
      rewrite subscript_row_end in Hbelow.
      unfold subscript, counting_subscript in Hbelow. simpl in Hbelow.
      replace (r - 1 + 1) with r in Hbelow by lia. lia.
  - intros Hrn. destruct (Z.eq_dec r hi) as [->|Hne].
    + pose proof (row_offsets_range a Hwf (hi + 1)). lia.
    + specialize (Habove r ltac:(lia)). rewrite Z.leb_gt in Habove.
      rewrite subscript_row_end in Habove.
      unfold subscript, counting_subscript in Habove. simpl in Habove. lia.
Qed.

(** At most one row index splits diagonal [d] that way. *)
Lemma merge_split_unique (d x x' : Z) :
  0 <= x <= num_rows a -> 0 <= x' <= num_rows a ->
  rd 0 (row_offsets a) x <= d - x ->
  (x < num_rows a -> d - x <= rd 0 (row_offsets a) (x + 1)) ->
  rd 0 (row_offsets a) x' <= d - x' ->
  (x' < num_rows a -> d - x' <= rd 0 (row_offsets a) (x' + 1)) ->
  x' = x.
Proof.
  intros Hx Hx' Hlo Hhi Hlo' Hhi'.
  destruct (Z.lt_trichotomy x' x) as [Hlt|[Heq|Hgt]]; [|exact Heq|].
  - pose proof (row_offsets_mono a Hwf (x' + 1) x). lia.
  - pose proof (row_offsets_mono a Hwf (x + 1) x'). lia.
Qed.
End MergePathFacts.

(** C6 (as amended).  On the row-end offsets of a well-formed matrix and a
    diagonal [d] in [[0, num_rows + num_nonzeros]], [MergePathSearch]
    returns a coordinate [(x, y)] with [x + y = d], [x] in the clamped
    interval [[max (d - num_nonzeros) 0, min d num_rows]], and [x] the
    unique row index with [row_offsets[x] <= d - x] and, when
    [x < num_rows], [row_offsets[x + 1] >= d - x]. *)
Theorem C6_MergePathSearch_split {V : Type} (a : CsrMatrix V) (d : Z) :
  csr_wf a ->
  0 <= d <= num_rows a + num_nonzeros a ->
  exists c,
    MergePathSearch d (row_end_offsets_of a) (Counting 0)
      (num_rows a) (num_nonzeros a) = Done c /\
    int2.x c + int2.y c = d /\
    Z.max (d - num_nonzeros a) 0 <= int2.x c <= Z.min d (num_rows a) /\
    rd 0 (row_offsets a) (int2.x c) <= d - int2.x c /\
    (int2.x c < num_rows a ->
       rd 0 (row_offsets a) (int2.x c + 1) >= d - int2.x c) /\
    (forall x', 0 <= x' <= num_rows a ->
       rd 0 (row_offsets a) x' <= d - x' ->
       (x' < num_rows a -> rd 0 (row_offsets a) (x' + 1) >= d - x') ->
       x' = int2.x c).
Proof.
  intros Hwf Hd.
  destruct (MergePathSearch_csr a Hwf d Hd) as (c & Hrun & Hsum & Hrange & Hlo & Hhi).
  exists c. split; [exact Hrun|]. split; [exact Hsum|]. split; [exact Hrange|].
  split; [lia|]. split; [intros Hx; specialize (Hhi Hx); lia|].
  intros x' Hx' Hlo' Hhi'.
  apply (merge_split_unique a Hwf d); lia.
Qed.

(** The theorem on [skewed] at diagonal 5: the coordinate is [(2, 3)]. *)
Lemma C6_witness :
  csr_wf skewed /\ 0 <= 5 <= num_rows skewed + num_nonzeros skewed /\
  exists c,
    MergePathSearch 5 (row_end_offsets_of skewed) (Counting 0)
      (num_rows skewed) (num_nonzeros skewed) = Done c /\
    int2.x c + int2.y c = 5.
Proof.
  split; [csr_wf_by_check|]. split; [simpl; lia|].
  destruct (C6_MergePathSearch_split skewed 5) as (c & Hrun & Hsum & _).
  - csr_wf_by_check.
  - simpl. lia.
  - exists c. split; [exact Hrun|exact Hsum].
Defined.

(** C6 as stated fails: on one row of two entries, diagonal 2 gets the
    coordinate [(0, 2)], where [row_offsets[x + 1] = 2] is not greater than
    [d - x = 2]; no row index at all satisfies the strict condition. *)
Lemma C6_counterexample :
  csr_wf one_row_two /\
  MergePathSearch 2 (row_end_offsets_of one_row_two) (Counting 0)
    (num_rows one_row_two) (num_nonzeros one_row_two)
  = Done {| int2.x := 0; int2.y := 2 |} /\
  ~ (rd 0 (row_offsets one_row_two) (0 + 1) > 2 - 0) /\
  (forall x, 0 <= x <= num_rows one_row_two ->
     ~ (rd 0 (row_offsets one_row_two) x <= 2 - x /\
        rd 0 (row_offsets one_row_two) (x + 1) > 2 - x)).
Proof.
  split; [csr_wf_by_check|]. split; [reflexivity|].
  split; [vm_compute; intros Hgt; discriminate Hgt|].
  intros x Hx. simpl in Hx.
  assert (x = 0 \/ x = 1) as [-> | ->] by lia; vm_compute; intros [H1 H2];
    first [apply H1; reflexivity | discriminate H2].
Qed.

(** ** Work ranges *)

Lemma chained_covered_once (num_threads total : Z) (lo hi : Z -> Z) :
  1 <= num_threads ->
  chained num_threads total lo hi -> covered_once num_threads total lo hi.
Proof.
  intros Hnt (Hlo0 & Hhin & Hle & Hnext) d Hd.
  assert (Hord : forall n : nat, forall t, 0 <= t ->
            t + 1 + Z.of_nat n < num_threads -> hi t <= lo (t + 1 + Z.of_nat n)).
  { induction n as [|n IH]; intros t Ht Hn.
    - rewrite Z.add_0_r. rewrite Hnext by lia. lia.
    - etransitivity; [apply (IH t); lia|].
      replace (t + 1 + Z.of_nat (S n)) with (t + 1 + Z.of_nat n + 1) by lia.
      rewrite <- Hnext by lia. apply Hle. lia. }
  assert (Hex : forall k : nat, Z.of_nat k < num_threads -> d < hi (Z.of_nat k) ->
            exists t, 0 <= t < num_threads /\ lo t <= d < hi t).
  { induction k as [|k IH]; intros Hk Hdk.
    - exists 0. change (Z.of_nat 0) with 0 in Hdk. lia.
    - destruct (Z_le_gt_dec (lo (Z.of_nat (S k))) d) as [Hge|Hlt].
      + exists (Z.of_nat (S k)). lia.
      + apply IH; [lia|]. rewrite Hnext by lia.
        replace (Z.of_nat k + 1) with (Z.of_nat (S k)) by lia. lia. }
  destruct (Hex (Z.to_nat (num_threads - 1))) as (t & Ht & Hin); [lia| |].
  { rewrite Z2Nat.id by lia. lia. }
  exists t. split; [done|]. intros t' Ht' Hin'.
  destruct (Z.lt_trichotomy t' t) as [Hlt|[Heq|Hgt]]; [|exact Heq|].
  - specialize (Hord (Z.to_nat (t - t' - 1)) t' ltac:(lia) ltac:(lia)).
    replace (t' + 1 + Z.of_nat (Z.to_nat (t - t' - 1))) with t in Hord by lia. lia.
  - specialize (Hord (Z.to_nat (t' - t - 1)) t ltac:(lia) ltac:(lia)).
    replace (t + 1 + Z.of_nat (Z.to_nat (t' - t - 1))) with t' in Hord by lia. lia.
Qed.

(** Even split of [total] items: [ceil (total / num_threads)] items per
    thread, clamped to [total]. *)
Lemma even_split_chained (num_threads total : Z) :
  1 <= num_threads -> 0 <= total ->
  let per := Z.quot (total + num_threads - 1) num_threads in
  chained num_threads total
    (fun tid => Z.min (per * tid) total)
    (fun tid => Z.min (Z.min (per * tid) total + per) total).
Proof.
  intros Hnt Htot per.
  assert (Hper : per = (total + num_threads - 1) / num_threads).
  { unfold per. apply Z.quot_div_nonneg; lia. }
  assert (Hper0 : 0 <= per).
  { rewrite Hper. apply Z.div_pos; lia. }
  assert (Hcover : total <= per * num_threads).
  { rewrite Hper.
    pose proof (Z.mul_succ_div_gt (total + num_threads - 1) num_threads). nia. }
  unfold chained. split; [|split; [|split]].
  - rewrite Z.mul_0_r. lia.
  - nia.
  - intros t Ht. lia.
  - intros t Ht. nia.
Qed.

(** C5.  For a well-formed matrix and [num_threads >= 1], the diagonal
    ranges [[start_diagonal, end_diagonal)] of the merge-path kernel follow
    one another from 0 to [num_rows + num_nonzeros], so every merge item
    lies in exactly one of them; the ranges
    [[thread_coord.y, thread_coord_end.y)] of the nonzero-split kernel,
    cut with [items_per_thread = ceil (num_nonzeros / num_threads)], do
    the same for [[0, num_nonzeros)], and they are the [y] fields of the
    coordinates the kernel computes. *)
Theorem C5_work_ranges_partition {V : Type} (a : CsrMatrix V) (num_threads : Z) :
  csr_wf a ->
  1 <= num_threads ->
  chained num_threads (num_rows a + num_nonzeros a)
    (start_diagonal num_threads a) (end_diagonal num_threads a) /\
  covered_once num_threads (num_rows a + num_nonzeros a)
    (start_diagonal num_threads a) (end_diagonal num_threads a) /\
  nonzero_items_per_thread num_threads a
    = (num_nonzeros a + num_threads - 1) / num_threads /\
  chained num_threads (num_nonzeros a)
    (thread_coord_y num_threads a) (thread_coord_end_y num_threads a) /\
  covered_once num_threads (num_nonzeros a)
    (thread_coord_y num_threads a) (thread_coord_end_y num_threads a) /\
  (forall tid, exists c ce,
     nonzero_coords num_threads a (row_end_offsets_of a) tid = Done (c, ce) /\
     int2.y c = thread_coord_y num_threads a tid /\
     int2.y ce = thread_coord_end_y num_threads a tid).
Proof.
  intros Hwf Hnt.
  pose proof (wf_rows a Hwf) as Hrows.
  pose proof (row_offsets_range a Hwf (num_rows a) ltac:(lia)) as Hnnz.
  rewrite (wf_last a Hwf) in Hnnz.
  assert (Hm : chained num_threads (num_rows a + num_nonzeros a)
                 (start_diagonal num_threads a) (end_diagonal num_threads a)).
  { apply (even_split_chained num_threads (num_rows a + num_nonzeros a)); lia. }
  assert (Hz : chained num_threads (num_nonzeros a)
                 (thread_coord_y num_threads a) (thread_coord_end_y num_threads a)).
  { apply (even_split_chained num_threads (num_nonzeros a)); lia. }
  split; [exact Hm|]. split; [apply chained_covered_once; assumption|].
  split; [apply Z.quot_div_nonneg; lia|].
  split; [exact Hz|]. split; [apply chained_covered_once; assumption|].
  intros tid. unfold nonzero_coords.
  destruct (RowPathSearch_total (row_end_offsets_of a) (Counting 0) (num_rows a)
              {| int2.x := 0; int2.y := thread_coord_y num_threads a tid |})
    as [x1 ->].
  destruct (RowPathSearch_total (row_end_offsets_of a) (Counting 0) (num_rows a)
              {| int2.x := 0; int2.y := thread_coord_end_y num_threads a tid |})
    as [x2 ->].
  simpl. eexists _, _. split; [reflexivity|]. split; reflexivity.
Qed.

(** The theorem on [skewed] with 4 threads: the diagonal ranges are
    [0,4), [4,8), [8,12), [12,13). *)
Lemma C5_witness :
  csr_wf skewed /\ 1 <= 4 /\
  chained 4 (num_rows skewed + num_nonzeros skewed)
    (start_diagonal 4 skewed) (end_diagonal 4 skewed) /\
  map (fun tid => (start_diagonal 4 skewed tid, end_diagonal 4 skewed tid))
      [0; 1; 2; 3]
  = [(0, 4); (4, 8); (8, 12); (12, 13)].
Proof.
  split; [csr_wf_by_check|]. split; [lia|].
  split; [|reflexivity].
  apply (C5_work_ranges_partition skewed 4); [|lia].
  csr_wf_by_check.
Defined.

(** ** The reference kernel *)

Lemma Z_semi_ring : semi_ring_theory (vzero : Z) vone vadd vmul eq.
Proof. constructor; intros; simpl; lia. Qed.

(** The row loop of [SpmvGold]: entry [r] of the result is what the inner
    loop computes for row [r], and nothing else changes.  No law of
    arithmetic is used. *)
Lemma SpmvGold_loops {V : Type} `{ValueOps V} (a : CsrMatrix V)
    (vector_x vector_y_in vector_y_out : list V) (alpha beta : V) :
  num_rows a <= Z.of_nat (length vector_y_out) ->
  let result := SpmvGold a vector_x vector_y_in vector_y_out alpha beta in
  length result = length vector_y_out /\
  (forall r, 0 <= r < num_rows a ->
     rd vzero result r
     = for_loop (rd 0 (row_offsets a) r) (rd 0 (row_offsets a) (r + 1))
         (fun offset partial =>
            vadd partial
              (vmul (vmul alpha (rd vzero (values a) offset))
                    (rd vzero vector_x (rd 0 (column_indices a) offset))))
         (vmul beta (rd vzero vector_y_in r))) /\
  (forall r, ~ (0 <= r < num_rows a) ->
     rd vzero result r = rd vzero vector_y_out r).
Proof.
  intros Hlen result. subst result. unfold SpmvGold.
  destruct (Z_le_gt_dec 0 (num_rows a)) as [Hrows|Hrows].
  2:{ rewrite for_loop_nil by lia. split; [done|]. split; [intros; lia|done]. }
  apply (for_loop_inv
    (fun n out =>
       length out = length vector_y_out /\
       (forall r, 0 <= r < n ->
          rd vzero out r
          = for_loop (rd 0 (row_offsets a) r) (rd 0 (row_offsets a) (r + 1))
              (fun offset partial =>
                 vadd partial
                   (vmul (vmul alpha (rd vzero (values a) offset))
                         (rd vzero vector_x (rd 0 (column_indices a) offset))))
              (vmul beta (rd vzero vector_y_in r))) /\
       (forall r, ~ (0 <= r < n) -> rd vzero out r = rd vzero vector_y_out r)));
    [done| |].
  - split; [done|]. split; [intros; lia|done].
  - intros row out Hrow (Hl & Hdone & Hrest). split; [|split].
    + rewrite length_wr. exact Hl.
    + intros r Hr. destruct (Z.eq_dec r row) as [->|Hne].
      * rewrite rd_wr_eq by lia. reflexivity.
      * rewrite rd_wr_ne by lia. apply Hdone. lia.
    + intros r Hr. rewrite rd_wr_ne by lia. apply Hrest. lia.
Qed.

Section ExactArithmetic.
Context {V : Type} `{ValueOps V}.
Hypothesis Vsrt : semi_ring_theory (vzero : V) vone vadd vmul eq.
Add Ring Vring : Vsrt.

(** The inner loop of [SpmvGold], which scales every product by [alpha]
    before adding it, against the scaled sum. *)
Lemma SpmvGold_row (a : CsrMatrix V) (x : list V) (alpha start : V) (lo hi : Z) :
  for_loop lo hi
    (fun offset partial =>
       vadd partial
         (vmul (vmul alpha (rd vzero (values a) offset))
               (rd vzero x (rd 0 (column_indices a) offset))))
    start
  = vadd start (vmul alpha (dot_range a x lo hi)).
Proof.
  unfold dot_range. destruct (Z_le_gt_dec lo hi) as [Hle|Hgt].
  - apply (for_loop_inv
      (fun i partial =>
         partial = vadd start (vmul alpha
           (for_loop lo i
              (fun k acc =>
                 vadd acc (vmul (rd vzero (values a) k)
                                (rd vzero x (rd 0 (column_indices a) k))))
              vzero)))); [done| |].
    + rewrite for_loop_nil by lia. ring.
    + intros i partial Hi ->. rewrite for_loop_last by lia. ring.
  - rewrite !for_loop_nil by lia. ring.
Qed.

(** C7.  In exact arithmetic, [SpmvGold] leaves in [vector_y_out[r]], for
    every row [r] of the matrix, [beta * vector_y_in[r]] plus [alpha]
    times the sum of [values[k] * vector_x[column_indices[k]]] over the
    offsets [k] of the row; it produces that one vector, of the length it
    was given, and leaves every other entry as it was. *)
Theorem C7_SpmvGold_computes_reference (a : CsrMatrix V)
    (vector_x vector_y_in vector_y_out : list V) (alpha beta : V) :
  num_rows a <= Z.of_nat (length vector_y_out) ->
  let result := SpmvGold a vector_x vector_y_in vector_y_out alpha beta in
  length result = length vector_y_out /\
  (forall r, 0 <= r < num_rows a ->
     rd vzero result r
     = vadd (vmul beta (rd vzero vector_y_in r))
            (vmul alpha
               (dot_range a vector_x (rd 0 (row_offsets a) r)
                  (rd 0 (row_offsets a) (r + 1))))) /\
  (forall r, ~ (0 <= r < num_rows a) ->
     rd vzero result r = rd vzero vector_y_out r).
Proof.
  intros Hlen result.
  destruct (SpmvGold_loops a vector_x vector_y_in vector_y_out alpha beta Hlen)
    as (Hl & Hrows & Hrest).
  fold result in Hl, Hrows, Hrest.
  split; [exact Hl|]. split; [|exact Hrest].
  intros r Hr. rewrite Hrows by exact Hr. apply SpmvGold_row.
Qed.
End ExactArithmetic.

(** The theorem on [skewed] over the integers, with [alpha = 2], [beta = 3],
    [x = (1, 10, 100)] and [y_in = (1, 1, 1, 1)]. *)
Lemma C7_witness :
  num_rows skewed <= Z.of_nat (length [0; 0; 0; 0]) /\
  SpmvGold skewed [1; 10; 100] [1; 1; 1; 1] [0; 0; 0; 0] 2 3
  = [5; 3; 2557; 1803] /\
  rd 0 (SpmvGold skewed [1; 10; 100] [1; 1; 1; 1] [0; 0; 0; 0] 2 3) 2
  = 3 * 1 + 2 * dot_range skewed [1; 10; 100] 1 8.
Proof.
  split; [simpl; lia|]. split; [reflexivity|].
  apply (C7_SpmvGold_computes_reference Z_semi_ring skewed
           [1; 10; 100] [1; 1; 1; 1] [0; 0; 0; 0] 2 3); simpl; lia.
Defined.

(** ** Loops that may fault *)

Lemma for_loopM_nil {St : Type} (lo hi : Z) (body : Z -> St -> outcome St) (s : St) :
  hi <= lo -> for_loopM lo hi body s = Done s.
Proof. intros Hle. unfold for_loopM. rewrite seqZ_nil by lia. reflexivity. Qed.

Lemma for_loopM_last {St : Type} (lo hi : Z) (body : Z -> St -> outcome St) (s : St) :
  lo <= hi ->
  for_loopM lo (hi + 1) body s = (s' ← for_loopM lo hi body s; body hi s').
Proof.
  intros Hle. unfold for_loopM.
  replace (hi + 1 - lo) with ((hi - lo) + 1) by lia.
  rewrite seqZ_app by lia. rewrite foldl_app.
  rewrite (seqZ_cons _ 1) by lia. rewrite (seqZ_nil _ (Z.pred 1)) by lia. simpl.
  replace (lo + (hi - lo)) with hi by lia. reflexivity.
Qed.

(** Invariant rule for a loop whose body does not fault under the
    invariant: the loop finishes and the invariant holds at the end. *)
Lemma for_loopM_inv {St : Type} (P : Z -> St -> Prop) (lo hi : Z)
    (body : Z -> St -> outcome St) (s : St) :
  lo <= hi ->
  P lo s ->
  (forall i s, lo <= i < hi -> P i s -> exists s', body i s = Done s' /\ P (i + 1) s') ->
  exists s', for_loopM lo hi body s = Done s' /\ P hi s'.
Proof.
  intros Hle H0 Hstep.
  assert (Hgen : forall n : nat, lo + Z.of_nat n <= hi ->
            exists s', for_loopM lo (lo + Z.of_nat n) body s = Done s' /\
                       P (lo + Z.of_nat n) s').
  { induction n as [|n IH]; intros Hn.
    - rewrite Z.add_0_r, for_loopM_nil by lia. eauto.
    - destruct IH as (s1 & Hrun & HP); [lia|].
      replace (lo + Z.of_nat (S n)) with ((lo + Z.of_nat n) + 1) by lia.
      rewrite for_loopM_last by lia. rewrite Hrun. simpl.
      apply Hstep; [lia|exact HP]. }
  specialize (Hgen (Z.to_nat (hi - lo))).
  replace (lo + Z.of_nat (Z.to_nat (hi - lo))) with hi in Hgen by lia.
  apply Hgen. lia.
Qed.

(** Once an iteration has faulted, the loop returns that fault. *)
Lemma for_loopM_fault {St : Type} (lo mid hi : Z) (body : Z -> St -> outcome St)
    (s : St) (f : fault) :
  lo <= mid <= hi ->
  for_loopM lo mid body s = Fault f -> for_loopM lo hi body s = Fault f.
Proof.
  intros Hm Hf.
  replace hi with (mid + Z.of_nat (Z.to_nat (hi - mid))) by lia.
  induction (Z.to_nat (hi - mid)) as [|n IH].
  - rewrite Z.add_0_r. exact Hf.
  - replace (mid + Z.of_nat (S n)) with ((mid + Z.of_nat n) + 1) by lia.
    rewrite for_loopM_last by lia. rewrite IH. reflexivity.
Qed.

(** ** The carry-out arrays *)

Section CarryFacts.
Context {V : Type} `{ValueOps V}.

Lemma carry_store_in_bounds {A : Type} (arr : list A) (tid : Z) (v : A) :
  0 <= tid < carry_slots -> carry_store arr tid v = Done (<[Z.to_nat tid := v]> arr).
Proof.
  intros Ht. unfold carry_store.
  destruct (Z.leb_spec 0 tid); [|lia]. destruct (Z.ltb_spec tid carry_slots); [|lia].
  reflexivity.
Qed.

Lemma carry_load_in_bounds {A : Type} (d : A) (arr : list A) (tid : Z) :
  0 <= tid < carry_slots -> carry_load d arr tid = Done (default d (arr !! Z.to_nat tid)).
Proof.
  intros Ht. unfold carry_load.
  destruct (Z.leb_spec 0 tid); [|lia]. destruct (Z.ltb_spec tid carry_slots); [|lia].
  reflexivity.
Qed.

Lemma carry_store_overrun {A : Type} (arr : list A) (tid : Z) (v : A) :
  carry_slots <= tid -> carry_store arr tid v = Fault CarryOutOfBounds.
Proof.
  intros Ht. unfold carry_store.
  destruct (Z.ltb_spec tid carry_slots); [lia|]. rewrite andb_false_r. reflexivity.
Qed.

Lemma save_carry_in_bounds (tid : Z) (ce : int2.t) (w : @walk V) (s : @shared V) :
  0 <= tid < carry_slots ->
  save_carry tid ce w s
  = Done {| row_carry_out := <[Z.to_nat tid := int2.x ce]> (row_carry_out s);
            value_carry_out := <[Z.to_nat tid := running_total w]> (value_carry_out s);
            shared_out := walk_out w |}.
Proof.
  intros Ht. unfold save_carry. rewrite !carry_store_in_bounds by lia. reflexivity.
Qed.

Lemma merge_coords_total (num_threads : Z) (a : CsrMatrix V) (p : ptr) (tid : Z) :
  exists c ce, merge_coords num_threads a p tid = Done (c, ce).
Proof.
  unfold merge_coords.
  destruct (MergePathSearch_total (start_diagonal num_threads a tid) p (Counting 0)
              (num_rows a) (num_nonzeros a)) as [c ->].
  destruct (MergePathSearch_total (end_diagonal num_threads a tid) p (Counting 0)
              (num_rows a) (num_nonzeros a)) as [ce ->].
  simpl. eauto.
Qed.

Lemma nonzero_coords_total (num_threads : Z) (a : CsrMatrix V) (p : ptr) (tid : Z) :
  exists c ce, nonzero_coords num_threads a p tid = Done (c, ce).
Proof.
  unfold nonzero_coords.
  destruct (RowPathSearch_total p (Counting 0) (num_rows a)
              {| int2.x := 0; int2.y := thread_coord_y num_threads a tid |})
    as [x1 ->].
  destruct (RowPathSearch_total p (Counting 0) (num_rows a)
              {| int2.x := 0; int2.y := thread_coord_end_y num_threads a tid |})
    as [x2 ->].
  simpl. eauto.
Qed.

Lemma carry_fixup_total (num_threads : Z) (a : CsrMatrix V) (num_vectors : Z)
    (s : @shared V) :
  num_threads <= carry_slots ->
  exists out, carry_fixup num_threads a num_vectors s = Done out.
Proof.
  intros Hnt. unfold carry_fixup.
  destruct (Z_le_gt_dec 0 (num_threads - 1)) as [Hle|Hgt].
  2:{ rewrite for_loopM_nil by lia. eauto. }
  destruct (for_loopM_inv (fun _ _ => True) 0 (num_threads - 1)
    (fun tid vector_y_out =>
       row ← carry_load 0 (row_carry_out s) tid;
       if row <? num_rows a then
         let ind := row * num_vectors in
         carry ← carry_load [] (value_carry_out s) tid;
         Done (for_loop 0 num_vectors
                 (fun i vector_y_out =>
                    wr vector_y_out (ind + i)
                       (vadd (rd vzero vector_y_out (ind + i)) (rd vzero carry i)))
                 vector_y_out)
       else Done vector_y_out)
    (shared_out s)) as (out & Hrun & _); [lia|done| |eauto].
  intros tid out Ht _. rewrite !carry_load_in_bounds by lia. simpl.
  destruct (_ <? _); simpl; eauto.
Qed.
End CarryFacts.

(** C9.  With [num_threads <= 256] both load-balanced kernels run to the
    end on any input: no read or write of [row_carry_out] or
    [value_carry_out], in the parallel loop or in the fix-up, falls
    outside the 256 slots (an access outside them is the fault
    [CarryOutOfBounds], and the searches never run out of fuel). *)
Theorem C9_carry_arrays_in_bounds {V : Type} `{ValueOps V}
    (num_threads : Z) (a : CsrMatrix V) (row_end_offsets : ptr)
    (column_indices : list Z) (values : list V)
    (vector_x vector_y_out : list V) (num_vectors : Z)
    (vector_x_row_major : list V) :
  num_threads <= 256 ->
  (exists out,
     OmpMergeCsrmm num_threads a row_end_offsets column_indices values
       vector_x vector_y_out num_vectors vector_x_row_major = Done out) /\
  (exists out,
     OmpNonzeroSplitCsrmm num_threads a row_end_offsets column_indices values
       vector_x vector_y_out num_vectors vector_x_row_major = Done out).
Proof.
  intros Hnt. split.
  - unfold OmpMergeCsrmm.
    assert (Hpar : exists s,
      merge_parallel num_threads a row_end_offsets column_indices values
        num_vectors vector_x_row_major (shared_init vector_y_out) = Done s).
    { unfold merge_parallel, parallel_phase.
      destruct (Z_le_gt_dec 0 num_threads) as [Hle|Hgt].
      2:{ rewrite for_loopM_nil by lia. eauto. }
      edestruct (for_loopM_inv (fun _ (_ : @shared V) => True) 0 num_threads)
        as (s & Hrun & _); [exact Hle|done| |eauto].
      intros tid s Ht _.
      destruct (merge_coords_total num_threads a row_end_offsets tid)
        as (c & ce & ->).
      simpl. rewrite save_carry_in_bounds by (unfold carry_slots; lia). eauto. }
    destruct Hpar as [s ->]. simpl.
    apply carry_fixup_total. unfold carry_slots. lia.
  - unfold OmpNonzeroSplitCsrmm.
    assert (Hpar : exists s,
      nonzero_parallel num_threads a row_end_offsets column_indices values
        num_vectors vector_x_row_major (shared_init vector_y_out) = Done s).
    { unfold nonzero_parallel, parallel_phase.
      destruct (Z_le_gt_dec 0 num_threads) as [Hle|Hgt].
      2:{ rewrite for_loopM_nil by lia. eauto. }
      edestruct (for_loopM_inv (fun _ (_ : @shared V) => True) 0 num_threads)
        as (s & Hrun & _); [exact Hle|done| |eauto].
      intros tid s Ht _.
      destruct (nonzero_coords_total num_threads a row_end_offsets tid)
        as (c & ce & ->).
      simpl. rewrite save_carry_in_bounds by (unfold carry_slots; lia). eauto. }
    destruct Hpar as [s ->]. simpl.
    apply carry_fixup_total. unfold carry_slots. lia.
Qed.

(** The theorem at 256 threads on the 1 x 1 matrix. *)
Lemma C9_witness :
  256 <= 256 /\
  exists out,
    OmpMergeCsrmm 256 (one_by_one 3) (row_end_offsets_of (one_by_one 3))
      [0] [3] [10] [-1] 1 [10] = Done out.
Proof.
  split; [lia|].
  destruct (C9_carry_arrays_in_bounds 256 (one_by_one 3)
              (row_end_offsets_of (one_by_one 3)) [0] [3] [10] [-1] 1 [10])
    as [Hmerge _]; [lia|exact Hmerge].
Defined.

(** With more than 256 threads the parallel loop of either kernel leaves
    the arrays: thread 256 stores its carry-out past their end. *)
Lemma parallel_phase_overrun {V : Type} `{ValueOps V}
    (coords : Z -> outcome (int2.t * int2.t)) (num_threads : Z)
    (row_end_offsets : ptr) (column_indices : list Z) (values : list V)
    (num_vectors : Z) (vector_x_row_major : list V) (s : shared) :
  (forall tid, exists c ce, coords tid = Done (c, ce)) ->
  256 < num_threads ->
  parallel_phase coords num_threads row_end_offsets column_indices values
    num_vectors vector_x_row_major s = Fault CarryOutOfBounds.
Proof.
  intros Hcoords Hnt. unfold parallel_phase.
  apply (for_loopM_fault 0 257 num_threads); [lia|].
  change 257 with (256 + 1). rewrite for_loopM_last by lia.
  edestruct (for_loopM_inv (fun _ (_ : @shared V) => True) 0 256)
    as (s1 & -> & _); [lia|done| |].
  - intros tid s' Ht _. destruct (Hcoords tid) as (c & ce & ->). simpl.
    rewrite save_carry_in_bounds by (unfold carry_slots; lia). eauto.
  - simpl. destruct (Hcoords 256) as (c & ce & ->). simpl.
    unfold save_carry. rewrite carry_store_overrun by (unfold carry_slots; lia).
    reflexivity.
Qed.

(** X9.  With more than 256 threads both load-balanced kernels stop in
    the parallel loop with an access past the end of the carry-out
    arrays, whatever the matrix and the buffers are. *)
Lemma carry_arrays_overrun {V : Type} `{ValueOps V}
    (num_threads : Z) (a : CsrMatrix V) (row_end_offsets : ptr)
    (column_indices : list Z) (values : list V)
    (vector_x vector_y_out : list V) (num_vectors : Z)
    (vector_x_row_major : list V) :
  256 < num_threads ->
  OmpMergeCsrmm num_threads a row_end_offsets column_indices values
    vector_x vector_y_out num_vectors vector_x_row_major
  = Fault CarryOutOfBounds /\
  OmpNonzeroSplitCsrmm num_threads a row_end_offsets column_indices values
    vector_x vector_y_out num_vectors vector_x_row_major
  = Fault CarryOutOfBounds.
Proof.
  intros Hnt. unfold OmpMergeCsrmm, OmpNonzeroSplitCsrmm, merge_parallel,
    nonzero_parallel. split.
  - rewrite parallel_phase_overrun; [reflexivity| |exact Hnt].
    intros tid. apply merge_coords_total.
  - rewrite parallel_phase_overrun; [reflexivity| |exact Hnt].
    intros tid. apply nonzero_coords_total.
Qed.

(** The theorem at 257 threads on the 1 x 1 matrix. *)
Lemma carry_arrays_overrun_witness :
  OmpMergeCsrmm 257 (one_by_one 3) (row_end_offsets_of (one_by_one 3))
    [0] [3] [10] [-1] 1 [10] = Fault CarryOutOfBounds.
Proof.
  destruct (carry_arrays_overrun 257 (one_by_one 3)
              (row_end_offsets_of (one_by_one 3)) [0] [3] [10] [-1] 1 [10])
    as [Hmerge _]; [lia|exact Hmerge].
Defined.

(** ** One path segment *)

Section SegmentFacts.
Context {V : Type} `{ValueOps V}.
Variables (row_end_offsets : ptr) (column_indices : list Z) (values : list V)
          (vector_x_row_major : list V) (num_vectors : Z).
Hypothesis Hnv : 0 <= num_vectors.

Local Abbreviation accumulate' :=
  (accumulate column_indices values vector_x_row_major num_vectors).
Local Abbreviation product' :=
  (product_at column_indices values vector_x_row_major num_vectors).
Local Abbreviation column_sum' :=
  (column_sum column_indices values vector_x_row_major num_vectors).

Lemma length_zeros : Z.of_nat (length (zeros num_vectors : list V)) = num_vectors.
Proof. unfold zeros. rewrite length_replicate. lia. Qed.

Lemma rd_zeros (i : Z) : rd vzero (zeros num_vectors : list V) i = vzero.
Proof.
  unfold rd, zeros. destruct (i <? 0); [done|].
  destruct (replicate _ _ !! _) eqn:Hl; [|done].
  apply lookup_replicate in Hl as [-> _]. reflexivity.
Qed.

Lemma accumulate_spec (k : Z) (total : list V) :
  length (accumulate' k total) = length total /\
  (forall i, 0 <= i < num_vectors -> 0 <= i < Z.of_nat (length total) ->
     rd vzero (accumulate' k total) i = vadd (rd vzero total i) (product' k i)) /\
  (forall i, ~ (0 <= i < num_vectors) ->
     rd vzero (accumulate' k total) i = rd vzero total i).
Proof.
  unfold accumulate.
  apply (for_loop_inv
    (fun n t =>
       length t = length total /\
       (forall i, 0 <= i < n -> 0 <= i < Z.of_nat (length total) ->
          rd vzero t i = vadd (rd vzero total i) (product' k i)) /\
       (forall i, ~ (0 <= i < n) -> rd vzero t i = rd vzero total i)));
    [exact Hnv| |].
  - split; [done|]. split; [intros; lia|done].
  - intros i t Hi (Hl & Hdone & Hrest). split; [|split].
    + rewrite length_wr. exact Hl.
    + intros j Hj Hjl. destruct (Z.eq_dec j i) as [->|Hne].
      * rewrite rd_wr_eq by lia. rewrite Hrest by lia. reflexivity.
      * rewrite rd_wr_ne by lia. apply Hdone; lia.
    + intros j Hj. rewrite rd_wr_ne by lia. apply Hrest. lia.
Qed.

Lemma accumulate_range_spec (lo hi : Z) (total : list V) :
  length (for_loop lo hi accumulate' total) = length total /\
  (forall i, 0 <= i < num_vectors -> 0 <= i < Z.of_nat (length total) ->
     rd vzero (for_loop lo hi accumulate' total) i
     = column_sum' i lo hi (rd vzero total i)).
Proof.
  unfold column_sum. destruct (Z_le_gt_dec lo hi) as [Hle|Hgt].
  2:{ rewrite !for_loop_nil by lia. split; [done|].
      intros i _ _. rewrite for_loop_nil by lia. reflexivity. }
  apply (for_loop_inv
    (fun n t =>
       length t = length total /\
       (forall i, 0 <= i < num_vectors -> 0 <= i < Z.of_nat (length total) ->
          rd vzero t i
          = for_loop lo n (fun k acc => vadd acc (product' k i))
              (rd vzero total i)))); [exact Hle| |].
  - split; [done|]. intros i _ _. rewrite for_loop_nil by lia. reflexivity.
  - intros k t Hk (Hl & Hsum).
    destruct (accumulate_spec k t) as (Hl' & Hacc & _). split.
    + rewrite Hl'. exact Hl.
    + intros i Hi Hil. rewrite Hacc by (rewrite ?Hl; lia).
      rewrite Hsum by lia. rewrite for_loop_last by lia. reflexivity.
Qed.

(** A running total that starts from zeros is, column by column, the sum of
    the products. *)
Lemma rd_accumulate_zeros (lo hi i : Z) :
  0 <= i < num_vectors ->
  rd vzero (for_loop lo hi accumulate' (zeros num_vectors)) i
  = column_sum' i lo hi vzero.
Proof.
  intros Hi. destruct (accumulate_range_spec lo hi (zeros num_vectors)) as [_ Hsum].
  rewrite Hsum by (rewrite ?length_zeros; lia). rewrite rd_zeros. reflexivity.
Qed.

(** The running total the kernel builds, entry by entry. *)
Lemma partial_total_spec (c ce : int2.t) :
  let total := partial_total row_end_offsets column_indices values
                 vector_x_row_major num_vectors c ce in
  Z.of_nat (length total) = num_vectors /\
  (forall i, 0 <= i < num_vectors ->
     rd vzero total i
     = column_sum' i (partial_start row_end_offsets c ce) (int2.y ce) vzero).
Proof.
  unfold partial_total. split.
  - destruct (accumulate_range_spec (partial_start row_end_offsets c ce)
                (int2.y ce) (zeros num_vectors)) as [Hl _].
    rewrite Hl. apply length_zeros.
  - intros i Hi. apply rd_accumulate_zeros. exact Hi.
Qed.

(** The loop that stores a finished row and clears the running total. *)
Lemma store_row_spec (ind : Z) (out total : list V) :
  Z.of_nat (length total) = num_vectors ->
  let r := for_loop 0 num_vectors
             (fun i '(out, total) =>
                (wr out (ind + i) (rd vzero total i), wr total i vzero))
             (out, total) in
  snd r = zeros num_vectors /\
  length (fst r) = length out /\
  (forall i, 0 <= i < num_vectors -> 0 <= ind + i < Z.of_nat (length out) ->
     rd vzero (fst r) (ind + i) = rd vzero total i) /\
  (forall j, ~ (ind <= j < ind + num_vectors) -> rd vzero (fst r) j = rd vzero out j).
Proof.
  intros Hlen r. subst r.
  assert (Hinv :
    let r := for_loop 0 num_vectors
               (fun i '(out, total) =>
                  (wr out (ind + i) (rd vzero total i), wr total i vzero))
               (out, total) in
    (length (snd r) = length total /\
     (forall i, 0 <= i < num_vectors -> rd vzero (snd r) i = vzero) /\
     (forall i, ~ (0 <= i < num_vectors) -> rd vzero (snd r) i = rd vzero total i)) /\
    length (fst r) = length out /\
    (forall i, 0 <= i < num_vectors -> 0 <= ind + i < Z.of_nat (length out) ->
       rd vzero (fst r) (ind + i) = rd vzero total i) /\
    (forall j, ~ (ind <= j < ind + num_vectors) -> rd vzero (fst r) j = rd vzero out j)).
  { apply (for_loop_inv
      (fun n (r : list V * list V) =>
         (length (snd r) = length total /\
          (forall i, 0 <= i < n -> rd vzero (snd r) i = vzero) /\
          (forall i, ~ (0 <= i < n) -> rd vzero (snd r) i = rd vzero total i)) /\
         length (fst r) = length out /\
         (forall i, 0 <= i < n -> 0 <= ind + i < Z.of_nat (length out) ->
            rd vzero (fst r) (ind + i) = rd vzero total i) /\
         (forall j, ~ (ind <= j < ind + n) -> rd vzero (fst r) j = rd vzero out j)));
      [exact Hnv| |].
    - simpl. repeat split; intros; try lia; reflexivity.
    - intros i [o t] Hi ((Hlt & Hz & Hrest) & Hlo & Hrow & Hframe). simpl in *.
      split; [split; [|split]|split; [|split]].
      + rewrite length_wr. exact Hlt.
      + intros j Hj. destruct (Z.eq_dec j i) as [->|Hne].
        * apply rd_wr_eq. lia.
        * rewrite rd_wr_ne by lia. apply Hz. lia.
      + intros j Hj. rewrite rd_wr_ne by lia. apply Hrest. lia.
      + rewrite length_wr. exact Hlo.
      + intros j Hj Hjl. destruct (Z.eq_dec j i) as [->|Hne].
        * rewrite rd_wr_eq by lia. apply Hrest. lia.
        * rewrite rd_wr_ne by lia. apply Hrow; lia.
      + intros j Hj. rewrite rd_wr_ne by lia. apply Hframe. lia. }
  destruct Hinv as ((Hlt & Hz & _) & Hrest). split; [|exact Hrest].
  apply (rd_ext vzero).
  - apply Nat2Z.inj. rewrite length_zeros. lia.
  - intros i Hi. rewrite rd_zeros. apply Hz. lia.
Qed.

Local Abbreviation consume_row' :=
  (consume_row row_end_offsets column_indices values vector_x_row_major
     num_vectors).

(** "Consume whole rows" from [c] up to row [xe]: the running total is
    cleared again, every row of the range holds its sum from where the
    thread entered it, and no other entry of [vector_y_out] has changed. *)
Lemma consume_rows_spec (c : int2.t) (xe : Z) (out : list V) :
  int2.x c <= xe ->
  let w := for_loop (int2.x c) xe consume_row'
             {| walk_y := int2.y c; running_total := zeros num_vectors;
                walk_out := out |} in
  walk_y w = row_resume row_end_offsets c xe /\
  running_total w = zeros num_vectors /\
  length (walk_out w) = length out /\
  (forall r i, int2.x c <= r < xe -> 0 <= i < num_vectors ->
     0 <= r * num_vectors + i < Z.of_nat (length out) ->
     rd vzero (walk_out w) (r * num_vectors + i)
     = column_sum' i (row_resume row_end_offsets c r)
         (subscript row_end_offsets r) vzero) /\
  (forall j, ~ (int2.x c * num_vectors <= j < xe * num_vectors) ->
     rd vzero (walk_out w) j = rd vzero out j).
Proof.
  intros Hle w. subst w. unfold row_resume.
  apply (for_loop_inv
    (fun n w =>
       walk_y w = for_loop (int2.x c) n
                    (fun row y => Z.max y (subscript row_end_offsets row))
                    (int2.y c) /\
       running_total w = zeros num_vectors /\
       length (walk_out w) = length out /\
       (forall r i, int2.x c <= r < n -> 0 <= i < num_vectors ->
          0 <= r * num_vectors + i < Z.of_nat (length out) ->
          rd vzero (walk_out w) (r * num_vectors + i)
          = column_sum' i
              (for_loop (int2.x c) r
                 (fun row y => Z.max y (subscript row_end_offsets row))
                 (int2.y c))
              (subscript row_end_offsets r) vzero) /\
       (forall j, ~ (int2.x c * num_vectors <= j < n * num_vectors) ->
          rd vzero (walk_out w) j = rd vzero out j))); [exact Hle| |].
  - simpl. rewrite for_loop_nil by lia.
    repeat split; intros; try lia; reflexivity.
  - intros n w Hn (Hy & Ht & Hl & Hrows & Hframe).
    unfold consume_row.
    set (total := for_loop (walk_y w) (subscript row_end_offsets n) accumulate'
                    (running_total w)).
    assert (Htl : Z.of_nat (length total) = num_vectors).
    { unfold total. destruct (accumulate_range_spec (walk_y w)
        (subscript row_end_offsets n) (running_total w)) as [-> _].
      rewrite Ht. apply length_zeros. }
    pose proof (store_row_spec (n * num_vectors) (walk_out w) total Htl) as Hst.
    simpl in Hst.
    destruct (for_loop 0 num_vectors _ (walk_out w, total)) as [out' total'].
    simpl in Hst. destruct Hst as (Hz & Hlo & Hrow & Hfr). simpl.
    split; [|split; [|split; [|split]]].
    + rewrite for_loop_last by lia. rewrite <- Hy. reflexivity.
    + exact Hz.
    + rewrite Hlo. exact Hl.
    + intros r i Hr Hi Hri. destruct (Z.eq_dec r n) as [->|Hne].
      * rewrite Hrow by lia. unfold total. rewrite Ht.
        rewrite rd_accumulate_zeros by lia. rewrite Hy. reflexivity.
      * rewrite Hfr by nia. apply Hrows; lia.
    + intros j Hj. rewrite Hfr by nia. apply Hframe. nia.
Qed.

Local Abbreviation consume_segment' :=
  (consume_segment row_end_offsets column_indices values vector_x_row_major
     num_vectors).

(** A whole segment: the rows as above, and the running total the thread
    ends with is [partial_total]; neither depends on what [vector_y_out]
    held. *)
Lemma consume_segment_spec (c ce : int2.t) (out : list V) :
  let w := consume_segment' c ce out in
  running_total w
  = partial_total row_end_offsets column_indices values vector_x_row_major
      num_vectors c ce /\
  length (walk_out w) = length out /\
  (forall r i, int2.x c <= r < int2.x ce -> 0 <= i < num_vectors ->
     0 <= r * num_vectors + i < Z.of_nat (length out) ->
     rd vzero (walk_out w) (r * num_vectors + i)
     = column_sum' i (row_resume row_end_offsets c r)
         (subscript row_end_offsets r) vzero) /\
  (forall j, ~ (int2.x c * num_vectors <= j < int2.x ce * num_vectors) ->
     rd vzero (walk_out w) j = rd vzero out j).
Proof.
  intros w. subst w. unfold consume_segment, partial_total, partial_start.
  destruct (Z_le_gt_dec (int2.x c) (int2.x ce)) as [Hle|Hgt].
  - destruct (consume_rows_spec c (int2.x ce) out Hle)
      as (Hy & Ht & Hl & Hrows & Hframe). simpl in *.
    rewrite Hy, Ht. repeat split; assumption.
  - unfold row_resume.
    rewrite (for_loop_nil (int2.x c) (int2.x ce) consume_row') by lia.
    rewrite (for_loop_nil (int2.x c) (int2.x ce)
               (fun row y => Z.max y (subscript row_end_offsets row))) by lia.
    simpl. repeat split; intros; try nia; reflexivity.
Qed.
End SegmentFacts.

(** ** The parallel loop and the fix-up *)

Lemma rd_negative {A : Type} (d : A) (l : list A) (i : Z) : i < 0 -> rd d l i = d.
Proof. intros Hi. unfold rd. destruct (Z.ltb_spec i 0); [done|lia]. Qed.

Lemma insert_as_wr {A : Type} (l : list A) (i : Z) (v : A) :
  0 <= i -> <[Z.to_nat i := v]> l = wr l i v.
Proof. intros Hi. unfold wr. destruct (Z.ltb_spec i 0); [lia|done]. Qed.

Lemma default_as_rd {A : Type} (d : A) (l : list A) (i : Z) :
  0 <= i -> default d (l !! Z.to_nat i) = rd d l i.
Proof. intros Hi. unfold rd. destruct (Z.ltb_spec i 0); [lia|done]. Qed.

Lemma for_loopM_ext {St : Type} (lo hi : Z) (f g : Z -> St -> outcome St) (s : St) :
  (forall i s, lo <= i < hi -> f i s = g i s) ->
  for_loopM lo hi f s = for_loopM lo hi g s.
Proof.
  intros Hfg. destruct (Z_le_gt_dec lo hi) as [Hle|Hgt].
  2:{ rewrite !for_loopM_nil by lia. reflexivity. }
  replace hi with (lo + Z.of_nat (Z.to_nat (hi - lo))) in * by lia.
  induction (Z.to_nat (hi - lo)) as [|n IH].
  - rewrite !for_loopM_nil by lia. reflexivity.
  - replace (lo + Z.of_nat (S n)) with ((lo + Z.of_nat n) + 1) in * by lia.
    rewrite !for_loopM_last by lia. rewrite IH.
    + destruct (for_loopM _ _ g s); simpl; [|reflexivity]. apply Hfg. lia.
    + intros i t Hi. apply Hfg. lia.
    + lia.
Qed.

Section ProtocolFacts.
Context {V : Type} `{ValueOps V}.

Lemma parallel_phase_records (coords : Z -> outcome (int2.t * int2.t))
    (num_threads : Z) (row_end_offsets : ptr) (column_indices : list Z)
    (values : list V) (num_vectors : Z) (vector_x_row_major : list V)
    (vector_y_out : list V) :
  0 <= num_vectors ->
  num_threads <= 256 ->
  (forall tid, 0 <= tid < num_threads -> exists c ce, coords tid = Done (c, ce)) ->
  exists s,
    parallel_phase coords num_threads row_end_offsets column_indices values
      num_vectors vector_x_row_major (shared_init vector_y_out) = Done s /\
    carries_recorded coords num_threads row_end_offsets column_indices values
      num_vectors vector_x_row_major s /\
    length (shared_out s) = length vector_y_out.
Proof.
  intros Hnv Hnt Hcoords. unfold parallel_phase, carries_recorded.
  destruct (Z_le_gt_dec 0 num_threads) as [Hle|Hgt].
  2:{ rewrite for_loopM_nil by lia. eexists. split; [reflexivity|].
      split; [intros; lia|reflexivity]. }
  edestruct (for_loopM_inv
    (fun n (s : @shared V) =>
       length (row_carry_out s) = 256%nat /\
       length (value_carry_out s) = 256%nat /\
       length (shared_out s) = length vector_y_out /\
       forall tid, 0 <= tid < n ->
         exists c ce, coords tid = Done (c, ce) /\
           rd 0 (row_carry_out s) tid = int2.x ce /\
           Z.of_nat (length (rd [] (value_carry_out s) tid)) = num_vectors /\
           forall i, 0 <= i < num_vectors ->
             rd vzero (rd [] (value_carry_out s) tid) i
             = column_sum column_indices values vector_x_row_major num_vectors i
                 (partial_start row_end_offsets c ce) (int2.y ce) vzero)
       0 num_threads)
    as (s & Hrun & _ & _ & Hlen & Hrec); [exact Hle| | |].
  3:{ exists s. split; [exact Hrun|]. split; [exact Hrec|exact Hlen]. }
  - unfold shared_init. cbn [row_carry_out value_carry_out shared_out].
    rewrite !length_replicate. repeat split; try reflexivity.
    intros; lia.
  - intros tid s Ht (Hlr & Hlv & Hlo & Hrec).
    destruct (Hcoords tid Ht) as (c & ce & Hc). rewrite Hc. simpl.
    rewrite save_carry_in_bounds by (unfold carry_slots; lia).
    eexists. split; [reflexivity|].
    cbn [row_carry_out value_carry_out shared_out].
    rewrite !insert_as_wr by lia. rewrite !length_wr.
    destruct (consume_segment_spec row_end_offsets column_indices values
                vector_x_row_major num_vectors Hnv c ce (shared_out s))
      as (Htot & Hl & _).
    split; [exact Hlr|]. split; [exact Hlv|].
    split; [etransitivity; [exact Hl|exact Hlo]|].
    intros tid' Ht'. destruct (Z.eq_dec tid' tid) as [->|Hne].
    + exists c, ce. split; [exact Hc|].
      rewrite !rd_wr_eq by lia. split; [reflexivity|]. rewrite Htot.
      apply partial_total_spec. exact Hnv.
    + rewrite !rd_wr_ne by lia. apply Hrec. lia.
Qed.

(** The loop of the fix-up that adds one carry-out to its row. *)
Lemma add_row_spec (num_vectors ind : Z) (carry out : list V) :
  0 <= num_vectors ->
  let out' := for_loop 0 num_vectors
                (fun i out =>
                   wr out (ind + i)
                      (vadd (rd vzero out (ind + i)) (rd vzero carry i)))
                out in
  length out' = length out /\
  (forall i, 0 <= i < num_vectors -> 0 <= ind + i < Z.of_nat (length out) ->
     rd vzero out' (ind + i) = vadd (rd vzero out (ind + i)) (rd vzero carry i)) /\
  (forall j, ~ (ind <= j < ind + num_vectors) -> rd vzero out' j = rd vzero out j).
Proof.
  intros Hnv out'. subst out'.
  apply (for_loop_inv
    (fun n o =>
       length o = length out /\
       (forall i, 0 <= i < n -> 0 <= ind + i < Z.of_nat (length out) ->
          rd vzero o (ind + i) = vadd (rd vzero out (ind + i)) (rd vzero carry i)) /\
       (forall j, ~ (ind <= j < ind + n) -> rd vzero o j = rd vzero out j)));
    [exact Hnv| |].
  - split; [done|]. split; [intros; lia|done].
  - intros i o Hi (Hl & Hdone & Hrest). split; [|split].
    + rewrite length_wr. exact Hl.
    + intros j Hj Hjl. destruct (Z.eq_dec j i) as [->|Hne].
      * rewrite rd_wr_eq by lia. rewrite Hrest by lia. reflexivity.
      * rewrite rd_wr_ne by lia. apply Hdone; lia.
    + intros j Hj. rewrite rd_wr_ne by lia. apply Hrest. lia.
Qed.

Lemma add_carries_snoc (s : @shared V) (r i n : Z) (start : V) :
  0 <= n ->
  add_carries s r i (seqZ 0 (n + 1)) start
  = let acc := add_carries s r i (seqZ 0 n) start in
    if rd 0 (row_carry_out s) n =? r
    then vadd acc (rd vzero (rd [] (value_carry_out s) n) i)
    else acc.
Proof.
  intros Hn. unfold add_carries. rewrite seqZ_app by lia. rewrite foldl_app.
  rewrite (seqZ_cons _ 1) by lia. rewrite (seqZ_nil _ (Z.pred 1)) by lia.
  simpl. reflexivity.
Qed.

Lemma carry_fixup_applies (num_threads : Z) (a : CsrMatrix V) (num_vectors : Z)
    (s : shared) :
  num_threads <= 256 ->
  0 <= num_vectors ->
  num_rows a * num_vectors <= Z.of_nat (length (shared_out s)) ->
  exists out, carry_fixup num_threads a num_vectors s = Done out /\
              carries_applied num_threads a num_vectors s out.
Proof.
  intros Hnt Hnv Hlen. unfold carry_fixup, carries_applied.
  destruct (Z_le_gt_dec 0 (num_threads - 1)) as [Hle|Hgt].
  2:{ rewrite for_loopM_nil by lia. eexists. split; [reflexivity|].
      rewrite seqZ_nil by lia. simpl. repeat split; reflexivity. }
  edestruct (for_loopM_inv
    (fun n out =>
       length out = length (shared_out s) /\
       (forall r i, 0 <= r < num_rows a -> 0 <= i < num_vectors ->
          rd vzero out (r * num_vectors + i)
          = add_carries s r i (seqZ 0 n)
              (rd vzero (shared_out s) (r * num_vectors + i))) /\
       (forall j, ~ (0 <= j < num_rows a * num_vectors) ->
          rd vzero out j = rd vzero (shared_out s) j)) 0 (num_threads - 1))
    as (out & Hrun & Hpost); [exact Hle| | |].
  3:{ exists out. split; [exact Hrun|exact Hpost]. }
  - rewrite seqZ_nil by lia. simpl. repeat split; reflexivity.
  - intros tid out Ht (Hl & Hrows & Hframe).
    rewrite !carry_load_in_bounds by (unfold carry_slots; lia).
    rewrite !default_as_rd by lia. simpl.
    set (row := rd 0 (row_carry_out s) tid).
    destruct (Z.ltb_spec row (num_rows a)) as [Hrow|Hrow].
    + simpl. eexists. split; [reflexivity|].
      pose proof (add_row_spec num_vectors (row * num_vectors)
                    (rd [] (value_carry_out s) tid) out Hnv) as Hadd.
      simpl in Hadd. destruct Hadd as (Hl' & Hadded & Hrest).
      split; [lia|]. split.
      * intros r i Hr Hi. rewrite add_carries_snoc by lia. simpl. fold row.
        destruct (Z.eqb_spec row r) as [->|Hne].
        -- rewrite Hadded by nia. rewrite Hrows by lia. reflexivity.
        -- rewrite Hrest by nia. apply Hrows; lia.
      * intros j Hj. destruct (Z_lt_ge_dec j 0) as [Hneg|Hpos].
        -- rewrite !rd_negative by lia. reflexivity.
        -- rewrite Hrest by nia. apply Hframe. lia.
    + eexists. split; [reflexivity|]. split; [exact Hl|]. split; [|exact Hframe].
      intros r i Hr Hi. rewrite add_carries_snoc by lia. simpl. fold row.
      destruct (Z.eqb_spec row r) as [->|Hne]; [lia|]. apply Hrows; lia.
Qed.

Lemma carry_load_other_slot {A : Type} (d : A) (arr : list A) (k tid : Z) (v : A) :
  tid <> k -> carry_load d (wr arr k v) tid = carry_load d arr tid.
Proof.
  intros Hne. unfold carry_load.
  destruct (Z.leb_spec 0 tid); [|reflexivity].
  destruct (_ <? _); [|reflexivity]. simpl.
  rewrite !default_as_rd by lia. rewrite rd_wr_ne by lia. reflexivity.
Qed.

(** The fix-up never looks at the slot of the last thread. *)
Lemma carry_fixup_ignores_last (num_threads : Z) (a : CsrMatrix V)
    (num_vectors : Z) (s : shared) (row : Z) (carry : list V) :
  carry_fixup num_threads a num_vectors (with_carry s (num_threads - 1) row carry)
  = carry_fixup num_threads a num_vectors s.
Proof.
  unfold carry_fixup, with_carry. simpl. apply for_loopM_ext.
  intros tid out Ht. rewrite !carry_load_other_slot by lia. reflexivity.
Qed.

(** The protocol holds of any kernel built from [parallel_phase] and
    [carry_fixup] whose coordinate search returns. *)
Lemma fixup_protocol_holds (coords : Z -> outcome (int2.t * int2.t))
    (num_threads : Z) (a : CsrMatrix V) (row_end_offsets : ptr)
    (column_indices : list Z) (values : list V) (vector_y_out : list V)
    (num_vectors : Z) (vector_x_row_major : list V) :
  num_threads <= 256 ->
  0 <= num_vectors ->
  num_rows a * num_vectors <= Z.of_nat (length vector_y_out) ->
  (forall tid, exists c ce, coords tid = Done (c, ce)) ->
  fixup_protocol coords num_threads a row_end_offsets column_indices values
    vector_y_out num_vectors vector_x_row_major
    (s ← parallel_phase coords num_threads row_end_offsets column_indices
           values num_vectors vector_x_row_major (shared_init vector_y_out);
     carry_fixup num_threads a num_vectors s).
Proof.
  intros Hnt Hnv Hlen Hcoords. unfold fixup_protocol.
  destruct (parallel_phase_records coords num_threads row_end_offsets
              column_indices values num_vectors vector_x_row_major vector_y_out)
    as (s & Hrun & Hrec & Hl); [lia|lia|intros; apply Hcoords|].
  destruct (carry_fixup_applies num_threads a num_vectors s)
    as (out & Hfix & Happ); [lia|lia|lia|].
  exists s, out. split; [exact Hrun|]. split; [exact Hrec|].
  split; [rewrite Hrun; exact Hfix|]. split; [exact Happ|].
  intros row carry. rewrite carry_fixup_ignores_last. exact Hfix.
Qed.
End ProtocolFacts.

(** C3.  In both load-balanced kernels, with at most 256 threads and a
    [vector_y_out] of [num_rows * num_vectors] entries or more: every
    thread records in its slot the row index of its end coordinate and the
    running total it holds after its last stored row.  That total has
    [num_vectors] entries, and entry [i] is the sum, from zero and in
    order, of [values[k] * vector_x_row_major[column_indices[k] *
    num_vectors + i]] over the entries [k] the thread consumed after its
    last stored row.  The fix-up then goes through the threads
    [0 .. num_threads - 2] in order and adds the recorded total of each
    one whose recorded row is below [num_rows] into that row of
    [vector_y_out], once; the slot of the last thread is never read. *)
Theorem C3_carry_out_fixup {V : Type} `{ValueOps V}
    (num_threads : Z) (a : CsrMatrix V) (row_end_offsets : ptr)
    (column_indices : list Z) (values : list V)
    (vector_x vector_y_out : list V) (num_vectors : Z)
    (vector_x_row_major : list V) :
  num_threads <= 256 ->
  0 <= num_vectors ->
  num_rows a * num_vectors <= Z.of_nat (length vector_y_out) ->
  fixup_protocol (merge_coords num_threads a row_end_offsets) num_threads a
    row_end_offsets column_indices values vector_y_out num_vectors
    vector_x_row_major
    (OmpMergeCsrmm num_threads a row_end_offsets column_indices values
       vector_x vector_y_out num_vectors vector_x_row_major) /\
  fixup_protocol (nonzero_coords num_threads a row_end_offsets) num_threads a
    row_end_offsets column_indices values vector_y_out num_vectors
    vector_x_row_major
    (OmpNonzeroSplitCsrmm num_threads a row_end_offsets column_indices values
       vector_x vector_y_out num_vectors vector_x_row_major).
Proof.
  intros Hnt Hnv Hlen. split.
  - apply fixup_protocol_holds; try assumption.
    intros tid. apply merge_coords_total.
  - apply fixup_protocol_holds; try assumption.
    intros tid. apply nonzero_coords_total.
Qed.

(** The theorem on [skewed] with 4 threads and one vector column. *)
Lemma C3_witness :
  4 <= 256 /\ 0 <= 1 /\
  num_rows skewed * 1 <= Z.of_nat (length [-1; -1; -1; -1]) /\
  fixup_protocol (merge_coords 4 skewed (row_end_offsets_of skewed)) 4 skewed
    (row_end_offsets_of skewed) (column_indices skewed) (values skewed)
    [-1; -1; -1; -1] 1 [1; 10; 100]
    (OmpMergeCsrmm 4 skewed (row_end_offsets_of skewed) (column_indices skewed)
       (values skewed) [1; 10; 100] [-1; -1; -1; -1] 1 [1; 10; 100]).
Proof.
  split; [lia|]. split; [lia|]. split; [simpl; lia|].
  destruct (C3_carry_out_fixup 4 skewed (row_end_offsets_of skewed)
              (column_indices skewed) (values skewed) [1; 10; 100]
              [-1; -1; -1; -1] 1 [1; 10; 100]) as [Hmerge _];
    [lia|lia|simpl; lia|exact Hmerge].
Defined.

(** ** Rows and threads in the merge-path kernel *)

Section MergeRows.
Context {V : Type} `{ValueOps V} (a : CsrMatrix V) (Hwf : csr_wf a).

Lemma merge_point_spec (d : Z) :
  0 <= d <= num_rows a + num_nonzeros a ->
  MergePathSearch d (row_end_offsets_of a) (Counting 0)
    (num_rows a) (num_nonzeros a) = Done (merge_point a d) /\
  int2.x (merge_point a d) + int2.y (merge_point a d) = d /\
  Z.max (d - num_nonzeros a) 0 <= int2.x (merge_point a d) <= Z.min d (num_rows a) /\
  rd 0 (row_offsets a) (int2.x (merge_point a d)) <= int2.y (merge_point a d) /\
  (int2.x (merge_point a d) < num_rows a ->
     int2.y (merge_point a d) <= rd 0 (row_offsets a) (int2.x (merge_point a d) + 1)).
Proof.
  intros Hd. destruct (MergePathSearch_csr a Hwf d Hd) as (c & Hrun & Hc).
  unfold merge_point. rewrite Hrun. split; [reflexivity|exact Hc].
Qed.

(** The row index of the coordinate grows with the diagonal. *)
Lemma merge_point_mono (d d' : Z) :
  0 <= d <= d' -> d' <= num_rows a + num_nonzeros a ->
  int2.x (merge_point a d) <= int2.x (merge_point a d').
Proof.
  intros Hd Hd'.
  destruct (merge_point_spec d) as (_ & Hs & Hr & Hlo & Hhi); [lia|].
  destruct (merge_point_spec d') as (_ & Hs' & Hr' & Hlo' & Hhi'); [lia|].
  destruct (Z_le_gt_dec (int2.x (merge_point a d)) (int2.x (merge_point a d')))
    as [Hle|Hgt]; [exact Hle|].
  pose proof (row_offsets_mono a Hwf (int2.x (merge_point a d') + 1)
                (int2.x (merge_point a d))). lia.
Qed.

Lemma diagonals_in_range (num_threads tid : Z) :
  1 <= num_threads -> 0 <= tid ->
  0 <= start_diagonal num_threads a tid <= num_rows a + num_nonzeros a /\
  0 <= end_diagonal num_threads a tid <= num_rows a + num_nonzeros a /\
  start_diagonal num_threads a tid <= end_diagonal num_threads a tid.
Proof.
  intros Hnt Ht.
  pose proof (wf_rows a Hwf) as Hrows.
  pose proof (row_offsets_range a Hwf (num_rows a) ltac:(lia)) as Hnnz.
  rewrite (wf_last a Hwf) in Hnnz.
  assert (Hper : 0 <= merge_items_per_thread num_threads a).
  { unfold merge_items_per_thread. rewrite Z.quot_div_nonneg by lia.
    apply Z.div_pos; lia. }
  unfold end_diagonal, start_diagonal. nia.
Qed.

Lemma merge_coords_points (num_threads tid : Z) :
  1 <= num_threads -> 0 <= tid ->
  merge_coords num_threads a (row_end_offsets_of a) tid
  = Done (merge_point a (start_diagonal num_threads a tid),
          merge_point a (end_diagonal num_threads a tid)).
Proof.
  intros Hnt Ht. unfold merge_coords.
  destruct (diagonals_in_range num_threads tid Hnt Ht) as (Hs & He & _).
  destruct (merge_point_spec _ Hs) as [-> _].
  destruct (merge_point_spec _ He) as [-> _]. reflexivity.
Qed.

(** The end coordinate of the last thread is [(num_rows, num_nonzeros)]. *)
Lemma merge_last_end_row (num_threads : Z) :
  1 <= num_threads ->
  merge_end_row num_threads a (num_threads - 1) = num_rows a.
Proof.
  intros Hnt. unfold merge_end_row.
  pose proof (wf_rows a Hwf) as Hrows.
  pose proof (row_offsets_range a Hwf (num_rows a) ltac:(lia)) as Hnnz.
  rewrite (wf_last a Hwf) in Hnnz.
  destruct (even_split_chained num_threads (num_rows a + num_nonzeros a))
    as (_ & Hlast & _); [lia|lia|].
  change (end_diagonal num_threads a (num_threads - 1)
          = num_rows a + num_nonzeros a) in Hlast.
  rewrite Hlast.
  destruct (merge_point_spec (num_rows a + num_nonzeros a)) as (_ & _ & Hr & _);
    lia.
Qed.

(** The row ranges of the threads follow one another from 0 to
    [num_rows]. *)
Lemma merge_rows_chained (num_threads : Z) :
  1 <= num_threads ->
  chained num_threads (num_rows a)
    (merge_first_row num_threads a) (merge_end_row num_threads a).
Proof.
  intros Hnt.
  pose proof (wf_rows a Hwf) as Hrows.
  pose proof (row_offsets_range a Hwf (num_rows a) ltac:(lia)) as Hnnz.
  rewrite (wf_last a Hwf) in Hnnz.
  destruct (even_split_chained num_threads (num_rows a + num_nonzeros a))
    as (Hfirst & _ & _ & Hnext); [lia|lia|].
  change (start_diagonal num_threads a 0 = 0) in Hfirst.
  split; [|split; [|split]].
  - unfold merge_first_row. rewrite Hfirst.
    destruct (merge_point_spec 0) as (_ & _ & Hr & _); lia.
  - apply merge_last_end_row. exact Hnt.
  - intros t Ht. unfold merge_first_row, merge_end_row.
    destruct (diagonals_in_range num_threads t) as (Hs & He & Hse); [lia|lia|].
    apply merge_point_mono; lia.
  - intros t Ht. unfold merge_first_row, merge_end_row. f_equal. f_equal.
    apply (Hnext t). lia.
Qed.
End MergeRows.

Lemma rd_beyond {A : Type} (d : A) (l : list A) (i : Z) :
  Z.of_nat (length l) <= i -> rd d l i = d.
Proof.
  intros Hi. unfold rd. destruct (i <? 0); [done|].
  rewrite lookup_ge_None_2 by lia. reflexivity.
Qed.

Lemma foldl_filter {A B : Type} (p : B -> bool) (f : A -> B -> A) (l : list B) :
  forall start,
    foldl (fun acc x => if p x then f acc x else acc) start l
    = foldl f start (List.filter p l).
Proof.
  induction l as [|x l IH]; intros start; simpl; [reflexivity|].
  destruct (p x); simpl; apply IH.
Qed.

Section OwnershipFacts.
Context {V : Type} `{ValueOps V}.

Lemma consume_segment_overwrites (row_end_offsets : ptr) (column_indices : list Z)
    (values : list V) (vector_x_row_major : list V) (num_vectors : Z)
    (c ce : int2.t) :
  0 <= num_vectors ->
  overwrites_rows row_end_offsets column_indices values vector_x_row_major
    num_vectors c ce.
Proof.
  intros Hnv out w. subst w.
  destruct (consume_segment_spec row_end_offsets column_indices values
              vector_x_row_major num_vectors Hnv c ce out)
    as (_ & Hl & Hrows & Hframe).
  split; [exact Hl|]. split; [exact Hframe|].
  intros out' r i Hlen Hr Hi.
  destruct (consume_segment_spec row_end_offsets column_indices values
              vector_x_row_major num_vectors Hnv c ce out')
    as (_ & Hl' & Hrows' & _).
  destruct (Z_lt_ge_dec (r * num_vectors + i) 0) as [Hneg|Hpos].
  { rewrite !rd_negative by lia. reflexivity. }
  destruct (Z_lt_ge_dec (r * num_vectors + i) (Z.of_nat (length out)))
    as [Hin|Hout].
  - rewrite Hrows, Hrows' by lia. reflexivity.
  - rewrite !rd_beyond by lia. reflexivity.
Qed.

Lemma add_carries_contributors (num_threads : Z) (s : shared) (r i : Z) (start : V) :
  add_carries s r i (seqZ 0 (num_threads - 1)) start
  = foldl (fun acc tid => vadd acc (rd vzero (rd [] (value_carry_out s) tid) i))
          start (carry_contributors num_threads s r).
Proof.
  unfold add_carries, carry_contributors.
  apply (foldl_filter (fun tid => rd 0 (row_carry_out s) tid =? r)
           (fun acc tid => vadd acc (rd vzero (rd [] (value_carry_out s) tid) i))).
Qed.

Lemma carry_contributors_NoDup (num_threads : Z) (s : @shared V) (r : Z) :
  NoDup (carry_contributors num_threads s r).
Proof.
  unfold carry_contributors.
  apply NoDup_ListNoDup, List.NoDup_filter, NoDup_ListNoDup, NoDup_seqZ.
Qed.
End OwnershipFacts.

(** C4 (as amended).  In the merge-path kernel on a well-formed matrix,
    with 1 to 256 threads: every row lies in the whole-row range of exactly
    one thread; a thread's segment overwrites the rows of its range with
    values that do not depend on what [vector_y_out] held, and leaves
    every other entry alone; and the kernel's result is what the parallel
    loop left with, for each row, the carry-out of every thread of
    [0 .. num_threads - 2] that recorded this row (there may be several)
    added, each exactly once. *)
Theorem C4_merge_row_ownership {V : Type} `{ValueOps V}
    (num_threads : Z) (a : CsrMatrix V) (vector_x vector_y_out : list V)
    (num_vectors : Z) (vector_x_row_major : list V) :
  csr_wf a ->
  1 <= num_threads <= 256 ->
  0 <= num_vectors ->
  num_rows a * num_vectors <= Z.of_nat (length vector_y_out) ->
  covered_once num_threads (num_rows a)
    (merge_first_row num_threads a) (merge_end_row num_threads a) /\
  (forall tid, 0 <= tid < num_threads ->
     merge_coords num_threads a (row_end_offsets_of a) tid
     = Done (merge_point a (start_diagonal num_threads a tid),
             merge_point a (end_diagonal num_threads a tid)) /\
     overwrites_rows (row_end_offsets_of a) (column_indices a) (values a)
       vector_x_row_major num_vectors
       (merge_point a (start_diagonal num_threads a tid))
       (merge_point a (end_diagonal num_threads a tid))) /\
  exists s out,
    merge_parallel num_threads a (row_end_offsets_of a) (column_indices a)
      (values a) num_vectors vector_x_row_major (shared_init vector_y_out)
    = Done s /\
    TestOmpMergeCsrmm_call num_threads a vector_x vector_y_out num_vectors
      vector_x_row_major = Done out /\
    forall r i, 0 <= r < num_rows a -> 0 <= i < num_vectors ->
      NoDup (carry_contributors num_threads s r) /\
      rd vzero out (r * num_vectors + i)
      = foldl (fun acc tid => vadd acc (rd vzero (rd [] (value_carry_out s) tid) i))
              (rd vzero (shared_out s) (r * num_vectors + i))
              (carry_contributors num_threads s r).
Proof.
  intros Hwf Hnt Hnv Hlen. split; [|split].
  - apply chained_covered_once; [lia|]. apply merge_rows_chained; [exact Hwf|lia].
  - intros tid Ht. split.
    + apply merge_coords_points; [exact Hwf|lia|lia].
    + apply consume_segment_overwrites. exact Hnv.
  - destruct (fixup_protocol_holds
                (merge_coords num_threads a (row_end_offsets_of a)) num_threads a
                (row_end_offsets_of a) (column_indices a) (values a)
                vector_y_out num_vectors vector_x_row_major)
      as (s & out & Hpar & _ & Hres & Happ & _);
      [lia|lia|lia|intros tid; apply merge_coords_total|].
    exists s, out. split; [exact Hpar|]. split; [exact Hres|].
    intros r i Hr Hi. split; [apply carry_contributors_NoDup|].
    destruct Happ as (_ & Hrows & _). rewrite Hrows by lia.
    apply add_carries_contributors.
Qed.

(** The theorem on [skewed] with 4 threads: row 2, which holds seven of the
    nine entries, is stored by thread 2; threads 0 and 1 both end in it. *)
Lemma C4_witness :
  csr_wf skewed /\ 1 <= 4 <= 256 /\ 0 <= 1 /\
  num_rows skewed * 1 <= Z.of_nat (length [-1; -1; -1; -1]) /\
  covered_once 4 (num_rows skewed) (merge_first_row 4 skewed)
    (merge_end_row 4 skewed) /\
  map (fun tid => (merge_first_row 4 skewed tid, merge_end_row 4 skewed tid))
      [0; 1; 2; 3]
  = [(0, 2); (2, 2); (2, 3); (3, 4)].
Proof.
  split; [csr_wf_by_check|]. split; [lia|]. split; [lia|].
  split; [simpl; lia|]. split; [|reflexivity].
  destruct (C4_merge_row_ownership 4 skewed [1; 10; 100] [-1; -1; -1; -1] 1
              [1; 10; 100]) as [Hcov _];
    [csr_wf_by_check|lia|lia|simpl; lia|exact Hcov].
Defined.

(** C4 as stated fails: on one row of five entries with three threads, the
    row is stored by thread 2 and receives carry-outs from two other
    threads, 0 and 1. *)
Lemma C4_counterexample :
  csr_wf one_row_five /\
  (merge_first_row 3 one_row_five 2 <= 0 < merge_end_row 3 one_row_five 2) /\
  exists s,
    merge_parallel 3 one_row_five (row_end_offsets_of one_row_five)
      (column_indices one_row_five) (values one_row_five) 1 [1; 1; 1; 1; 1]
      (shared_init [-1]) = Done s /\
    carry_contributors 3 s 0 = [0; 1] /\
    ~ (length (carry_contributors 3 s 0) <= 1)%nat /\
    TestOmpMergeCsrmm_call 3 one_row_five [1; 1; 1; 1; 1] [-1] 1 [1; 1; 1; 1; 1]
    = Done [5 + (1 + 2) + (3 + 4)].
Proof.
  split; [csr_wf_by_check|].
  split; [vm_compute; split; [intros Hc; discriminate Hc|reflexivity]|].
  eexists. split; [vm_compute; reflexivity|].
  split; [vm_compute; reflexivity|].
  split; [vm_compute; lia|vm_compute; reflexivity].
Qed.

(** ** The end coordinate of the last thread *)

Section RowPathFacts.
Context {V : Type} (a : CsrMatrix V) (Hwf : csr_wf a).

(** [RowPathSearch] for position [y]: the first row whose end offset is at
    least [y]. *)
Lemma RowPathSearch_csr (x0 y : Z) :
  exists x,
    RowPathSearch (row_end_offsets_of a) (Counting 0) (num_rows a)
      {| int2.x := x0; int2.y := y |} = Done {| int2.x := x; int2.y := y |} /\
    0 <= x <= num_rows a /\
    (forall x', 0 <= x' < x -> rd 0 (row_offsets a) (x' + 1) < y) /\
    (x < num_rows a -> y <= rd 0 (row_offsets a) (x + 1)).
Proof.
  unfold RowPathSearch. rewrite RowPathSearch_loop_bisect. simpl.
  pose proof (wf_rows a Hwf) as Hrows.
  destruct (bisect_spec (Z.to_nat (num_rows a - 0))
              (fun x => subscript (row_end_offsets_of a) x
                        <=? subscript (Counting 0) (y - 1)) 0 (num_rows a))
    as (r & Hrun & Hr & Hbelow & Habove); [lia|lia| |].
  { intros x x' Hx Hxh. rewrite !Z.leb_le, !subscript_row_end.
    unfold subscript, counting_subscript. simpl. intros Hpx.
    pose proof (row_offsets_mono a Hwf (x' + 1) (x + 1)). lia. }
  rewrite Hrun. simpl. rewrite Z.min_l by lia.
  exists r. split; [reflexivity|]. split; [lia|]. split.
  - intros x' Hx'. specialize (Hbelow x' Hx'). rewrite Z.leb_le in Hbelow.
    rewrite subscript_row_end in Hbelow.
    unfold subscript, counting_subscript in Hbelow. simpl in Hbelow. lia.
  - intros Hlt. specialize (Habove r ltac:(lia)). rewrite Z.leb_gt in Habove.
    rewrite subscript_row_end in Habove.
    unfold subscript, counting_subscript in Habove. simpl in Habove. lia.
Qed.

(** In the nonzero-split kernel the end coordinate of the last thread never
    reaches [num_rows]: the search for position [num_nonzeros] stops at
    the first row that ends there. *)
Lemma nonzero_last_end_row_short (num_threads : Z) :
  1 <= num_threads -> 1 <= num_rows a ->
  exists c ce,
    nonzero_coords num_threads a (row_end_offsets_of a) (num_threads - 1)
    = Done (c, ce) /\
    int2.y ce = num_nonzeros a /\ int2.x ce < num_rows a.
Proof.
  intros Hnt Hrows. unfold nonzero_coords.
  pose proof (row_offsets_range a Hwf (num_rows a) ltac:(lia)) as Hnnz.
  rewrite (wf_last a Hwf) in Hnnz.
  destruct (even_split_chained num_threads (num_nonzeros a))
    as (_ & Hlast & _); [lia|lia|].
  change (thread_coord_end_y num_threads a (num_threads - 1) = num_nonzeros a)
    in Hlast.
  destruct (RowPathSearch_csr 0 (thread_coord_y num_threads a (num_threads - 1)))
    as (x1 & -> & _).
  destruct (RowPathSearch_csr 0 (thread_coord_end_y num_threads a (num_threads - 1)))
    as (x2 & -> & Hx2 & Hbelow & _).
  simpl. eexists _, _. split; [reflexivity|]. simpl. split; [exact Hlast|].
  destruct (Z.eq_dec x2 (num_rows a)) as [->|Hne]; [|lia].
  specialize (Hbelow (num_rows a - 1) ltac:(lia)).
  replace (num_rows a - 1 + 1) with (num_rows a) in Hbelow by lia.
  rewrite (wf_last a Hwf), Hlast in Hbelow. lia.
Qed.
End RowPathFacts.

(** C2, evaluated where it fails: the 1 x 1 matrix with one thread.  The
    merge-path kernel ends its only thread at [(1, 1)], row index
    [num_rows]; the nonzero-split kernel ends it at [(0, 1)], inside row
    0, so the product is held in a carry-out that the fix-up skips and
    [vector_y_out] comes back as it was passed in, whatever the value
    type and the data. *)
Theorem C2_last_thread_end_row {V : Type} `{ValueOps V} (v : V)
    (vector_x vector_y_out : list V) (num_vectors : Z)
    (vector_x_row_major : list V) :
  0 < num_nonzeros (one_by_one v) /\
  merge_coords 1 (one_by_one v) (row_end_offsets_of (one_by_one v)) 0
  = Done ({| int2.x := 0; int2.y := 0 |},
          {| int2.x := num_rows (one_by_one v); int2.y := 1 |}) /\
  nonzero_coords 1 (one_by_one v) (row_end_offsets_of (one_by_one v)) 0
  = Done ({| int2.x := 0; int2.y := 0 |}, {| int2.x := 0; int2.y := 1 |}) /\
  0 <> num_rows (one_by_one v) /\
  TestOmpNonzeroSplitCsrmm_call 1 (one_by_one v) vector_x vector_y_out
    num_vectors vector_x_row_major = Done vector_y_out.
Proof.
  split; [simpl; lia|]. split; [reflexivity|]. split; [reflexivity|].
  split; [simpl; lia|reflexivity].
Qed.

(** C1, evaluated where it fails.  On the 1 x 1 matrix [[3]] times
    [x = 10] over the rationals, one thread, with [vector_y_out] holding -1
    on entry, the reference (alpha = 1, beta = 0) gives 30, and so do the
    row-parallel and the merge-path kernel; the nonzero-split kernel
    leaves -1, which is 31 away.  On [skewed] over the integers, with
    [x = (1, 10, 100)], the reference and the merge-path kernel give
    (1, 0, 1277, 900) for 1, 2, 4, 8 and 17 threads; the nonzero-split
    kernel never stores the last row: it leaves -1 there with 1 or 2
    threads, and -1 plus the carry-out 900 with 4, 8 or 17. *)
Theorem C1_nonzero_split_misses_reference :
  (let a := one_by_one (3 : Q) in
   let x := [10%Q] in
   let reference := SpmvGold a x [0%Q] [(-1)%Q] 1%Q 0%Q in
   csr_wf a /\
   reference = [30%Q] /\
   fst (OmpCsrSpmmT {| g_input_row_major := true; g_output_row_major := true |}
          (fun _ => 0) 1 a x [(-1)%Q] 1 x) = [30%Q] /\
   TestOmpMergeCsrmm_call 1 a x [(-1)%Q] 1 x = Done [30%Q] /\
   TestOmpNonzeroSplitCsrmm_call 1 a x [(-1)%Q] 1 x = Done [(-1)%Q] /\
   ~ (Qabs (rd 0%Q [(-1)%Q] 0 - rd 0%Q reference 0) <= 1 # 1000000)%Q) /\
  (let x := [1; 10; 100] in
   let y := [-1; -1; -1; -1] in
   csr_wf skewed /\
   SpmvGold skewed x [0; 0; 0; 0] y 1 0 = [1; 0; 1277; 900] /\
   map (fun num_threads => TestOmpMergeCsrmm_call num_threads skewed x y 1 x)
       [1; 2; 4; 8; 17]
   = map (fun _ => Done [1; 0; 1277; 900]) [1; 2; 4; 8; 17] /\
   map (fun num_threads => TestOmpNonzeroSplitCsrmm_call num_threads skewed x y 1 x)
       [1; 2; 4; 8; 17]
   = [Done [1; 0; 1277; -1]; Done [1; 0; 1277; -1];
      Done [1; 0; 1277; -1 + 900]; Done [1; 0; 1277; -1 + 900];
      Done [1; 0; 1277; -1 + 900]]).
Proof.
  split.
  - split; [csr_wf_by_check|].
    split; [reflexivity|]. split; [reflexivity|]. split; [reflexivity|].
    split; [reflexivity|].
    vm_compute. intros Hle. apply Hle. reflexivity.
  - split; [csr_wf_by_check|].
    split; [reflexivity|]. split; vm_compute; reflexivity.
Qed.

(** ** Layouts *)

Lemma entry_index_inj (row_major : bool) (num_rows num_vectors r i r' i' : Z) :
  0 <= r < num_rows -> 0 <= r' < num_rows ->
  0 <= i < num_vectors -> 0 <= i' < num_vectors ->
  entry_index row_major num_rows num_vectors r i
  = entry_index row_major num_rows num_vectors r' i' ->
  r = r' /\ i = i'.
Proof.
  intros Hr Hr' Hi Hi'. unfold entry_index. destruct row_major; intros Heq.
  - apply (Z.div_mod_unique num_vectors r r' i i'); lia.
  - destruct (Z.div_mod_unique num_rows i i' r r') as [-> ->]; [lia|lia|lia|done].
Qed.

Lemma entry_index_range (row_major : bool) (num_rows num_vectors r i : Z) :
  0 <= r < num_rows -> 0 <= i < num_vectors ->
  0 <= entry_index row_major num_rows num_vectors r i < num_rows * num_vectors.
Proof. intros Hr Hi. unfold entry_index. destruct row_major; nia. Qed.

Section LayoutFacts.
Context {V : Type} `{ValueOps V}.

(** A loop that writes [val i] at [idx i], the [idx i] being distinct. *)
Lemma scatter_spec (n : Z) (idx : Z -> Z) (val : Z -> V) (out : list V) :
  0 <= n ->
  (forall i j, 0 <= i < n -> 0 <= j < n -> idx i = idx j -> i = j) ->
  let out' := for_loop 0 n (fun i out => wr out (idx i) (val i)) out in
  length out' = length out /\
  (forall i, 0 <= i < n -> 0 <= idx i < Z.of_nat (length out) ->
     rd vzero out' (idx i) = val i) /\
  (forall k, (forall i, 0 <= i < n -> idx i <> k) -> rd vzero out' k = rd vzero out k).
Proof.
  intros Hn Hinj out'. subst out'.
  apply (for_loop_inv
    (fun m o =>
       length o = length out /\
       (forall i, 0 <= i < m -> 0 <= idx i < Z.of_nat (length out) ->
          rd vzero o (idx i) = val i) /\
       (forall k, (forall i, 0 <= i < m -> idx i <> k) ->
          rd vzero o k = rd vzero out k))); [exact Hn| |].
  - split; [done|]. split; [intros; lia|done].
  - intros m o Hm (Hl & Hdone & Hrest). split; [|split].
    + rewrite length_wr. exact Hl.
    + intros i Hi Hir. destruct (Z.eq_dec i m) as [->|Hne].
      * apply rd_wr_eq. lia.
      * rewrite rd_wr_ne. { apply Hdone; lia. }
        intros Heq. apply Hne. symmetry. apply Hinj; [lia|lia|exact Heq].
    + intros k Hk. rewrite rd_wr_ne by (apply Hk; lia).
      apply Hrest. intros i Hi. apply Hk. lia.
Qed.

(** Every entry of the result of [OmpCsrSpmmT], read in the configured
    output layout, is the sum of the products of its row, taken from the
    row-major operand the call leaves behind. *)
Lemma OmpCsrSpmmT_entry (g : globals) (xt_index : Z -> Z) (num_threads : Z)
    (a : CsrMatrix V) (vector_x vector_y_out : list V) (num_vectors : Z)
    (vector_x_row_major : list V) :
  0 <= num_vectors ->
  num_rows a * num_vectors <= Z.of_nat (length vector_y_out) ->
  let res := OmpCsrSpmmT g xt_index num_threads a vector_x vector_y_out
               num_vectors vector_x_row_major in
  length (fst res) = length vector_y_out /\
  forall r i, 0 <= r < num_rows a -> 0 <= i < num_vectors ->
    result_entry g a num_vectors (fst res) r i
    = column_sum (column_indices a) (values a) (snd res) num_vectors i
        (rd 0 (row_offsets a) r) (rd 0 (row_offsets a) (r + 1)) vzero.
Proof.
  intros Hnv Hlen res. subst res. unfold OmpCsrSpmmT, result_entry.
  cbn [fst snd].
  set (xrm := if negb (g_input_row_major g) then _ else _).
  destruct (Z_le_gt_dec 0 (num_rows a)) as [Hrows|Hrows].
  2:{ rewrite for_loop_nil by lia. split; [done|]. intros; lia. }
  apply (for_loop_inv
    (fun n out =>
       length out = length vector_y_out /\
       forall r i, 0 <= r < n -> 0 <= i < num_vectors ->
         rd vzero out
            (entry_index (g_output_row_major g) (num_rows a) num_vectors r i)
         = column_sum (column_indices a) (values a) xrm num_vectors i
             (rd 0 (row_offsets a) r) (rd 0 (row_offsets a) (r + 1)) vzero));
    [exact Hrows| |].
  - split; [done|]. intros; lia.
  - intros n out Hn (Hl & Hdone).
    set (partial := for_loop _ _ _ (zeros num_vectors)).
    assert (Hstep :
      let out' := for_loop 0 num_vectors
                    (fun i out =>
                       wr out (entry_index (g_output_row_major g) (num_rows a)
                                 num_vectors n i)
                          (rd vzero partial i)) out in
      length out' = length vector_y_out /\
      forall r i, 0 <= r < n + 1 -> 0 <= i < num_vectors ->
        rd vzero out'
           (entry_index (g_output_row_major g) (num_rows a) num_vectors r i)
        = column_sum (column_indices a) (values a) xrm num_vectors i
            (rd 0 (row_offsets a) r) (rd 0 (row_offsets a) (r + 1)) vzero).
    { destruct (scatter_spec num_vectors
                  (entry_index (g_output_row_major g) (num_rows a) num_vectors n)
                  (fun i => rd vzero partial i) out Hnv)
        as (Hl' & Hnew & Hold).
      { intros i j Hi Hj Heq.
        apply (entry_index_inj (g_output_row_major g) (num_rows a) num_vectors
                 n i n j); lia. }
      simpl. split; [lia|]. intros r i Hr Hi.
      destruct (Z.eq_dec r n) as [->|Hne].
      - rewrite Hnew.
        + unfold partial. apply rd_accumulate_zeros; lia.
        + lia.
        + pose proof (entry_index_range (g_output_row_major g) (num_rows a)
                        num_vectors n i). lia.
      - rewrite Hold; [apply Hdone; lia|].
        intros j Hj Heq.
        destruct (entry_index_inj (g_output_row_major g) (num_rows a)
                    num_vectors n j r i); lia. }
    unfold entry_index in Hstep. destruct (g_output_row_major g); exact Hstep.
Qed.
End LayoutFacts.

(** C8.  The four layout combinations do not give the same results.  On
    [skewed] with the two vector columns (1, 10, 100) and (2, 20, 200) and
    two threads, [OmpCsrSpmmT] returns the entries
    (1 2; 0 0; 1277 2554; 900 1800) under both output layouts when the
    operand is row-major.  When it is column-major the prepass runs with
    one private [xt_index] per thread.  With both copies starting at 0,
    thread 0 transposes columns 0 and 1 into the entries 0 to 3 of the
    scratch buffer, thread 1 writes column 2 over the entries 0 and 1, and
    the entries 4 and 5 keep whatever the buffer held.  With zeros there,
    the kernel returns (100 200; 0 0; 870 1740; 0 0) under both output
    layouts, and so does the merge-path kernel when it is given the
    scratch buffer the prepass left. *)
Theorem C8_column_major_operand_diverges :
  let entries g buffer :=
    map (fun '(r, i) => result_entry g skewed 2 buffer r i)
        [(0, 0); (0, 1); (1, 0); (1, 1); (2, 0); (2, 1); (3, 0); (3, 1)] in
  let y := [-1; -1; -1; -1; -1; -1; -1; -1] in
  let column_major_x := [1; 10; 100; 2; 20; 200] in
  let row_major_x := [1; 2; 10; 20; 100; 200] in
  entries row_major_both
    (fst (OmpCsrSpmmT row_major_both (fun _ => 0) 2 skewed column_major_x y 2
            row_major_x))
  = [1; 2; 0; 0; 1277; 2554; 900; 1800] /\
  entries column_major_out
    (fst (OmpCsrSpmmT column_major_out (fun _ => 0) 2 skewed column_major_x y 2
            row_major_x))
  = [1; 2; 0; 0; 1277; 2554; 900; 1800] /\
  (forall s0 s1 s2 s3 s4 s5 : Z,
     snd (OmpCsrSpmmT column_major_in (fun _ => 0) 2 skewed column_major_x y 2
            [s0; s1; s2; s3; s4; s5])
     = [100; 200; 10; 20; s4; s5]) /\
  entries column_major_in
    (fst (OmpCsrSpmmT column_major_in (fun _ => 0) 2 skewed column_major_x y 2
            [0; 0; 0; 0; 0; 0]))
  = [100; 200; 0; 0; 870; 1740; 0; 0] /\
  entries column_major_both
    (fst (OmpCsrSpmmT column_major_both (fun _ => 0) 2 skewed column_major_x y 2
            [0; 0; 0; 0; 0; 0]))
  = [100; 200; 0; 0; 870; 1740; 0; 0] /\
  TestOmpMergeCsrmm_call 2 skewed column_major_x y 2 [100; 200; 10; 20; 0; 0]
  = Done [100; 200; 0; 0; 870; 1740; 0; 0].
Proof.
  cbv zeta.
  split; [vm_compute; reflexivity|]. split; [vm_compute; reflexivity|].
  split; [intros; vm_compute; reflexivity|].
  split; [vm_compute; reflexivity|]. split; vm_compute; reflexivity.
Qed.

(** The transposing prepass of [OmpCsrSpmmT] on a 3 x 2 column-major
    operand: it produces the row-major operand when [xt_index] starts at
    0, and a shifted one when it starts anywhere else. *)
Example transpose_prepass_from_zero :
  transpose_prepass 0 3 2 [1; 10; 100; 2; 20; 200] [0; 0; 0; 0; 0; 0]
  = (6, [1; 2; 10; 20; 100; 200]).
Proof. reflexivity. Qed.

Example transpose_prepass_from_one :
  transpose_prepass 1 3 2 [1; 10; 100; 2; 20; 200] [0; 0; 0; 0; 0; 0]
  = (7, [0; 1; 2; 10; 20; 100]).
Proof. reflexivity. Qed.

(** ** What the parallel loop leaves in [vector_y_out] *)

Section ParallelRows.
Context {V : Type} `{ValueOps V}.

(** When the whole-row ranges of the threads are ordered, every row of
    every range holds, after the loop, the sum its thread stored there,
    and the entries in no range are as they were. *)
Lemma parallel_phase_rows (cs ces : Z -> int2.t) (num_threads : Z)
    (row_end_offsets : ptr) (column_indices : list Z) (values : list V)
    (num_vectors : Z) (vector_x_row_major : list V) (vector_y_out : list V) :
  0 <= num_vectors ->
  num_threads <= 256 ->
  (forall t t', 0 <= t < t' -> t' < num_threads ->
     int2.x (ces t) <= int2.x (cs t')) ->
  exists s,
    parallel_phase (fun tid => Done (cs tid, ces tid)) num_threads
      row_end_offsets column_indices values num_vectors vector_x_row_major
      (shared_init vector_y_out) = Done s /\
    length (shared_out s) = length vector_y_out /\
    (forall t r i, 0 <= t < num_threads ->
       int2.x (cs t) <= r < int2.x (ces t) -> 0 <= i < num_vectors ->
       0 <= r * num_vectors + i < Z.of_nat (length vector_y_out) ->
       rd vzero (shared_out s) (r * num_vectors + i)
       = column_sum column_indices values vector_x_row_major num_vectors i
           (row_resume row_end_offsets (cs t) r)
           (subscript row_end_offsets r) vzero) /\
    (forall j,
       (forall t, 0 <= t < num_threads ->
          ~ (int2.x (cs t) * num_vectors <= j < int2.x (ces t) * num_vectors)) ->
       rd vzero (shared_out s) j = rd vzero vector_y_out j).
Proof.
  intros Hnv Hnt Hord. unfold parallel_phase.
  destruct (Z_le_gt_dec 0 num_threads) as [Hpos|Hneg].
  2:{ rewrite for_loopM_nil by lia. eexists. split; [reflexivity|].
      split; [reflexivity|]. split; [intros; lia|reflexivity]. }
  edestruct (for_loopM_inv
    (fun n (s : @shared V) =>
       length (shared_out s) = length vector_y_out /\
       (forall t r i, 0 <= t < n ->
          int2.x (cs t) <= r < int2.x (ces t) -> 0 <= i < num_vectors ->
          0 <= r * num_vectors + i < Z.of_nat (length vector_y_out) ->
          rd vzero (shared_out s) (r * num_vectors + i)
          = column_sum column_indices values vector_x_row_major num_vectors i
              (row_resume row_end_offsets (cs t) r)
              (subscript row_end_offsets r) vzero) /\
       (forall j,
          (forall t, 0 <= t < n ->
             ~ (int2.x (cs t) * num_vectors <= j < int2.x (ces t) * num_vectors)) ->
          rd vzero (shared_out s) j = rd vzero vector_y_out j)) 0 num_threads)
    as (s & Hrun & Hlen & Hrows & Hrest); [exact Hpos| | |].
  3:{ exists s. split; [exact Hrun|]. split; [exact Hlen|].
      split; [exact Hrows|exact Hrest]. }
  - split; [reflexivity|]. split; [intros; lia|reflexivity].
  - intros tid s Ht (Hlen & Hrows & Hrest). simpl.
    rewrite save_carry_in_bounds by (unfold carry_slots; lia).
    eexists. split; [reflexivity|]. cbn [shared_out].
    destruct (consume_segment_spec row_end_offsets column_indices values
                vector_x_row_major num_vectors Hnv (cs tid) (ces tid)
                (shared_out s)) as (_ & Hl & Hnew & Hframe).
    split; [etransitivity; [exact Hl|exact Hlen]|]. split.
    + intros t r i Ht' Hr Hi Hri. destruct (Z.eq_dec t tid) as [->|Hne].
      * apply Hnew; [exact Hr|exact Hi|lia].
      * rewrite Hframe.
        -- apply Hrows; [lia|exact Hr|exact Hi|exact Hri].
        -- pose proof (Hord t tid ltac:(lia) ltac:(lia)). nia.
    + intros j Hj. rewrite Hframe by (apply Hj; lia).
      apply Hrest. intros t Ht'. apply Hj. lia.
Qed.
End ParallelRows.

(** ** Sums in exact arithmetic *)

Section ExactSums.
Context {V : Type} `{ValueOps V}.
Hypothesis Vsrt : semi_ring_theory (vzero : V) vone vadd vmul eq.
Add Ring Vring' : Vsrt.
Variables (column_indices : list Z) (values : list V)
          (vector_x_row_major : list V) (num_vectors : Z).

Local Abbreviation column_sum' :=
  (column_sum column_indices values vector_x_row_major num_vectors).

Lemma column_sum_nil (i lo hi : Z) (start : V) :
  hi <= lo -> column_sum' i lo hi start = start.
Proof. intros Hle. unfold column_sum. apply for_loop_nil. exact Hle. Qed.

Lemma column_sum_start (i lo hi : Z) (start : V) :
  column_sum' i lo hi start = vadd start (column_sum' i lo hi vzero).
Proof.
  destruct (Z_le_gt_dec lo hi) as [Hle|Hgt].
  2:{ rewrite !column_sum_nil by lia. ring. }
  unfold column_sum.
  apply (for_loop_inv
    (fun n acc =>
       acc = vadd start
               (for_loop lo n
                  (fun k acc =>
                     vadd acc (product_at column_indices values
                                 vector_x_row_major num_vectors k i))
                  vzero))); [exact Hle| |].
  - rewrite for_loop_nil by lia. ring.
  - intros k acc Hk ->. rewrite for_loop_last by lia. ring.
Qed.

(** A sum over a range is the sum over its two halves. *)
Lemma column_sum_split (i lo mid hi : Z) :
  lo <= mid <= hi ->
  column_sum' i lo hi vzero
  = vadd (column_sum' i lo mid vzero) (column_sum' i mid hi vzero).
Proof.
  intros Hm. unfold column_sum at 1. rewrite (for_loop_split lo mid hi) by exact Hm.
  fold (column_sum' i lo mid vzero).
  fold (column_sum' i mid hi (column_sum' i lo mid vzero)).
  apply column_sum_start.
Qed.
End ExactSums.

(** ** The coordinates of the merge-path threads *)

Section MergeThreads.
Context {V : Type} (a : CsrMatrix V) (Hwf : csr_wf a).
Variable num_threads : Z.
Hypothesis Hnt : 1 <= num_threads.

Local Abbreviation first_point tid :=
  (merge_point a (start_diagonal num_threads a tid)).
Local Abbreviation end_point tid :=
  (merge_point a (end_diagonal num_threads a tid)).

Lemma merge_point_y_mono (d d' : Z) :
  0 <= d <= d' -> d' <= num_rows a + num_nonzeros a ->
  int2.y (merge_point a d) <= int2.y (merge_point a d').
Proof.
  intros Hd Hd'.
  destruct (merge_point_spec a Hwf d) as (_ & Hs & Hr & Hlo & Hhi); [lia|].
  destruct (merge_point_spec a Hwf d') as (_ & Hs' & Hr' & Hlo' & Hhi'); [lia|].
  pose proof (merge_point_mono a Hwf d d' Hd Hd') as Hx.
  destruct (Z.eq_dec (int2.x (merge_point a d)) (int2.x (merge_point a d')))
    as [Heq|Hne]; [lia|].
  pose proof (row_offsets_mono a Hwf (int2.x (merge_point a d) + 1)
                (int2.x (merge_point a d'))). lia.
Qed.

Lemma start_diagonal_mono (t t' : Z) :
  0 <= t <= t' ->
  start_diagonal num_threads a t <= start_diagonal num_threads a t'.
Proof.
  intros Ht.
  pose proof (wf_rows a Hwf) as Hrows.
  pose proof (row_offsets_range a Hwf (num_rows a) ltac:(lia)) as Hnnz.
  rewrite (wf_last a Hwf) in Hnnz.
  assert (Hper : 0 <= merge_items_per_thread num_threads a).
  { unfold merge_items_per_thread. rewrite Z.quot_div_nonneg by lia.
    apply Z.div_pos; lia. }
  unfold start_diagonal. nia.
Qed.

Lemma end_is_next_start (t : Z) :
  0 <= t < num_threads - 1 ->
  end_diagonal num_threads a t = start_diagonal num_threads a (t + 1).
Proof.
  intros Ht.
  pose proof (wf_rows a Hwf) as Hrows.
  pose proof (row_offsets_range a Hwf (num_rows a) ltac:(lia)) as Hnnz.
  rewrite (wf_last a Hwf) in Hnnz.
  destruct (even_split_chained num_threads (num_rows a + num_nonzeros a))
    as (_ & _ & _ & Hnext); [lia|lia|]. apply (Hnext t Ht).
Qed.

(** Where an earlier thread ends is at or before where a later one
    starts, in both coordinates. *)
Lemma end_before_later_start (t t' : Z) :
  0 <= t < t' -> t' < num_threads ->
  int2.x (end_point t) <= int2.x (first_point t') /\
  int2.y (end_point t) <= int2.y (first_point t').
Proof.
  intros Ht Ht'. rewrite end_is_next_start by lia.
  destruct (diagonals_in_range a Hwf num_threads (t + 1)) as (Hs & _); [lia|lia|].
  destruct (diagonals_in_range a Hwf num_threads t') as (Hs' & _); [lia|lia|].
  pose proof (start_diagonal_mono (t + 1) t' ltac:(lia)).
  split; [apply merge_point_mono|apply merge_point_y_mono]; auto; lia.
Qed.

(** What every thread's two coordinates satisfy. *)
Lemma thread_points (t : Z) :
  0 <= t < num_threads ->
  let c := first_point t in
  let ce := end_point t in
  0 <= int2.x c <= int2.x ce /\ int2.x ce <= num_rows a /\
  0 <= int2.y c <= int2.y ce /\ int2.y ce <= num_nonzeros a /\
  rd 0 (row_offsets a) (int2.x c) <= int2.y c /\
  (int2.x c < num_rows a -> int2.y c <= rd 0 (row_offsets a) (int2.x c + 1)) /\
  rd 0 (row_offsets a) (int2.x ce) <= int2.y ce /\
  (int2.x ce < num_rows a -> int2.y ce <= rd 0 (row_offsets a) (int2.x ce + 1)).
Proof.
  intros Ht c ce. subst c ce.
  destruct (diagonals_in_range a Hwf num_threads t) as (Hs & He & Hse); [lia|lia|].
  destruct (merge_point_spec a Hwf _ Hs) as (_ & Hsum & Hr & Hlo & Hhi).
  destruct (merge_point_spec a Hwf _ He) as (_ & Hsum' & Hr' & Hlo' & Hhi').
  pose proof (merge_point_mono a Hwf _ _ (conj (proj1 Hs) Hse) (proj2 He)).
  pose proof (merge_point_y_mono _ _ (conj (proj1 Hs) Hse) (proj2 He)).
  repeat split; try assumption; lia.
Qed.

(** The first thread starts at [(0, 0)]. *)
Lemma first_thread_start : first_point 0 = {| int2.x := 0; int2.y := 0 |}.
Proof.
  pose proof (wf_rows a Hwf) as Hrows.
  pose proof (row_offsets_range a Hwf (num_rows a) ltac:(lia)) as Hnnz.
  rewrite (wf_last a Hwf) in Hnnz.
  destruct (even_split_chained num_threads (num_rows a + num_nonzeros a))
    as (Hfirst & _); [lia|lia|].
  change (start_diagonal num_threads a 0 = 0) in Hfirst. rewrite Hfirst.
  destruct (merge_point_spec a Hwf 0) as (_ & Hsum & Hr & _); [lia|].
  destruct (merge_point a 0) as [x0 y0]. simpl in *. f_equal; lia.
Qed.

(** In "Consume whole rows" a thread enters row [r] at the later of its
    start position and the start of the row. *)
Lemma row_resume_merge (c : int2.t) (r : Z) :
  int2.x c <= r -> r <= num_rows a -> 0 <= int2.x c ->
  rd 0 (row_offsets a) (int2.x c) <= int2.y c ->
  row_resume (row_end_offsets_of a) c r
  = Z.max (int2.y c) (rd 0 (row_offsets a) r).
Proof.
  intros Hr Hrn Hx Hlo. unfold row_resume.
  apply (for_loop_inv
    (fun n y => y = Z.max (int2.y c) (rd 0 (row_offsets a) n))); [exact Hr| |].
  - lia.
  - intros n y Hn ->. rewrite subscript_row_end.
    pose proof (row_offsets_mono a Hwf n (n + 1)). lia.
Qed.
End MergeThreads.

(** ** The merge-path kernel computes the row sums *)

Lemma parallel_phase_ext {V : Type} `{ValueOps V}
    (coords coords' : Z -> outcome (int2.t * int2.t)) (num_threads : Z)
    (row_end_offsets : ptr) (column_indices : list Z) (values : list V)
    (num_vectors : Z) (vector_x_row_major : list V) (s : shared) :
  (forall tid, 0 <= tid < num_threads -> coords tid = coords' tid) ->
  parallel_phase coords num_threads row_end_offsets column_indices values
    num_vectors vector_x_row_major s
  = parallel_phase coords' num_threads row_end_offsets column_indices values
      num_vectors vector_x_row_major s.
Proof.
  intros Hc. unfold parallel_phase. apply for_loopM_ext.
  intros tid s' Ht. rewrite Hc by exact Ht. reflexivity.
Qed.

Section MergeCorrect.
Context {V : Type} `{ValueOps V}.
Hypothesis Vsrt : semi_ring_theory (vzero : V) vone vadd vmul eq.
Add Ring Vring'' : Vsrt.
Context (a : CsrMatrix V) (Hwf : csr_wf a).
Variables (num_threads num_vectors : Z) (vector_x_row_major : list V).
Hypothesis Hnt : 1 <= num_threads <= 256.
Hypothesis Hnv : 0 <= num_vectors.

Local Abbreviation first_point tid :=
  (merge_point a (start_diagonal num_threads a tid)).
Local Abbreviation end_point tid :=
  (merge_point a (end_diagonal num_threads a tid)).
Local Abbreviation row_start r := (rd 0 (row_offsets a) r).
Local Abbreviation sum' i lo hi :=
  (column_sum (column_indices a) (values a) vector_x_row_major num_vectors
     i lo hi vzero).

(** The state the parallel loop ends in: stored rows and carry-outs as
    sums over explicit ranges of entries. *)
Lemma merge_parallel_state (vector_y_out : list V) :
  num_rows a * num_vectors <= Z.of_nat (length vector_y_out) ->
  exists s,
    merge_parallel num_threads a (row_end_offsets_of a) (column_indices a)
      (values a) num_vectors vector_x_row_major (shared_init vector_y_out)
    = Done s /\
    length (shared_out s) = length vector_y_out /\
    (forall t r i, 0 <= t < num_threads ->
       int2.x (first_point t) <= r < int2.x (end_point t) ->
       0 <= i < num_vectors ->
       rd vzero (shared_out s) (r * num_vectors + i)
       = sum' i (Z.max (int2.y (first_point t)) (row_start r)) (row_start (r + 1))) /\
    (forall t i, 0 <= t < num_threads -> 0 <= i < num_vectors ->
       rd 0 (row_carry_out s) t = int2.x (end_point t) /\
       rd vzero (rd [] (value_carry_out s) t) i
       = sum' i (Z.max (int2.y (first_point t)) (row_start (int2.x (end_point t))))
           (int2.y (end_point t))).
Proof.
  intros Hlen. unfold merge_parallel.
  assert (Hcoords : forall tid, 0 <= tid < num_threads ->
            merge_coords num_threads a (row_end_offsets_of a) tid
            = Done (first_point tid, end_point tid)).
  { intros tid Ht. apply merge_coords_points; [exact Hwf|lia|lia]. }
  destruct (parallel_phase_records
              (merge_coords num_threads a (row_end_offsets_of a)) num_threads
              (row_end_offsets_of a) (column_indices a) (values a) num_vectors
              vector_x_row_major vector_y_out)
    as (s & Hrun & Hrec & Hl); [lia|lia| |].
  { intros tid Ht. rewrite Hcoords by exact Ht. eauto. }
  destruct (parallel_phase_rows (fun tid => first_point tid)
              (fun tid => end_point tid) num_threads
              (row_end_offsets_of a) (column_indices a) (values a) num_vectors
              vector_x_row_major vector_y_out)
    as (s' & Hrun' & _ & Hrows & _); [lia|lia| |].
  { intros t t' Ht Ht'.
    apply (end_before_later_start a Hwf num_threads); lia. }
  rewrite (parallel_phase_ext _ (fun tid => Done (first_point tid, end_point tid)))
    in Hrun by exact Hcoords.
  rewrite Hrun in Hrun'. injection Hrun' as <-.
  rewrite (parallel_phase_ext _ (fun tid => Done (first_point tid, end_point tid)))
    by exact Hcoords.
  exists s. split; [exact Hrun|]. split; [exact Hl|]. split.
  - intros t r i Ht Hr Hi.
    destruct (thread_points a Hwf num_threads ltac:(lia) t Ht)
      as (Hx & Hxe & Hy & Hye & Hlo & _).
    rewrite (Hrows t r i) by (try assumption; nia).
    rewrite subscript_row_end.
    rewrite row_resume_merge by (try assumption; lia). reflexivity.
  - intros t i Ht Hi.
    destruct (Hrec t Ht) as (c & ce & Hc & Hrow & _ & Hval).
    rewrite Hcoords in Hc by exact Ht. injection Hc as <- <-.
    destruct (thread_points a Hwf num_threads ltac:(lia) t Ht)
      as (Hx & Hxe & Hy & Hye & Hlo & _).
    split; [exact Hrow|]. rewrite (Hval i Hi). unfold partial_start.
    rewrite row_resume_merge by (try assumption; lia). reflexivity.
Qed.

(** The carry-outs added to row [r] by the threads before [n], when row
    [r] is stored by thread [owner]: together they are the entries of the
    row that lie before the owner's start position. *)
Lemma merge_carries_sum (s : shared) (r i owner : Z) (start : V) :
  0 <= r < num_rows a -> 0 <= i < num_vectors ->
  0 <= owner < num_threads ->
  int2.x (first_point owner) <= r < int2.x (end_point owner) ->
  (forall t, 0 <= t < num_threads ->
     rd 0 (row_carry_out s) t = int2.x (end_point t) /\
     rd vzero (rd [] (value_carry_out s) t) i
     = sum' i (Z.max (int2.y (first_point t)) (row_start (int2.x (end_point t))))
         (int2.y (end_point t))) ->
  forall n : nat, Z.of_nat n <= num_threads - 1 ->
    add_carries s r i (seqZ 0 (Z.of_nat n)) start
    = vadd start
        (sum' i (row_start r)
           (Z.max (row_start r)
              (Z.min (int2.y (first_point (Z.of_nat n)))
                     (int2.y (first_point owner))))).
Proof.
  intros Hr Hi Hown Hrange Hcar.
  destruct (thread_points a Hwf num_threads ltac:(lia) owner Hown)
    as (Hox & Hoxe & Hoy & Hoye & Holo & Hohi & _).
  induction n as [|n IH]; intros Hn.
  - change (Z.of_nat 0) with 0. rewrite seqZ_nil by lia. unfold add_carries.
    cbn [foldl]. rewrite (first_thread_start a Hwf num_threads) by lia.
    cbn [int2.y].
    pose proof (row_offsets_range a Hwf r ltac:(lia)) as Hr0.
    rewrite column_sum_nil by lia. ring.
  - replace (Z.of_nat (S n)) with (Z.of_nat n + 1) by lia.
    rewrite add_carries_snoc by lia. cbv zeta. rewrite IH by lia.
    set (t := Z.of_nat n) in *.
    destruct (Hcar t ltac:(lia)) as [Hrow Hval]. rewrite Hrow, Hval.
    destruct (thread_points a Hwf num_threads ltac:(lia) t ltac:(lia))
      as (Htx & Htxe & Hty & Htye & Htlo & Hthi & Htelo & Htehi).
    assert (Hnext : first_point (t + 1) = end_point t).
    { rewrite (end_is_next_start a Hwf num_threads) by lia. reflexivity. }
    rewrite Hnext.
    destruct (Z.eqb_spec (int2.x (end_point t)) r) as [Heq|Hne].
    + assert (Hbefore : t < owner).
      { destruct (Z_lt_ge_dec t owner) as [Hlt|Hge]; [exact Hlt|].
        exfalso. destruct (Z.eq_dec t owner) as [->|Hneq]; [lia|].
        pose proof (end_before_later_start a Hwf num_threads ltac:(lia)
                      owner t ltac:(lia) ltac:(lia)). lia. }
      assert (Hye : int2.y (end_point t) <= int2.y (first_point owner)).
      { destruct (Z.eq_dec (t + 1) owner) as [<-|Hneq]; [rewrite Hnext; lia|].
        pose proof (end_before_later_start a Hwf num_threads ltac:(lia)
                      t owner ltac:(lia) ltac:(lia)). lia. }
      rewrite Heq in *.
      replace (Z.max (row_start r)
                 (Z.min (int2.y (first_point t)) (int2.y (first_point owner))))
        with (Z.max (int2.y (first_point t)) (row_start r)) by lia.
      replace (Z.max (row_start r)
                 (Z.min (int2.y (end_point t)) (int2.y (first_point owner))))
        with (int2.y (end_point t)) by lia.
      rewrite (column_sum_split Vsrt _ _ _ _ i (row_start r)
                 (Z.max (int2.y (first_point t)) (row_start r))
                 (int2.y (end_point t))) by lia.
      ring.
    + f_equal. f_equal.
      destruct (Z_lt_ge_dec (int2.x (end_point t)) r) as [Hlt|Hgt].
      * pose proof (row_offsets_mono a Hwf (int2.x (end_point t) + 1) r). lia.
      * assert (Hafter : owner <= t).
        { destruct (Z_le_gt_dec owner t) as [Hle|Hgt']; [exact Hle|].
          exfalso.
          destruct (Z.eq_dec (t + 1) owner) as [<-|Hneq]; [rewrite Hnext in *; lia|].
          pose proof (end_before_later_start a Hwf num_threads ltac:(lia)
                        t owner ltac:(lia) ltac:(lia)). lia. }
        assert (Hy1 : int2.y (first_point owner) <= int2.y (first_point t)).
        { destruct (Z.eq_dec owner t) as [->|Hneq]; [lia|].
          pose proof (end_before_later_start a Hwf num_threads ltac:(lia)
                        owner t ltac:(lia) ltac:(lia)). lia. }
        lia.
Qed.

(** The merge-path kernel, in exact arithmetic, on a well-formed matrix
    and with 1 to 256 threads: every entry of the result is the sum of
    the products of its row, whatever [vector_y_out] held before. *)
Theorem merge_kernel_row_sums (vector_x vector_y_out : list V) :
  num_rows a * num_vectors <= Z.of_nat (length vector_y_out) ->
  exists out,
    TestOmpMergeCsrmm_call num_threads a vector_x vector_y_out num_vectors
      vector_x_row_major = Done out /\
    length out = length vector_y_out /\
    forall r i, 0 <= r < num_rows a -> 0 <= i < num_vectors ->
      rd vzero out (r * num_vectors + i)
      = sum' i (row_start r) (row_start (r + 1)).
Proof.
  intros Hlen. unfold TestOmpMergeCsrmm_call, OmpMergeCsrmm.
  destruct (merge_parallel_state vector_y_out Hlen)
    as (s & Hrun & Hl & Hrows & Hcar).
  rewrite Hrun. simpl.
  destruct (carry_fixup_applies num_threads a num_vectors s)
    as (out & Hfix & Hlo & Happ & _); [lia|lia|lia|].
  exists out. split; [exact Hfix|]. split; [lia|].
  intros r i Hr Hi. rewrite Happ by lia.
  destruct (chained_covered_once num_threads (num_rows a)
              (merge_first_row num_threads a) (merge_end_row num_threads a)
              ltac:(lia) (merge_rows_chained a Hwf num_threads ltac:(lia)) r Hr)
    as (owner & (Hown & Hrange) & _).
  unfold merge_first_row, merge_end_row in Hrange.
  replace (num_threads - 1) with (Z.of_nat (Z.to_nat (num_threads - 1))) by lia.
  rewrite (merge_carries_sum s r i owner) by (auto; lia).
  rewrite Z2Nat.id by lia.
  rewrite (Hrows owner r i) by (auto; lia).
  destruct (thread_points a Hwf num_threads ltac:(lia) owner Hown)
    as (Hox & Hoxe & Hoy & Hoye & Holo & Hohi & _).
  destruct (thread_points a Hwf num_threads ltac:(lia) (num_threads - 1)
              ltac:(lia)) as (_ & _ & Hly & _).
  assert (Hy1 : int2.y (first_point owner) <= int2.y (first_point (num_threads - 1))).
  { destruct (Z.eq_dec owner (num_threads - 1)) as [->|Hneq]; [lia|].
    pose proof (end_before_later_start a Hwf num_threads ltac:(lia)
                  owner (num_threads - 1) ltac:(lia) ltac:(lia)).
    destruct (thread_points a Hwf num_threads ltac:(lia) owner Hown)
      as (_ & _ & Hy' & _). lia. }
  assert (Hy2 : int2.y (first_point owner) <= row_start (r + 1)).
  { pose proof (row_offsets_mono a Hwf (int2.x (first_point owner) + 1) (r + 1)).
    lia. }
  pose proof (row_offsets_mono a Hwf r (r + 1) ltac:(lia) ltac:(lia)) as Hrr.
  replace (Z.max (row_start r)
             (Z.min (int2.y (first_point (num_threads - 1)))
                    (int2.y (first_point owner))))
    with (Z.max (int2.y (first_point owner)) (row_start r)) by lia.
  rewrite (column_sum_split Vsrt _ _ _ _ i (row_start r)
             (Z.max (int2.y (first_point owner)) (row_start r))
             (row_start (r + 1))) by lia.
  ring.
Qed.
End MergeCorrect.

(** ** Two of the three kernels against the reference *)

Section ReferenceAgreement.
Context {V : Type} `{ValueOps V}.
Hypothesis Vsrt : semi_ring_theory (vzero : V) vone vadd vmul eq.
Add Ring Vring''' : Vsrt.
Context (a : CsrMatrix V) (Hwf : csr_wf a).

(** The sum [SpmvGold] takes over one vector is the sum the kernels take
    for vector column 0, when that vector is column 0 of the row-major
    operand. *)
Lemma dot_range_first_column (x vector_x_row_major : list V)
    (num_vectors lo hi : Z) :
  0 <= lo -> hi <= num_nonzeros a ->
  (forall c, 0 <= c < num_cols a ->
     rd vzero x c = rd vzero vector_x_row_major (c * num_vectors)) ->
  dot_range a x lo hi
  = column_sum (column_indices a) (values a) vector_x_row_major num_vectors
      0 lo hi vzero.
Proof.
  intros Hlo Hhi Hcol. unfold dot_range, column_sum. apply for_loop_ext.
  intros k acc Hk. unfold product_at. rewrite Z.add_0_r.
  rewrite Hcol; [reflexivity|]. apply (wf_columns a Hwf). lia.
Qed.

(** X2.  With [alpha = 1] and [beta = 0], on a well-formed matrix and in exact
    arithmetic, the merge-path kernel (1 to 256 threads) and the
    row-parallel kernel (operand already row-major) agree with [SpmvGold]
    on the first vector column of every row. *)
Theorem merge_and_row_parallel_match_reference
    (num_threads num_vectors : Z)
    (x vector_x vector_y_in reference_out vector_y_out vector_x_row_major : list V) :
  1 <= num_threads <= 256 ->
  1 <= num_vectors ->
  num_rows a * num_vectors <= Z.of_nat (length vector_y_out) ->
  num_rows a <= Z.of_nat (length reference_out) ->
  (forall c, 0 <= c < num_cols a ->
     rd vzero x c = rd vzero vector_x_row_major (c * num_vectors)) ->
  let reference := SpmvGold a x vector_y_in reference_out vone vzero in
  (exists out,
     TestOmpMergeCsrmm_call num_threads a vector_x vector_y_out num_vectors
       vector_x_row_major = Done out /\
     forall r, 0 <= r < num_rows a ->
       rd vzero out (r * num_vectors) = rd vzero reference r) /\
  (forall g xt_index, g_input_row_major g = true ->
     forall r, 0 <= r < num_rows a ->
       result_entry g a num_vectors
         (fst (OmpCsrSpmmT g xt_index num_threads a vector_x vector_y_out
                 num_vectors vector_x_row_major)) r 0
       = rd vzero reference r).
Proof.
  intros Hnt Hnv Hlen Hlen' Hcol reference.
  assert (Href : forall r, 0 <= r < num_rows a ->
            rd vzero reference r
            = column_sum (column_indices a) (values a) vector_x_row_major
                num_vectors 0 (rd 0 (row_offsets a) r)
                (rd 0 (row_offsets a) (r + 1)) vzero).
  { intros r Hr. subst reference.
    destruct (SpmvGold_loops a x vector_y_in reference_out vone vzero Hlen')
      as (_ & Hrows & _).
    rewrite Hrows by exact Hr. rewrite (SpmvGold_row Vsrt).
    rewrite (dot_range_first_column x vector_x_row_major num_vectors).
    - ring.
    - apply (row_offsets_range a Hwf r). lia.
    - apply (row_offsets_range a Hwf (r + 1)). lia.
    - exact Hcol. }
  split.
  - destruct (merge_kernel_row_sums Vsrt a Hwf num_threads num_vectors
                vector_x_row_major Hnt ltac:(lia) vector_x vector_y_out Hlen)
      as (out & Hrun & _ & Hsum).
    exists out. split; [exact Hrun|]. intros r Hr.
    rewrite Href by exact Hr. rewrite <- (Hsum r 0) by lia.
    f_equal. lia.
  - intros g xt_index Hin r Hr.
    destruct (OmpCsrSpmmT_entry g xt_index num_threads a vector_x vector_y_out
                num_vectors vector_x_row_major ltac:(lia) Hlen) as [_ Hentry].
    rewrite Hentry by lia. rewrite Href by exact Hr.
    unfold OmpCsrSpmmT. cbn [snd]. rewrite Hin. reflexivity.
Qed.
End ReferenceAgreement.

(** The agreement on [skewed] over the integers, 17 threads, one vector. *)
Lemma skewed_17_threads :
  exists out,
    TestOmpMergeCsrmm_call 17 skewed [1; 10; 100] [-1; -1; -1; -1] 1 [1; 10; 100]
    = Done out /\
    forall r, 0 <= r < num_rows skewed ->
      rd 0 out (r * 1)
      = rd 0 (SpmvGold skewed [1; 10; 100] [7; 7; 7; 7] [0; 0; 0; 0] 1 0) r.
Proof.
  apply (merge_and_row_parallel_match_reference Z_semi_ring skewed
           ltac:(csr_wf_by_check) 17 1
           [1; 10; 100] [1; 10; 100] [7; 7; 7; 7] [0; 0; 0; 0] [-1; -1; -1; -1]
           [1; 10; 100]); try (simpl; lia).
  intros c Hc. rewrite Z.mul_1_r. reflexivity.
Defined.

(** ** The row the nonzero-split kernel never stores *)

Section NonzeroSplitLastRow.
Context {V : Type} `{ValueOps V} (a : CsrMatrix V) (Hwf : csr_wf a).

Lemma row_of_position_spec (y : Z) :
  RowPathSearch (row_end_offsets_of a) (Counting 0) (num_rows a)
    {| int2.x := 0; int2.y := y |}
  = Done {| int2.x := row_of_position a y; int2.y := y |} /\
  0 <= row_of_position a y <= num_rows a /\
  (forall x', 0 <= x' < row_of_position a y -> rd 0 (row_offsets a) (x' + 1) < y) /\
  (row_of_position a y < num_rows a ->
     y <= rd 0 (row_offsets a) (row_of_position a y + 1)).
Proof.
  destruct (RowPathSearch_csr a Hwf 0 y) as (x & Hrun & Hx).
  unfold row_of_position. rewrite Hrun. split; [reflexivity|exact Hx].
Qed.

Lemma row_of_position_mono (y y' : Z) :
  y <= y' -> row_of_position a y <= row_of_position a y'.
Proof.
  intros Hy.
  destruct (row_of_position_spec y) as (_ & Hr & Hbelow & _).
  destruct (row_of_position_spec y') as (_ & Hr' & _ & Habove').
  destruct (Z_le_gt_dec (row_of_position a y) (row_of_position a y'))
    as [Hle|Hgt]; [exact Hle|].
  specialize (Hbelow (row_of_position a y') ltac:(lia)). lia.
Qed.

Lemma nonzero_positions (num_threads t t' : Z) :
  1 <= num_threads -> 0 <= t < t' ->
  thread_coord_end_y num_threads a t <= thread_coord_y num_threads a t' /\
  thread_coord_end_y num_threads a t <= num_nonzeros a.
Proof.
  intros Hnt Ht.
  pose proof (wf_rows a Hwf) as Hrows.
  pose proof (row_offsets_range a Hwf (num_rows a) ltac:(lia)) as Hnnz.
  rewrite (wf_last a Hwf) in Hnnz.
  assert (Hper : 0 <= nonzero_items_per_thread num_threads a).
  { unfold nonzero_items_per_thread. rewrite Z.quot_div_nonneg by lia.
    apply Z.div_pos; lia. }
  unfold thread_coord_end_y, thread_coord_y. nia.
Qed.

(** X5.  On a well-formed matrix with at least one row, the row [R] in which
    the last thread ends is a row of the matrix that no thread stores:
    after the parallel loop it holds what the caller passed in, and the
    result holds that same value with carry-outs added to it. *)
Theorem nonzero_split_last_row_not_stored (num_threads num_vectors : Z)
    (vector_x vector_y_out vector_x_row_major : list V) :
  1 <= num_rows a ->
  1 <= num_threads <= 256 ->
  0 <= num_vectors ->
  num_rows a * num_vectors <= Z.of_nat (length vector_y_out) ->
  let R := row_of_position a (num_nonzeros a) in
  0 <= R < num_rows a /\
  exists s out,
    nonzero_parallel num_threads a (row_end_offsets_of a) (column_indices a)
      (values a) num_vectors vector_x_row_major (shared_init vector_y_out)
    = Done s /\
    TestOmpNonzeroSplitCsrmm_call num_threads a vector_x vector_y_out
      num_vectors vector_x_row_major = Done out /\
    forall i, 0 <= i < num_vectors ->
      rd vzero (shared_out s) (R * num_vectors + i)
      = rd vzero vector_y_out (R * num_vectors + i) /\
      rd vzero out (R * num_vectors + i)
      = add_carries s R i (seqZ 0 (num_threads - 1))
          (rd vzero vector_y_out (R * num_vectors + i)).
Proof.
  intros Hrows Hnt Hnv Hlen R.
  pose proof (row_offsets_range a Hwf (num_rows a) ltac:(lia)) as Hnnz.
  rewrite (wf_last a Hwf) in Hnnz.
  assert (HR : 0 <= R < num_rows a).
  { subst R. destruct (row_of_position_spec (num_nonzeros a))
      as (_ & Hr & Hbelow & _).
    destruct (Z.eq_dec (row_of_position a (num_nonzeros a)) (num_rows a))
      as [Heq|Hne]; [|lia].
    specialize (Hbelow (num_rows a - 1) ltac:(lia)).
    replace (num_rows a - 1 + 1) with (num_rows a) in Hbelow by lia.
    rewrite (wf_last a Hwf) in Hbelow. lia. }
  split; [exact HR|].
  set (cs := fun tid => {| int2.x := row_of_position a (thread_coord_y num_threads a tid);
                           int2.y := thread_coord_y num_threads a tid |}).
  set (ces := fun tid =>
                {| int2.x := row_of_position a (thread_coord_end_y num_threads a tid);
                   int2.y := thread_coord_end_y num_threads a tid |}).
  assert (Hcoords : forall tid, 0 <= tid < num_threads ->
            nonzero_coords num_threads a (row_end_offsets_of a) tid
            = Done (cs tid, ces tid)).
  { intros tid Ht. unfold nonzero_coords.
    destruct (row_of_position_spec (thread_coord_y num_threads a tid)) as [-> _].
    destruct (row_of_position_spec (thread_coord_end_y num_threads a tid))
      as [-> _]. reflexivity. }
  destruct (parallel_phase_rows cs ces num_threads (row_end_offsets_of a)
              (column_indices a) (values a) num_vectors vector_x_row_major
              vector_y_out) as (s & Hrun & Hl & _ & Hframe); [lia|lia| |].
  { intros t t' Ht Ht'. unfold cs, ces. cbn [int2.x].
    apply row_of_position_mono. apply nonzero_positions; lia. }
  unfold TestOmpNonzeroSplitCsrmm_call, OmpNonzeroSplitCsrmm, nonzero_parallel.
  rewrite (parallel_phase_ext _ (fun tid => Done (cs tid, ces tid)))
    by exact Hcoords.
  rewrite Hrun. simpl.
  destruct (carry_fixup_applies num_threads a num_vectors s)
    as (out & Hfix & _ & Happ & _); [lia|lia|lia|].
  exists s, out. split; [reflexivity|]. split; [exact Hfix|].
  intros i Hi.
  assert (Hkept : rd vzero (shared_out s) (R * num_vectors + i)
                  = rd vzero vector_y_out (R * num_vectors + i)).
  { apply Hframe. intros t Ht. unfold cs, ces. cbn [int2.x].
    assert (row_of_position a (thread_coord_end_y num_threads a t) <= R).
    { apply row_of_position_mono.
      unfold thread_coord_end_y. lia. }
    nia. }
  split; [exact Hkept|]. rewrite Happ by lia. rewrite Hkept. reflexivity.
Qed.
End NonzeroSplitLastRow.

(** On [skewed] that row is the last one, row 3. *)
Lemma skewed_row_never_stored :
  row_of_position skewed (num_nonzeros skewed) = 3 /\
  0 <= row_of_position skewed (num_nonzeros skewed) < num_rows skewed.
Proof.
  split; [reflexivity|].
  apply (nonzero_split_last_row_not_stored skewed ltac:(csr_wf_by_check) 4 1
           [1; 10; 100] [-1; -1; -1; -1] [1; 10; 100]); simpl; lia.
Defined.

(** * Further properties of the code *)

(** ** The path searches *)

(** More fuel does not change what the loop returns. *)
Lemma bisect_more_fuel (p : Z -> bool) (fuel fuel' : nat) :
  (fuel <= fuel')%nat ->
  forall lo hi r, bisect fuel p lo hi = Done r -> bisect fuel' p lo hi = Done r.
Proof.
  revert fuel'. induction fuel as [|fuel IH]; intros fuel' Hle lo hi r; simpl.
  - destruct (Z.ltb_spec lo hi) as [Hlt|Hge]; [discriminate|].
    intros Hr. destruct fuel'; simpl; destruct (Z.ltb_spec lo hi); try lia; exact Hr.
  - destruct fuel' as [|fuel']; [lia|]. simpl.
    destruct (Z.ltb_spec lo hi) as [Hlt|Hge]; [|done].
    destruct (p _); apply IH; lia.
Qed.

(** Each step halves the range: [fuel] steps are enough for a range of
    fewer than [2 ^ fuel] indices. *)
Lemma bisect_halves (p : Z -> bool) (fuel : nat) :
  forall lo hi, hi - lo < 2 ^ Z.of_nat fuel ->
    exists r, bisect fuel p lo hi = Done r.
Proof.
  induction fuel as [|fuel IH]; intros lo hi Hsize; simpl.
  - change (2 ^ Z.of_nat 0) with 1 in Hsize.
    destruct (Z.ltb_spec lo hi); [lia|]. eauto.
  - destruct (Z.ltb_spec lo hi) as [Hlt|]; [|eauto].
    rewrite Nat2Z.inj_succ, Z.pow_succ_r in Hsize by lia.
    assert (Hpiv : Z.shiftr (lo + hi) 1 = (lo + hi) / 2).
    { rewrite Z.shiftr_div_pow2 by lia. reflexivity. }
    rewrite Hpiv.
    pose proof (Z.div_mod (lo + hi) 2 ltac:(lia)) as Hdm.
    pose proof (Z.mod_pos_bound (lo + hi) 2 ltac:(lia)) as Hm.
    destruct (p _); apply IH; lia.
Qed.

Lemma MergePathSearch_past_end {A B : Type} `{Subscript A} `{Subscript B}
    (diagonal : Z) (a : A) (b : B) (a_len b_len : Z) :
  0 <= a_len -> 0 <= b_len -> a_len + b_len <= diagonal ->
  MergePathSearch diagonal a b a_len b_len
  = Done {| int2.x := a_len; int2.y := b_len |}.
Proof.
  intros Ha Hb Hd. unfold MergePathSearch.
  replace (Z.to_nat _) with 0%nat by lia. simpl.
  destruct (Z.ltb_spec (Z.max (diagonal - b_len) 0) (Z.min diagonal a_len));
    [lia|].
  simpl. f_equal. f_equal; lia.
Qed.

Lemma MergePathSearch_before_start {A B : Type} `{Subscript A} `{Subscript B}
    (diagonal : Z) (a : A) (b : B) (a_len b_len : Z) :
  0 <= a_len -> 0 <= b_len -> diagonal <= 0 ->
  MergePathSearch diagonal a b a_len b_len
  = Done {| int2.x := 0; int2.y := diagonal |}.
Proof.
  intros Ha Hb Hd. unfold MergePathSearch.
  replace (Z.to_nat _) with 0%nat by lia. simpl.
  destruct (Z.ltb_spec (Z.max (diagonal - b_len) 0) (Z.min diagonal a_len));
    [lia|].
  simpl. f_equal. f_equal; lia.
Qed.

(** X13.  On any two sequences sorted in non-decreasing order and any
    diagonal [d] of the merge grid, [MergePathSearch] returns a coordinate
    [(x, y)] on that diagonal that splits the merge: every one of the
    first [x] elements of [a] is at most every element of [b] from [y] on,
    and every one of the first [y] elements of [b] is below every element
    of [a] from [x] on. *)
Theorem MergePathSearch_sorted {A B : Type} `{Subscript A} `{Subscript B}
    (diagonal : Z) (a : A) (b : B) (a_len b_len : Z) :
  0 <= a_len -> 0 <= b_len ->
  0 <= diagonal <= a_len + b_len ->
  (forall i j, 0 <= i <= j -> j < a_len -> subscript a i <= subscript a j) ->
  (forall i j, 0 <= i <= j -> j < b_len -> subscript b i <= subscript b j) ->
  exists c,
    MergePathSearch diagonal a b a_len b_len = Done c /\
    int2.x c + int2.y c = diagonal /\
    0 <= int2.x c <= a_len /\ 0 <= int2.y c <= b_len /\
    (forall i j, 0 <= i < int2.x c -> int2.y c <= j < b_len ->
       subscript a i <= subscript b j) /\
    (forall i j, int2.x c <= i < a_len -> 0 <= j < int2.y c ->
       subscript b j < subscript a i).
Proof.
  intros Ha Hb Hd Hsa Hsb. unfold MergePathSearch.
  rewrite MergePathSearch_loop_bisect.
  set (lo := Z.max (diagonal - b_len) 0).
  set (hi := Z.min diagonal a_len).
  destruct (bisect_spec (Z.to_nat (hi - lo))
              (fun x => subscript a x <=? subscript b (diagonal - x - 1)) lo hi)
    as (r & Hrun & Hr & Hbelow & Habove); [lia|lia| |].
  { intros x x' Hx Hxh. rewrite !Z.leb_le. intros Hp.
    pose proof (Hsa x' x ltac:(lia) ltac:(lia)).
    pose proof (Hsb (diagonal - x - 1) (diagonal - x' - 1) ltac:(lia) ltac:(lia)).
    lia. }
  rewrite Hrun. simpl. eexists. split; [reflexivity|]. simpl.
  rewrite Z.min_l by lia.
  split; [lia|]. split; [lia|]. split; [lia|]. split.
  - intros i j Hi Hj.
    assert (Hlo : lo < r) by lia.
    specialize (Hbelow (r - 1) ltac:(lia)). rewrite Z.leb_le in Hbelow.
    replace (diagonal - (r - 1) - 1) with (diagonal - r) in Hbelow by lia.
    pose proof (Hsa i (r - 1) ltac:(lia) ltac:(lia)).
    pose proof (Hsb (diagonal - r) j ltac:(lia) ltac:(lia)).
    lia.
  - intros i j Hi Hj.
    assert (Hhi : r < hi) by lia.
    specialize (Habove r ltac:(lia)). rewrite Z.leb_gt in Habove.
    pose proof (Hsa r i ltac:(lia) ltac:(lia)).
    pose proof (Hsb j (diagonal - r - 1) ltac:(lia) ltac:(lia)).
    lia.
Qed.

(** The theorem on the row-end offsets of [skewed] against the counting
    sequence, diagonal 5. *)
Lemma MergePathSearch_sorted_witness :
  exists c,
    MergePathSearch 5 (row_end_offsets_of skewed) (Counting 0) 4 9 = Done c /\
    int2.x c + int2.y c = 5.
Proof.
  destruct (MergePathSearch_sorted 5 (row_end_offsets_of skewed) (Counting 0) 4 9)
    as (c & Hrun & Hsum & _); [lia|lia|lia| | |].
  - intros i j Hi Hj.
    assert (Hi' : i = 0 \/ i = 1 \/ i = 2 \/ i = 3) by lia.
    assert (Hj' : j = 0 \/ j = 1 \/ j = 2 \/ j = 3) by lia.
    destruct Hi' as [-> | [-> | [-> | ->]]];
      destruct Hj' as [-> | [-> | [-> | ->]]]; vm_compute; try lia;
      intros Hc; discriminate Hc.
  - intros i j Hi Hj. unfold subscript, counting_subscript. simpl. lia.
  - exists c. split; [exact Hrun|exact Hsum].
Defined.

(** X14.  A diagonal at or past the end of the merge grid gets the end
    coordinate [(a_len, b_len)], and a diagonal at or before its start gets
    [(0, diagonal)]; in both cases the loop is not entered, so neither
    sequence is read. *)
Theorem MergePathSearch_outside_grid {A B : Type} `{Subscript A} `{Subscript B}
    (diagonal : Z) (a : A) (b : B) (a_len b_len : Z) :
  0 <= a_len -> 0 <= b_len ->
  (a_len + b_len <= diagonal ->
   MergePathSearch diagonal a b a_len b_len
   = Done {| int2.x := a_len; int2.y := b_len |}) /\
  (diagonal <= 0 ->
   MergePathSearch diagonal a b a_len b_len
   = Done {| int2.x := 0; int2.y := diagonal |}).
Proof.
  intros Ha Hb. split; intros Hd.
  - apply MergePathSearch_past_end; assumption.
  - apply MergePathSearch_before_start; assumption.
Qed.

Lemma MergePathSearch_outside_grid_witness :
  MergePathSearch 20 (row_end_offsets_of skewed) (Counting 0) 4 9
  = Done {| int2.x := 4; int2.y := 9 |}.
Proof.
  apply (MergePathSearch_outside_grid 20 (row_end_offsets_of skewed) (Counting 0) 4 9);
    lia.
Defined.

(** X16.  Both search loops halve their range at every step: on a range of
    fewer than [2 ^ n] indices they stop within [n] iterations, whatever
    the sequences hold, and return what they return with any larger
    number of iterations allowed. *)
Theorem search_loops_logarithmic {A B : Type} `{Subscript A} `{Subscript B}
    (n : nat) (diagonal path_y : Z) (a : A) (b : B) (x_min x_max : Z) :
  x_max - x_min < 2 ^ Z.of_nat n ->
  (exists x,
     MergePathSearch_loop n diagonal a b x_min x_max = Done x /\
     forall fuel, (n <= fuel)%nat ->
       MergePathSearch_loop fuel diagonal a b x_min x_max = Done x) /\
  (exists x,
     RowPathSearch_loop n a b path_y x_min x_max = Done x /\
     forall fuel, (n <= fuel)%nat ->
       RowPathSearch_loop fuel a b path_y x_min x_max = Done x).
Proof.
  intros Hsize. split.
  - destruct (bisect_halves
                (fun x => subscript a x <=? subscript b (diagonal - x - 1))
                n x_min x_max Hsize) as [r Hr].
    exists r. rewrite MergePathSearch_loop_bisect. split; [exact Hr|].
    intros fuel Hfuel. rewrite MergePathSearch_loop_bisect.
    apply (bisect_more_fuel _ n fuel Hfuel). exact Hr.
  - destruct (bisect_halves
                (fun x => subscript a x <=? subscript b (path_y - 1))
                n x_min x_max Hsize) as [r Hr].
    exists r. rewrite RowPathSearch_loop_bisect. split; [exact Hr|].
    intros fuel Hfuel. rewrite RowPathSearch_loop_bisect.
    apply (bisect_more_fuel _ n fuel Hfuel). exact Hr.
Qed.

(** A thousand rows are searched in ten steps. *)
Lemma search_loops_logarithmic_witness :
  exists x,
    RowPathSearch_loop 10 (Counting 0) (Counting 0) 501 0 1000 = Done x /\
    forall fuel, (10 <= fuel)%nat ->
      RowPathSearch_loop fuel (Counting 0) (Counting 0) 501 0 1000 = Done x.
Proof.
  destruct (search_loops_logarithmic 10 0 501 (Counting 0) (Counting 0) 0 1000)
    as [_ Hrow]; [simpl; lia|exact Hrow].
Defined.

(** X15.  On the row-end offsets of a well-formed matrix, [RowPathSearch]
    for a position [y] with [1 <= y <= num_nonzeros] returns the one row
    that holds entry [y - 1]: the row [x] with
    [row_offsets[x] < y <= row_offsets[x + 1]].  For [y <= 0] it returns
    row 0 and for [y > num_nonzeros] it returns [num_rows]; the [y] field
    is returned as given. *)
Theorem RowPathSearch_row_of_entry {V : Type} (a : CsrMatrix V) (x0 y : Z) :
  csr_wf a ->
  exists x,
    RowPathSearch (row_end_offsets_of a) (Counting 0) (num_rows a)
      {| int2.x := x0; int2.y := y |} = Done {| int2.x := x; int2.y := y |} /\
    (1 <= y <= num_nonzeros a ->
       0 <= x < num_rows a /\
       rd 0 (row_offsets a) x < y <= rd 0 (row_offsets a) (x + 1) /\
       forall x', 0 <= x' < num_rows a ->
         rd 0 (row_offsets a) x' < y <= rd 0 (row_offsets a) (x' + 1) -> x' = x) /\
    (y <= 0 -> x = 0) /\
    (num_nonzeros a < y -> x = num_rows a).
Proof.
  intros Hwf.
  destruct (RowPathSearch_csr a Hwf x0 y) as (x & Hrun & Hx & Hbelow & Habove).
  pose proof (wf_rows a Hwf) as Hrows.
  exists x. split; [exact Hrun|]. split; [|split].
  - intros Hy.
    assert (Hlt : x < num_rows a).
    { destruct (Z.eq_dec x (num_rows a)) as [->|Hne]; [|lia].
      destruct (Z.eq_dec (num_rows a) 0) as [Hz|Hnz].
      - pose proof (wf_first a Hwf). pose proof (wf_last a Hwf).
        rewrite Hz in *. lia.
      - specialize (Hbelow (num_rows a - 1) ltac:(lia)).
        replace (num_rows a - 1 + 1) with (num_rows a) in Hbelow by lia.
        rewrite (wf_last a Hwf) in Hbelow. lia. }
    split; [lia|]. split.
    + split; [|apply Habove; exact Hlt].
      destruct (Z.eq_dec x 0) as [->|Hne].
      * rewrite (wf_first a Hwf). lia.
      * specialize (Hbelow (x - 1) ltac:(lia)).
        replace (x - 1 + 1) with x in Hbelow by lia. exact Hbelow.
    + intros x' Hx' Hin.
      destruct (Z.lt_trichotomy x' x) as [Hl|[Heq|Hg]]; [|exact Heq|].
      * specialize (Hbelow x' ltac:(lia)). lia.
      * specialize (Habove Hlt).
        pose proof (row_offsets_mono a Hwf (x + 1) x' ltac:(lia) ltac:(lia)). lia.
  - intros Hy. destruct (Z.eq_dec x 0) as [->|Hne]; [reflexivity|].
    specialize (Hbelow 0 ltac:(lia)).
    pose proof (row_offsets_range a Hwf (0 + 1) ltac:(lia)). lia.
  - intros Hy. destruct (Z.eq_dec x (num_rows a)) as [->|Hne]; [reflexivity|].
    specialize (Habove ltac:(lia)).
    pose proof (row_offsets_range a Hwf (x + 1) ltac:(lia)). lia.
Qed.

(** On [skewed], entry 7 (position 8) lies in row 2. *)
Lemma RowPathSearch_row_of_entry_witness :
  exists x,
    RowPathSearch (row_end_offsets_of skewed) (Counting 0) (num_rows skewed)
      {| int2.x := 0; int2.y := 8 |} = Done {| int2.x := x; int2.y := 8 |} /\
    (1 <= 8 <= num_nonzeros skewed ->
       rd 0 (row_offsets skewed) x < 8 <= rd 0 (row_offsets skewed) (x + 1)).
Proof.
  destruct (RowPathSearch_row_of_entry skewed 0 8) as (x & Hrun & Hin & _);
    [csr_wf_by_check|].
  exists x. split; [exact Hrun|]. intros Hy. apply (Hin Hy).
Defined.

(** X12.  The merge path of a well-formed matrix is a staircase: from one
    diagonal to the next the coordinate moves by exactly one step, down to
    the next row when the current row is used up
    ([y = row_offsets[x + 1]]) and on to the next entry otherwise. *)
Theorem merge_path_steps {V : Type} (a : CsrMatrix V) (d : Z) :
  csr_wf a ->
  0 <= d < num_rows a + num_nonzeros a ->
  exists c c',
    MergePathSearch d (row_end_offsets_of a) (Counting 0)
      (num_rows a) (num_nonzeros a) = Done c /\
    MergePathSearch (d + 1) (row_end_offsets_of a) (Counting 0)
      (num_rows a) (num_nonzeros a) = Done c' /\
    (if (int2.x c <? num_rows a)
        && (int2.y c =? rd 0 (row_offsets a) (int2.x c + 1))
     then int2.x c' = int2.x c + 1 /\ int2.y c' = int2.y c
     else int2.x c' = int2.x c /\ int2.y c' = int2.y c + 1).
Proof.
  intros Hwf Hd.
  destruct (MergePathSearch_csr a Hwf d ltac:(lia))
    as (c & Hrun & Hsum & Hrange & Hlo & Hhi).
  destruct (MergePathSearch_csr a Hwf (d + 1) ltac:(lia))
    as (c' & Hrun' & Hsum' & Hrange' & Hlo' & Hhi').
  exists c, c'. split; [exact Hrun|]. split; [exact Hrun'|].
  pose proof (wf_rows a Hwf) as Hrows.
  assert (Hx : int2.x c <= int2.x c' <= int2.x c + 1).
  { split.
    - destruct (Z_le_gt_dec (int2.x c) (int2.x c')) as [Hle|Hgt]; [exact Hle|].
      pose proof (row_offsets_mono a Hwf (int2.x c' + 1) (int2.x c)
                    ltac:(lia) ltac:(lia)).
      specialize (Hhi' ltac:(lia)). lia.
    - destruct (Z_le_gt_dec (int2.x c') (int2.x c + 1)) as [Hle|Hgt]; [exact Hle|].
      pose proof (row_offsets_mono a Hwf (int2.x c + 1) (int2.x c')
                    ltac:(lia) ltac:(lia)).
      specialize (Hhi ltac:(lia)). lia. }
  destruct (Z.ltb_spec (int2.x c) (num_rows a)) as [Hlt|Hge]; simpl.
  - destruct (Z.eqb_spec (int2.y c) (rd 0 (row_offsets a) (int2.x c + 1)))
      as [Heq|Hne].
    + destruct (Z.eq_dec (int2.x c') (int2.x c)) as [Hsame|Hdiff]; [|lia].
      exfalso. rewrite Hsame in *. specialize (Hhi' Hlt). lia.
    + destruct (Z.eq_dec (int2.x c') (int2.x c)) as [Hsame|Hdiff]; [lia|].
      exfalso. assert (Hnext : int2.x c' = int2.x c + 1) by lia.
      rewrite Hnext in *. specialize (Hhi Hlt). lia.
  - lia.
Qed.

(** On [skewed], diagonal 1 lies at [(0, 1)], the end of row 0, and
    diagonal 2 at [(1, 1)]. *)
Lemma merge_path_steps_witness :
  exists c c',
    MergePathSearch 1 (row_end_offsets_of skewed) (Counting 0)
      (num_rows skewed) (num_nonzeros skewed) = Done c /\
    MergePathSearch (1 + 1) (row_end_offsets_of skewed) (Counting 0)
      (num_rows skewed) (num_nonzeros skewed) = Done c' /\
    (if (int2.x c <? num_rows skewed)
        && (int2.y c =? rd 0 (row_offsets skewed) (int2.x c + 1))
     then int2.x c' = int2.x c + 1 /\ int2.y c' = int2.y c
     else int2.x c' = int2.x c /\ int2.y c' = int2.y c + 1).
Proof.
  apply (merge_path_steps skewed 1); [csr_wf_by_check|simpl; lia].
Defined.

(** ** The transposing prepass and the row-parallel kernel *)

Lemma for_step_as_for_loop {St : Type} (i num_cols num_vectors : Z)
    (body : Z -> St -> St) (s : St) :
  0 <= i < num_cols -> 0 <= num_vectors ->
  for_step i (num_cols * num_vectors) num_cols body s
  = for_loop 0 num_vectors (fun k s => body (i + k * num_cols) s) s.
Proof.
  intros Hi Hnv. unfold for_step, for_loop.
  rewrite Z.quot_div_nonneg by nia.
  replace ((num_cols * num_vectors - i + num_cols - 1) / num_cols)
    with (num_vectors - 0); [reflexivity|].
  apply (Z.div_unique _ _ _ (num_cols - 1 - i)); lia.
Qed.

Section Prepass.
Context {V : Type} `{ValueOps V}.
Variables (num_cols num_vectors : Z) (vector_x : list V).
Hypothesis Hnc : 0 <= num_cols.
Hypothesis Hnv : 0 <= num_vectors.

(** The inner loop for column [i]: [num_vectors] consecutive writes. *)
Lemma prepass_column (i xt_index : Z) (vector_x_row_major : list V) :
  0 <= xt_index ->
  xt_index + num_vectors <= Z.of_nat (length vector_x_row_major) ->
  let r := for_loop 0 num_vectors
             (fun k '(xt_index, vector_x_row_major) =>
                (xt_index + 1,
                 wr vector_x_row_major xt_index
                    (rd vzero vector_x (i + k * num_cols))))
             (xt_index, vector_x_row_major) in
  fst r = xt_index + num_vectors /\
  length (snd r) = length vector_x_row_major /\
  (forall k, 0 <= k < num_vectors ->
     rd vzero (snd r) (xt_index + k) = rd vzero vector_x (i + k * num_cols)) /\
  (forall j, ~ (xt_index <= j < xt_index + num_vectors) ->
     rd vzero (snd r) j = rd vzero vector_x_row_major j).
Proof.
  intros Hxt Hlen r. subst r.
  apply (for_loop_inv
    (fun n (st : Z * list V) =>
       fst st = xt_index + n /\
       length (snd st) = length vector_x_row_major /\
       (forall k, 0 <= k < n ->
          rd vzero (snd st) (xt_index + k) = rd vzero vector_x (i + k * num_cols)) /\
       (forall j, ~ (xt_index <= j < xt_index + n) ->
          rd vzero (snd st) j = rd vzero vector_x_row_major j)));
    [exact Hnv| |].
  - simpl. split; [lia|]. split; [done|]. split; [intros; lia|done].
  - intros n [xt xrm] Hn (Hxtn & Hl & Hdone & Hrest). simpl in *. subst xt.
    split; [lia|]. split; [rewrite length_wr; exact Hl|]. split.
    + intros k Hk. destruct (Z.eq_dec k n) as [->|Hne].
      * apply rd_wr_eq. lia.
      * rewrite rd_wr_ne by lia. apply Hdone. lia.
    + intros j Hj. rewrite rd_wr_ne by lia. apply Hrest. lia.
Qed.

(** The prepass started at [xt_index]: column [i] of the operand, taken
    with stride [num_cols], lands in the [num_vectors] entries from
    [xt_index + i * num_vectors] on. *)
Lemma transpose_prepass_spec (xt_index : Z) (vector_x_row_major : list V) :
  0 <= xt_index ->
  xt_index + num_cols * num_vectors <= Z.of_nat (length vector_x_row_major) ->
  let r := transpose_prepass xt_index num_cols num_vectors vector_x
             vector_x_row_major in
  fst r = xt_index + num_cols * num_vectors /\
  length (snd r) = length vector_x_row_major /\
  (forall i k, 0 <= i < num_cols -> 0 <= k < num_vectors ->
     rd vzero (snd r) (xt_index + i * num_vectors + k)
     = rd vzero vector_x (i + k * num_cols)) /\
  (forall j, ~ (xt_index <= j < xt_index + num_cols * num_vectors) ->
     rd vzero (snd r) j = rd vzero vector_x_row_major j).
Proof.
  intros Hxt Hlen r. subst r. unfold transpose_prepass.
  apply (for_loop_inv
    (fun n (st : Z * list V) =>
       fst st = xt_index + n * num_vectors /\
       length (snd st) = length vector_x_row_major /\
       (forall i k, 0 <= i < n -> 0 <= k < num_vectors ->
          rd vzero (snd st) (xt_index + i * num_vectors + k)
          = rd vzero vector_x (i + k * num_cols)) /\
       (forall j, ~ (xt_index <= j < xt_index + n * num_vectors) ->
          rd vzero (snd st) j = rd vzero vector_x_row_major j)));
    [exact Hnc| |].
  - simpl. split; [lia|]. split; [done|]. split; [intros; lia|done].
  - intros n [xt xrm] Hn (Hxtn & Hl & Hdone & Hrest). simpl in Hxtn, Hl, Hdone, Hrest.
    subst xt. rewrite for_step_as_for_loop by lia.
    destruct (prepass_column n (xt_index + n * num_vectors) xrm)
      as (Hfst & Hl' & Hnew & Hold); [nia|nia|].
    cbv zeta in Hfst, Hl', Hnew, Hold.
    split; [rewrite Hfst; lia|]. split; [lia|]. split.
    + intros i k Hi Hk. destruct (Z.eq_dec i n) as [->|Hne].
      * apply Hnew. exact Hk.
      * rewrite Hold by nia. apply Hdone; lia.
    + intros j Hj. rewrite Hold by nia. apply Hrest. nia.
Qed.
End Prepass.

(** X17.  The transposing prepass of [OmpCsrSpmmT], run by one thread from
    the index [xt_index] on a buffer that is long enough: it writes
    [vector_x[i + k * num_cols]] to entry
    [xt_index + i * num_vectors + k] for every column [i] and vector [k],
    changes nothing else and leaves the index at
    [xt_index + num_cols * num_vectors].  From [xt_index = 0] this is the
    row-major copy of the column-major operand; from any other start the
    copy is shifted by that much. *)
Theorem transpose_prepass_copies {V : Type} `{ValueOps V}
    (xt_index num_cols num_vectors : Z) (vector_x vector_x_row_major : list V) :
  0 <= num_cols -> 0 <= num_vectors ->
  0 <= xt_index ->
  xt_index + num_cols * num_vectors <= Z.of_nat (length vector_x_row_major) ->
  let r := transpose_prepass xt_index num_cols num_vectors vector_x
             vector_x_row_major in
  fst r = xt_index + num_cols * num_vectors /\
  length (snd r) = length vector_x_row_major /\
  (forall i k, 0 <= i < num_cols -> 0 <= k < num_vectors ->
     rd vzero (snd r) (xt_index + i * num_vectors + k)
     = rd vzero vector_x (i + k * num_cols)) /\
  (forall j, ~ (xt_index <= j < xt_index + num_cols * num_vectors) ->
     rd vzero (snd r) j = rd vzero vector_x_row_major j).
Proof.
  intros Hnc Hnv Hxt Hlen.
  exact (transpose_prepass_spec num_cols num_vectors vector_x Hnc Hnv xt_index
           vector_x_row_major Hxt Hlen).
Qed.

(** The theorem on a 3 x 2 column-major operand, started at index 1 of a
    buffer of 8 entries. *)
Lemma transpose_prepass_copies_witness :
  transpose_prepass 1 3 2 [1; 10; 100; 2; 20; 200] [0; 0; 0; 0; 0; 0; 0; 0]
  = (7, [0; 1; 2; 10; 20; 100; 200; 0]) /\
  fst (transpose_prepass 1 3 2 [1; 10; 100; 2; 20; 200] [0; 0; 0; 0; 0; 0; 0; 0])
  = 1 + 3 * 2.
Proof.
  split; [reflexivity|].
  apply (transpose_prepass_copies 1 3 2 [1; 10; 100; 2; 20; 200]
           [0; 0; 0; 0; 0; 0; 0; 0]); simpl; lia.
Defined.




Lemma entry_index_onto (row_major : bool) (num_rows num_vectors j : Z) :
  0 <= num_vectors ->
  0 <= j < num_rows * num_vectors ->
  exists r i, 0 <= r < num_rows /\ 0 <= i < num_vectors /\
    entry_index row_major num_rows num_vectors r i = j.
Proof.
  intros Hnv Hj. unfold entry_index.
  assert (Hpos : 0 < num_rows /\ 0 < num_vectors).
  { destruct (Z.eq_dec num_vectors 0) as [Hz|Hnz].
    - rewrite Hz, Z.mul_0_r in Hj. lia.
    - split; [nia|lia]. }
  destruct row_major.
  - exists (j / num_vectors), (j mod num_vectors).
    pose proof (Z.div_mod j num_vectors ltac:(lia)).
    pose proof (Z.mod_pos_bound j num_vectors ltac:(lia)).
    split; [|split; [lia|lia]].
    split; [apply Z.div_pos; lia|apply Z.div_lt_upper_bound; lia].
  - exists (j mod num_rows), (j / num_rows).
    pose proof (Z.div_mod j num_rows ltac:(lia)).
    pose proof (Z.mod_pos_bound j num_rows ltac:(lia)).
    split; [lia|]. split; [|lia].
    split; [apply Z.div_pos; lia|apply Z.div_lt_upper_bound; lia].
Qed.

Lemma OmpCsrSpmmT_frame {V : Type} `{ValueOps V} (g : globals)
    (xt_index : Z -> Z) (num_threads : Z) (a : CsrMatrix V)
    (vector_x vector_y_out : list V) (num_vectors : Z)
    (vector_x_row_major : list V) :
  0 <= num_vectors ->
  forall j, ~ (0 <= j < num_rows a * num_vectors) ->
    rd vzero (fst (OmpCsrSpmmT g xt_index num_threads a vector_x vector_y_out
                     num_vectors vector_x_row_major)) j
    = rd vzero vector_y_out j.
Proof.
  intros Hnv j Hj. unfold OmpCsrSpmmT. cbn [fst].
  set (xrm := if negb (g_input_row_major g) then _ else _).
  destruct (Z_le_gt_dec 0 (num_rows a)) as [Hrows|Hrows].
  2:{ rewrite for_loop_nil by lia. reflexivity. }
  apply (for_loop_inv (fun _ out => rd vzero out j = rd vzero vector_y_out j));
    [exact Hrows|reflexivity|].
  intros n out Hn Hout.
  set (partial := for_loop _ _ _ (zeros num_vectors)).
  assert (Hstep :
    rd vzero
       (for_loop 0 num_vectors
          (fun i out =>
             wr out (entry_index (g_output_row_major g) (num_rows a)
                       num_vectors n i)
                (rd vzero partial i)) out) j
    = rd vzero vector_y_out j).
  { destruct (scatter_spec num_vectors
                (entry_index (g_output_row_major g) (num_rows a) num_vectors n)
                (fun i => rd vzero partial i) out Hnv)
      as (_ & _ & Hold).
    { intros i i' Hi Hi' Heq.
      apply (entry_index_inj (g_output_row_major g) (num_rows a) num_vectors
               n i n i'); lia. }
    cbv zeta in Hold. rewrite Hold; [exact Hout|].
    intros i Hi Heq.
    pose proof (entry_index_range (g_output_row_major g) (num_rows a)
                  num_vectors n i ltac:(lia) Hi). lia. }
  unfold entry_index in Hstep. destruct (g_output_row_major g); exact Hstep.
Qed.

Lemma for_loop_fixed {St : Type} (lo hi : Z) (body : Z -> St -> St) (s : St) :
  (forall i, lo <= i < hi -> body i s = s) -> for_loop lo hi body s = s.
Proof.
  intros Hfix. destruct (Z_le_gt_dec lo hi) as [Hle|Hgt].
  - apply (for_loop_inv (fun _ t => t = s)); [exact Hle|reflexivity|].
    intros i t Hi ->. apply Hfix. exact Hi.
  - apply for_loop_nil. lia.
Qed.

Section RowMajorOperand.
Context {V : Type} `{ValueOps V}.
Variables (g : globals) (a : CsrMatrix V) (num_vectors : Z)
          (vector_x_row_major : list V).
Hypothesis Hin : g_input_row_major g = true.
Hypothesis Hnv : 0 <= num_vectors.

Lemma OmpCsrSpmmT_keeps_operand (xt_index : Z -> Z) (num_threads : Z)
    (vector_x vector_y_out : list V) :
  snd (OmpCsrSpmmT g xt_index num_threads a vector_x vector_y_out num_vectors
         vector_x_row_major) = vector_x_row_major.
Proof. unfold OmpCsrSpmmT. cbn [snd]. rewrite Hin. reflexivity. Qed.

(** Two calls on buffers of one length that agree after the result
    entries return the same buffer. *)
Lemma OmpCsrSpmmT_same_tail (xt_index xt_index' : Z -> Z)
    (num_threads num_threads' : Z)
    (vector_x vector_x' vector_y_out vector_y_out' : list V) :
  num_rows a * num_vectors <= Z.of_nat (length vector_y_out) ->
  length vector_y_out' = length vector_y_out ->
  (forall j, ~ (0 <= j < num_rows a * num_vectors) ->
     rd vzero vector_y_out' j = rd vzero vector_y_out j) ->
  fst (OmpCsrSpmmT g xt_index' num_threads' a vector_x' vector_y_out'
         num_vectors vector_x_row_major)
  = fst (OmpCsrSpmmT g xt_index num_threads a vector_x vector_y_out
           num_vectors vector_x_row_major).
Proof.
  intros Hlen Hl' Htail.
  destruct (OmpCsrSpmmT_entry g xt_index num_threads a vector_x vector_y_out
              num_vectors vector_x_row_major Hnv Hlen) as [Hl Hentry].
  destruct (OmpCsrSpmmT_entry g xt_index' num_threads' a vector_x' vector_y_out'
              num_vectors vector_x_row_major Hnv ltac:(lia)) as [Hl2 Hentry2].
  apply (rd_ext vzero); [lia|]. intros j Hj.
  destruct (Z_lt_ge_dec j (num_rows a * num_vectors)) as [Hlt|Hge].
  - destruct (entry_index_onto (g_output_row_major g) (num_rows a)
                num_vectors j Hnv ltac:(lia)) as (r & i & Hr & Hi & <-).
    specialize (Hentry r i Hr Hi). specialize (Hentry2 r i Hr Hi).
    unfold result_entry in Hentry, Hentry2.
    rewrite Hentry, Hentry2. rewrite !OmpCsrSpmmT_keeps_operand. reflexivity.
  - rewrite !OmpCsrSpmmT_frame by (try assumption; lia). apply Htail. lia.
Qed.

(** A call on the buffers a call returned returns them again. *)
Lemma OmpCsrSpmmT_again (xt_index xt_index' : Z -> Z)
    (num_threads num_threads' : Z)
    (vector_x vector_x' vector_y_out : list V) :
  num_rows a * num_vectors <= Z.of_nat (length vector_y_out) ->
  let res := OmpCsrSpmmT g xt_index num_threads a vector_x vector_y_out
               num_vectors vector_x_row_major in
  OmpCsrSpmmT g xt_index' num_threads' a vector_x' (fst res) num_vectors (snd res)
  = res.
Proof.
  intros Hlen res.
  assert (Hs : snd res = vector_x_row_major) by apply OmpCsrSpmmT_keeps_operand.
  rewrite Hs. apply injective_projections.
  - apply OmpCsrSpmmT_same_tail; [exact Hlen| |].
    + apply (OmpCsrSpmmT_entry g xt_index num_threads a vector_x vector_y_out
               num_vectors vector_x_row_major Hnv Hlen).
    + intros j Hj. apply OmpCsrSpmmT_frame; assumption.
  - rewrite OmpCsrSpmmT_keeps_operand. symmetry. exact Hs.
Qed.
End RowMajorOperand.

(** X27.  [OmpCsrSpmmT] with a row-major operand stores the same value
    for every pair (row, vector column) under the two output layouts, at
    [row * num_vectors + i] when [g_output_row_major] is set and at
    [row + i * num_rows] when it is not; [vector_x], the number of threads
    and the previous contents of [vector_y_out] have no influence. *)
Theorem OmpCsrSpmmT_output_layouts_agree {V : Type} `{ValueOps V}
    (g g' : globals) (xt_index xt_index' : Z -> Z)
    (num_threads num_threads' : Z) (a : CsrMatrix V)
    (vector_x vector_x' vector_y_out vector_y_out' : list V) (num_vectors : Z)
    (vector_x_row_major : list V) :
  g_input_row_major g = true ->
  g_input_row_major g' = true ->
  0 <= num_vectors ->
  num_rows a * num_vectors <= Z.of_nat (length vector_y_out) ->
  num_rows a * num_vectors <= Z.of_nat (length vector_y_out') ->
  forall r i, 0 <= r < num_rows a -> 0 <= i < num_vectors ->
    result_entry g a num_vectors
      (fst (OmpCsrSpmmT g xt_index num_threads a vector_x vector_y_out
              num_vectors vector_x_row_major)) r i
    = result_entry g' a num_vectors
        (fst (OmpCsrSpmmT g' xt_index' num_threads' a vector_x' vector_y_out'
                num_vectors vector_x_row_major)) r i.
Proof.
  intros Hin Hin' Hnv Hlen Hlen' r i Hr Hi.
  destruct (OmpCsrSpmmT_entry g xt_index num_threads a vector_x vector_y_out
              num_vectors vector_x_row_major Hnv Hlen) as [_ Hg].
  destruct (OmpCsrSpmmT_entry g' xt_index' num_threads' a vector_x'
              vector_y_out' num_vectors vector_x_row_major Hnv Hlen')
    as [_ Hg'].
  rewrite (Hg r i Hr Hi), (Hg' r i Hr Hi).
  rewrite (OmpCsrSpmmT_keeps_operand g a num_vectors vector_x_row_major Hin).
  rewrite (OmpCsrSpmmT_keeps_operand g' a num_vectors vector_x_row_major Hin').
  reflexivity.
Qed.

(** The theorem on the 2 x 2 identity with two vector columns: entry
    (0, 1) is 2 under both layouts, found at index 1 of one buffer and at
    index 2 of the other. *)
Lemma OmpCsrSpmmT_output_layouts_agree_witness :
  fst (OmpCsrSpmmT row_major_both (fun _ => 0) 1 identity2 [] [0; 0; 0; 0] 2
         [1; 2; 3; 4]) = [1; 2; 3; 4] /\
  fst (OmpCsrSpmmT column_major_out (fun _ => 0) 2 identity2 [] [9; 9; 9; 9] 2
         [1; 2; 3; 4]) = [1; 3; 2; 4] /\
  result_entry row_major_both identity2 2
    (fst (OmpCsrSpmmT row_major_both (fun _ => 0) 1 identity2 [] [0; 0; 0; 0] 2
            [1; 2; 3; 4])) 0 1
  = result_entry column_major_out identity2 2
      (fst (OmpCsrSpmmT column_major_out (fun _ => 0) 2 identity2 []
              [9; 9; 9; 9] 2 [1; 2; 3; 4])) 0 1.
Proof.
  split; [vm_compute; reflexivity|]. split; [vm_compute; reflexivity|].
  apply (OmpCsrSpmmT_output_layouts_agree row_major_both column_major_out
           (fun _ => 0) (fun _ => 0) 1 2 identity2 [] [] [0; 0; 0; 0]
           [9; 9; 9; 9] 2 [1; 2; 3; 4]);
    [reflexivity|reflexivity|lia|simpl; lia|simpl; lia|simpl; lia|lia].
Defined.

(** X19.  [OmpCsrSpmmT] with a row-major operand, for any value type and
    either output layout: the operand buffer is returned unchanged; of
    [vector_y_out] the first [num_rows * num_vectors] entries are
    overwritten with values that depend on the matrix and the operand
    only, and the others are returned as given.  So [vector_x], the
    number of threads and the previous contents of the result entries
    have no influence, and a second call changes nothing. *)
Theorem OmpCsrSpmmT_overwrites_result {V : Type} `{ValueOps V} (g : globals)
    (xt_index : Z -> Z) (num_threads : Z) (a : CsrMatrix V)
    (vector_x vector_y_out : list V) (num_vectors : Z)
    (vector_x_row_major : list V) :
  g_input_row_major g = true ->
  0 <= num_vectors ->
  num_rows a * num_vectors <= Z.of_nat (length vector_y_out) ->
  let res := OmpCsrSpmmT g xt_index num_threads a vector_x vector_y_out
               num_vectors vector_x_row_major in
  snd res = vector_x_row_major /\
  length (fst res) = length vector_y_out /\
  (forall j, ~ (0 <= j < num_rows a * num_vectors) ->
     rd vzero (fst res) j = rd vzero vector_y_out j) /\
  (forall xt_index' num_threads' (vector_x' vector_y_out' : list V),
     length vector_y_out' = length vector_y_out ->
     (forall j, ~ (0 <= j < num_rows a * num_vectors) ->
        rd vzero vector_y_out' j = rd vzero vector_y_out j) ->
     fst (OmpCsrSpmmT g xt_index' num_threads' a vector_x' vector_y_out'
            num_vectors vector_x_row_major) = fst res) /\
  OmpCsrSpmmT g xt_index num_threads a vector_x (fst res) num_vectors (snd res)
  = res.
Proof.
  intros Hin Hnv Hlen res.
  split; [apply OmpCsrSpmmT_keeps_operand; exact Hin|].
  split; [apply (OmpCsrSpmmT_entry g xt_index num_threads a vector_x vector_y_out
                   num_vectors vector_x_row_major Hnv Hlen)|].
  split; [intros j Hj; apply OmpCsrSpmmT_frame; assumption|].
  split.
  - intros xt_index' num_threads' vector_x' vector_y_out' Hl' Htail.
    apply OmpCsrSpmmT_same_tail; assumption.
  - apply (OmpCsrSpmmT_again g a num_vectors vector_x_row_major Hin Hnv
             xt_index xt_index num_threads num_threads vector_x vector_x
             vector_y_out Hlen).
Qed.

(** The theorem on [skewed] with a column-major result of two vectors. *)
Lemma OmpCsrSpmmT_overwrites_result_witness :
  fst (OmpCsrSpmmT column_major_out (fun _ => 0) 1 skewed [] [7; 7; 7; 7; 7; 7; 7; 7; 7] 2
         [1; 2; 10; 20; 100; 200])
  = [1; 0; 1277; 900; 2; 0; 2554; 1800; 7] /\
  length (fst (OmpCsrSpmmT column_major_out (fun _ => 0) 1 skewed []
                 [7; 7; 7; 7; 7; 7; 7; 7; 7] 2 [1; 2; 10; 20; 100; 200]))
  = length [7; 7; 7; 7; 7; 7; 7; 7; 7].
Proof.
  split; [vm_compute; reflexivity|].
  apply (OmpCsrSpmmT_overwrites_result column_major_out (fun _ => 0) 1 skewed []
           [7; 7; 7; 7; 7; 7; 7; 7; 7] 2 [1; 2; 10; 20; 100; 200]);
    [reflexivity|lia|simpl; lia].
Defined.

(** ** The merge-path kernel and the buffer it is given *)

Lemma add_carries_ext {V : Type} `{ValueOps V} (s s' : shared) (r i : Z)
    (tids : list Z) :
  (forall t, t ∈ tids ->
     rd 0 (row_carry_out s) t = rd 0 (row_carry_out s') t /\
     rd vzero (rd [] (value_carry_out s) t) i
     = rd vzero (rd [] (value_carry_out s') t) i) ->
  forall start, add_carries s r i tids start = add_carries s' r i tids start.
Proof.
  unfold add_carries. induction tids as [|t tids IH]; intros Hsame start;
    [reflexivity|].
  cbn [foldl]. destruct (Hsame t ltac:(left)) as [-> ->].
  apply IH. intros t' Ht'. apply Hsame. right. exact Ht'.
Qed.

Section MergeBuffers.
Context {V : Type} `{ValueOps V} (a : CsrMatrix V) (Hwf : csr_wf a).
Variables (num_threads num_vectors : Z) (vector_x_row_major : list V).
Hypothesis Hnt : 1 <= num_threads <= 256.
Hypothesis Hnv : 0 <= num_vectors.

Local Abbreviation first_point tid :=
  (merge_point a (start_diagonal num_threads a tid)).
Local Abbreviation end_point tid :=
  (merge_point a (end_diagonal num_threads a tid)).

(** The parallel loop of the merge-path kernel changes no entry outside
    the [num_rows * num_vectors] entries of the result. *)
Lemma merge_parallel_frame (vector_y_out : list V) (s : shared) :
  merge_parallel num_threads a (row_end_offsets_of a) (column_indices a)
    (values a) num_vectors vector_x_row_major (shared_init vector_y_out)
  = Done s ->
  forall j, ~ (0 <= j < num_rows a * num_vectors) ->
    rd vzero (shared_out s) j = rd vzero vector_y_out j.
Proof.
  intros Hrun j Hj. unfold merge_parallel in Hrun.
  destruct (parallel_phase_rows (fun tid => first_point tid)
              (fun tid => end_point tid) num_threads
              (row_end_offsets_of a) (column_indices a) (values a) num_vectors
              vector_x_row_major vector_y_out)
    as (s' & Hrun' & _ & _ & Hframe); [lia|lia| |].
  { intros t t' Ht Ht'.
    apply (end_before_later_start a Hwf num_threads); lia. }
  rewrite (parallel_phase_ext _ (fun tid => Done (first_point tid, end_point tid)))
    in Hrun.
  2:{ intros tid Ht. apply merge_coords_points; [exact Hwf|lia|lia]. }
  rewrite Hrun in Hrun'. injection Hrun' as <-.
  apply Hframe. intros t Ht.
  destruct (thread_points a Hwf num_threads ltac:(lia) t Ht)
    as (Hx & Hxe & _). nia.
Qed.

(** What the kernel returns does not depend on what the result rows of
    [vector_y_out] held, and the entries after them are returned as
    given.  No law of arithmetic is used. *)
Lemma merge_kernel_two_buffers (vector_x vector_x' vector_y_out vector_y_out' : list V) :
  num_rows a * num_vectors <= Z.of_nat (length vector_y_out) ->
  num_rows a * num_vectors <= Z.of_nat (length vector_y_out') ->
  exists out out',
    TestOmpMergeCsrmm_call num_threads a vector_x vector_y_out num_vectors
      vector_x_row_major = Done out /\
    TestOmpMergeCsrmm_call num_threads a vector_x' vector_y_out' num_vectors
      vector_x_row_major = Done out' /\
    length out = length vector_y_out /\
    length out' = length vector_y_out' /\
    (forall j, 0 <= j < num_rows a * num_vectors ->
       rd vzero out j = rd vzero out' j) /\
    (forall j, ~ (0 <= j < num_rows a * num_vectors) ->
       rd vzero out j = rd vzero vector_y_out j /\
       rd vzero out' j = rd vzero vector_y_out' j).
Proof.
  intros Hlen Hlen'. unfold TestOmpMergeCsrmm_call, OmpMergeCsrmm.
  destruct (merge_parallel_state a Hwf num_threads num_vectors vector_x_row_major
              Hnt Hnv vector_y_out Hlen) as (s & Hrun & Hl & Hrows & Hcar).
  destruct (merge_parallel_state a Hwf num_threads num_vectors vector_x_row_major
              Hnt Hnv vector_y_out' Hlen') as (s' & Hrun' & Hl' & Hrows' & Hcar').
  pose proof (merge_parallel_frame vector_y_out s Hrun) as Hfr.
  pose proof (merge_parallel_frame vector_y_out' s' Hrun') as Hfr'.
  rewrite Hrun, Hrun'. simpl.
  destruct (carry_fixup_applies num_threads a num_vectors s)
    as (out & Hfix & Hlo & Happ & Hrest); [lia|lia|lia|].
  destruct (carry_fixup_applies num_threads a num_vectors s')
    as (out' & Hfix' & Hlo' & Happ' & Hrest'); [lia|lia|lia|].
  exists out, out'. split; [exact Hfix|]. split; [exact Hfix'|].
  split; [lia|]. split; [lia|]. split.
  - intros j Hj.
    assert (Hnv1 : 0 < num_vectors).
    { destruct (Z.eq_dec num_vectors 0) as [Hz|Hnz]; [|lia].
      rewrite Hz, Z.mul_0_r in Hj. lia. }
    pose proof (Z.div_mod j num_vectors ltac:(lia)) as Hdm.
    pose proof (Z.mod_pos_bound j num_vectors Hnv1) as Hm.
    set (r := j / num_vectors) in *. set (i := j mod num_vectors) in *.
    assert (Hr : 0 <= r < num_rows a).
    { subst r. split; [apply Z.div_pos; lia|].
      apply Z.div_lt_upper_bound; lia. }
    replace j with (r * num_vectors + i) by lia.
    rewrite Happ, Happ' by lia.
    destruct (chained_covered_once num_threads (num_rows a)
                (merge_first_row num_threads a) (merge_end_row num_threads a)
                ltac:(lia) (merge_rows_chained a Hwf num_threads ltac:(lia)) r Hr)
      as (owner & (Hown & Hrange) & _).
    unfold merge_first_row, merge_end_row in Hrange.
    rewrite (Hrows owner r i), (Hrows' owner r i) by (auto; lia).
    apply add_carries_ext. intros t Ht. apply elem_of_seqZ in Ht.
    destruct (Hcar t i ltac:(lia) ltac:(lia)) as [-> ->].
    destruct (Hcar' t i ltac:(lia) ltac:(lia)) as [-> ->].
    split; reflexivity.
  - intros j Hj. split.
    + rewrite Hrest by exact Hj. apply Hfr. exact Hj.
    + rewrite Hrest' by exact Hj. apply Hfr'. exact Hj.
Qed.

(** Running the kernel on its own result gives that result again. *)
Lemma merge_kernel_again (vector_x vector_x' vector_y_out out : list V) :
  num_rows a * num_vectors <= Z.of_nat (length vector_y_out) ->
  TestOmpMergeCsrmm_call num_threads a vector_x vector_y_out num_vectors
    vector_x_row_major = Done out ->
  TestOmpMergeCsrmm_call num_threads a vector_x' out num_vectors
    vector_x_row_major = Done out.
Proof.
  intros Hlen Hrun.
  destruct (merge_kernel_two_buffers vector_x vector_x' vector_y_out vector_y_out)
    as (o1 & o1' & Hr1 & _ & Hl1 & _); [lia|lia|].
  rewrite Hrun in Hr1. injection Hr1 as <-.
  destruct (merge_kernel_two_buffers vector_x vector_x' vector_y_out out)
    as (o & o' & Hr & Hr' & Hl & Hl' & Hrows & Hrest); [lia|lia|].
  rewrite Hrun in Hr. injection Hr as Ho. subst o.
  rewrite Hr'. f_equal. apply (rd_ext vzero); [lia|].
  intros j Hj.
  destruct (Z_lt_ge_dec j (num_rows a * num_vectors)) as [Hin|Hout].
  - symmetry. apply Hrows. lia.
  - apply Hrest. lia.
Qed.
End MergeBuffers.

(** The merge-path kernel on two buffers of one length that agree after
    the result entries. *)
Lemma merge_kernel_same_tail {V : Type} `{ValueOps V} (a : CsrMatrix V)
    (num_threads num_vectors : Z)
    (vector_x vector_x' vector_y_out vector_y_out' vector_x_row_major out : list V) :
  csr_wf a ->
  1 <= num_threads <= 256 ->
  0 <= num_vectors ->
  num_rows a * num_vectors <= Z.of_nat (length vector_y_out) ->
  length vector_y_out' = length vector_y_out ->
  (forall j, ~ (0 <= j < num_rows a * num_vectors) ->
     rd vzero vector_y_out' j = rd vzero vector_y_out j) ->
  TestOmpMergeCsrmm_call num_threads a vector_x vector_y_out num_vectors
    vector_x_row_major = Done out ->
  TestOmpMergeCsrmm_call num_threads a vector_x' vector_y_out' num_vectors
    vector_x_row_major = Done out.
Proof.
  intros Hwf Hnt Hnv Hlen Hl' Htail Hrun.
  destruct (merge_kernel_two_buffers a Hwf num_threads num_vectors
              vector_x_row_major Hnt Hnv vector_x vector_x' vector_y_out
              vector_y_out')
    as (o & o' & Hr & Hr' & Hlo & Hlo' & Hrows & Hrest'); [lia|lia|].
  rewrite Hrun in Hr. injection Hr as Ho. subst o.
  rewrite Hr'. f_equal. apply (rd_ext vzero); [lia|].
  intros j Hj.
  destruct (Z_lt_ge_dec j (num_rows a * num_vectors)) as [Hin|Hout].
  - symmetry. apply Hrows. lia.
  - destruct (Hrest' j ltac:(lia)) as [-> ->]. apply Htail. lia.
Qed.

(** X3.  On a well-formed matrix, with 1 to 256 threads and for any value
    type, what the merge-path kernel returns is fixed by the matrix, the
    row-major operand and the entries of [vector_y_out] after the
    [num_rows * num_vectors] result entries, which it returns as given:
    neither [vector_x] nor the previous contents of the result entries
    have any influence.  In particular, running the kernel again on its
    own result returns that result. *)
Theorem merge_kernel_idempotent {V : Type} `{ValueOps V} (a : CsrMatrix V)
    (num_threads num_vectors : Z)
    (vector_x vector_y_out vector_x_row_major : list V) :
  csr_wf a ->
  1 <= num_threads <= 256 ->
  0 <= num_vectors ->
  num_rows a * num_vectors <= Z.of_nat (length vector_y_out) ->
  exists out,
    TestOmpMergeCsrmm_call num_threads a vector_x vector_y_out num_vectors
      vector_x_row_major = Done out /\
    length out = length vector_y_out /\
    (forall j, ~ (0 <= j < num_rows a * num_vectors) ->
       rd vzero out j = rd vzero vector_y_out j) /\
    (forall vector_x' vector_y_out' : list V,
       length vector_y_out' = length vector_y_out ->
       (forall j, ~ (0 <= j < num_rows a * num_vectors) ->
          rd vzero vector_y_out' j = rd vzero vector_y_out j) ->
       TestOmpMergeCsrmm_call num_threads a vector_x' vector_y_out' num_vectors
         vector_x_row_major = Done out) /\
    TestOmpMergeCsrmm_call num_threads a vector_x out num_vectors
      vector_x_row_major = Done out.
Proof.
  intros Hwf Hnt Hnv Hlen.
  destruct (merge_kernel_two_buffers a Hwf num_threads num_vectors
              vector_x_row_major Hnt Hnv vector_x vector_x vector_y_out
              vector_y_out) as (out0 & out & _ & Hrun & _ & Hl & _ & Hrest);
    [lia|lia|].
  exists out. split; [exact Hrun|]. split; [exact Hl|].
  split; [intros j Hj; apply Hrest; exact Hj|]. split.
  - intros vector_x' vector_y_out' Hl' Htail.
    destruct (merge_kernel_two_buffers a Hwf num_threads num_vectors
                vector_x_row_major Hnt Hnv vector_x vector_x' vector_y_out
                vector_y_out')
      as (o & o' & Hr & Hr' & Hlo & Hlo' & Hrows & Hrest'); [lia|lia|].
    rewrite Hrun in Hr. injection Hr as Ho. subst o.
    rewrite Hr'. f_equal. apply (rd_ext vzero); [lia|].
    intros j Hj.
    destruct (Z_lt_ge_dec j (num_rows a * num_vectors)) as [Hin|Hout].
    + symmetry. apply Hrows. lia.
    + destruct (Hrest' j ltac:(lia)) as [-> ->]. apply Htail. lia.
  - apply (merge_kernel_again a Hwf num_threads num_vectors vector_x_row_major
             Hnt Hnv vector_x vector_x vector_y_out out Hlen Hrun).
Qed.

(** The theorem on [skewed] with 4 threads. *)
Lemma merge_kernel_idempotent_witness :
  exists out,
    TestOmpMergeCsrmm_call 4 skewed [1; 10; 100] [-1; -1; -1; -1] 1 [1; 10; 100]
    = Done out /\
    TestOmpMergeCsrmm_call 4 skewed [1; 10; 100] out 1 [1; 10; 100] = Done out.
Proof.
  destruct (merge_kernel_idempotent skewed 4 1 [1; 10; 100] [-1; -1; -1; -1]
              [1; 10; 100]) as (out & Hrun & _ & _ & _ & Hagain);
    [csr_wf_by_check|lia|lia|simpl; lia|].
  exists out. split; [exact Hrun|exact Hagain].
Defined.

(** X1.  In exact arithmetic, on a well-formed matrix and with 1 to 256
    threads, every entry [(r, i)] of the merge-path kernel's result is the
    sum of [values[k] * vector_x_row_major[column_indices[k] * num_vectors
    + i]] over the entries [k] of row [r], and the row-parallel kernel
    with row-major operand and result leaves the same value at the same
    place. *)
Theorem merge_kernel_matches_row_parallel {V : Type} `{ValueOps V}
    (a : CsrMatrix V) (num_threads num_threads' : Z) (xt_index : Z -> Z)
    (num_vectors : Z)
    (vector_x vector_y_out vector_y_out' vector_x_row_major : list V) :
  semi_ring_theory (vzero : V) vone vadd vmul eq ->
  csr_wf a ->
  1 <= num_threads <= 256 ->
  0 <= num_vectors ->
  num_rows a * num_vectors <= Z.of_nat (length vector_y_out) ->
  num_rows a * num_vectors <= Z.of_nat (length vector_y_out') ->
  exists out,
    TestOmpMergeCsrmm_call num_threads a vector_x vector_y_out num_vectors
      vector_x_row_major = Done out /\
    forall r i, 0 <= r < num_rows a -> 0 <= i < num_vectors ->
      rd vzero out (r * num_vectors + i)
      = column_sum (column_indices a) (values a) vector_x_row_major num_vectors
          i (rd 0 (row_offsets a) r) (rd 0 (row_offsets a) (r + 1)) vzero /\
      rd vzero out (r * num_vectors + i)
      = rd vzero
          (fst (OmpCsrSpmmT row_major_both xt_index num_threads' a vector_x
                  vector_y_out' num_vectors vector_x_row_major))
          (r * num_vectors + i).
Proof.
  intros Vsrt Hwf Hnt Hnv Hlen Hlen'.
  destruct (merge_kernel_row_sums Vsrt a Hwf num_threads num_vectors
              vector_x_row_major Hnt Hnv vector_x vector_y_out Hlen)
    as (out & Hrun & _ & Hsum).
  exists out. split; [exact Hrun|]. intros r i Hr Hi.
  split; [apply Hsum; assumption|].
  destruct (OmpCsrSpmmT_entry row_major_both xt_index num_threads' a vector_x
              vector_y_out' num_vectors vector_x_row_major Hnv Hlen')
    as [_ Hentry].
  specialize (Hentry r i Hr Hi). unfold result_entry, entry_index in Hentry.
  cbn [g_output_row_major row_major_both] in Hentry.
  rewrite Hentry, (Hsum r i Hr Hi). reflexivity.
Qed.

(** The theorem on [skewed] over the integers with two vector columns. *)
Lemma merge_kernel_matches_row_parallel_witness :
  exists out,
    TestOmpMergeCsrmm_call 3 skewed [] [0; 0; 0; 0; 0; 0; 0; 0] 2
      [1; 2; 10; 20; 100; 200] = Done out /\
    forall r i, 0 <= r < num_rows skewed -> 0 <= i < 2 ->
      rd 0 out (r * 2 + i)
      = rd 0 (fst (OmpCsrSpmmT row_major_both (fun _ => 0) 1 skewed []
                     [7; 7; 7; 7; 7; 7; 7; 7] 2 [1; 2; 10; 20; 100; 200]))
             (r * 2 + i).
Proof.
  destruct (merge_kernel_matches_row_parallel skewed 3 1 (fun _ => 0) 2 []
              [0; 0; 0; 0; 0; 0; 0; 0] [7; 7; 7; 7; 7; 7; 7; 7]
              [1; 2; 10; 20; 100; 200] Z_semi_ring)
    as (out & Hrun & Hsame); [csr_wf_by_check|lia|lia|simpl; lia|simpl; lia|].
  exists out. split; [exact Hrun|]. intros r i Hr Hi.
  apply (Hsame r i Hr Hi).
Defined.

(** A segment that ends where it starts stores nothing and carries
    zeros. *)
Lemma consume_segment_empty {V : Type} `{ValueOps V} (row_end_offsets : ptr)
    (column_indices : list Z) (values : list V) (vector_x_row_major : list V)
    (num_vectors : Z) (c : int2.t) (vector_y_out : list V) :
  consume_segment row_end_offsets column_indices values vector_x_row_major
    num_vectors c c vector_y_out
  = {| walk_y := int2.y c; running_total := zeros num_vectors;
       walk_out := vector_y_out |}.
Proof.
  unfold consume_segment. rewrite (for_loop_nil (int2.x c)) by lia.
  cbn [walk_y running_total walk_out].
  rewrite for_loop_nil by lia. rewrite Z.max_id. reflexivity.
Qed.

(** X10.  In the merge-path kernel on a well-formed matrix, a thread whose
    share starts at or after the last merge item
    ([items_per_thread * tid >= num_rows + num_nonzeros]; there are such
    threads whenever there are more threads than merge items) gets the
    end of the path [(num_rows, num_nonzeros)] as both its coordinates:
    it stores no row, its carry-out is all zeros, and the row index it
    records, [num_rows], fails the test [row_carry_out[tid] < a.num_rows]
    of the fix-up. *)
Theorem merge_surplus_thread_idle {V : Type} `{ValueOps V} (a : CsrMatrix V)
    (num_threads tid num_vectors : Z) (vector_x_row_major vector_y_out : list V) :
  csr_wf a ->
  1 <= num_threads ->
  num_rows a + num_nonzeros a <= merge_items_per_thread num_threads a * tid ->
  let path_end := {| int2.x := num_rows a; int2.y := num_nonzeros a |} in
  merge_coords num_threads a (row_end_offsets_of a) tid
  = Done (path_end, path_end) /\
  consume_segment (row_end_offsets_of a) (column_indices a) (values a)
    vector_x_row_major num_vectors path_end path_end vector_y_out
  = {| walk_y := num_nonzeros a; running_total := zeros num_vectors;
       walk_out := vector_y_out |} /\
  (int2.x path_end <? num_rows a) = false.
Proof.
  intros Hwf Hnt Htid path_end.
  pose proof (wf_rows a Hwf) as Hrows.
  pose proof (row_offsets_range a Hwf (num_rows a) ltac:(lia)) as Hnnz.
  rewrite (wf_last a Hwf) in Hnnz.
  assert (Hper : 0 <= merge_items_per_thread num_threads a).
  { unfold merge_items_per_thread. rewrite Z.quot_div_nonneg by lia.
    apply Z.div_pos; lia. }
  assert (Hs : start_diagonal num_threads a tid = num_rows a + num_nonzeros a).
  { unfold start_diagonal. lia. }
  assert (He : end_diagonal num_threads a tid = num_rows a + num_nonzeros a).
  { unfold end_diagonal. rewrite Hs. lia. }
  split; [|split].
  - unfold merge_coords. rewrite Hs, He.
    rewrite MergePathSearch_past_end by lia. reflexivity.
  - apply consume_segment_empty.
  - apply Z.ltb_ge. simpl. lia.
Qed.

(** On [skewed], 13 merge items, with 17 threads: thread 15. *)
Lemma merge_surplus_thread_idle_witness :
  merge_coords 17 skewed (row_end_offsets_of skewed) 15
  = Done ({| int2.x := 4; int2.y := 9 |}, {| int2.x := 4; int2.y := 9 |}).
Proof.
  apply (merge_surplus_thread_idle skewed 17 15 1 [1; 10; 100] [0; 0; 0; 0]);
    [csr_wf_by_check|lia|vm_compute; intros Hc; discriminate Hc].
Defined.

(** X11.  In the merge-path kernel on a well-formed matrix the threads'
    ranges of entries [[thread_coord.y, thread_coord_end.y)] follow one
    another from 0 to [num_nonzeros], so every entry of the matrix lies in
    the range of exactly one thread; and a thread leaves its segment with
    [thread_coord.y] equal to [thread_coord_end.y]. *)
Theorem merge_threads_partition_entries {V : Type} `{ValueOps V}
    (a : CsrMatrix V) (num_threads : Z) :
  csr_wf a ->
  1 <= num_threads ->
  chained num_threads (num_nonzeros a)
    (fun tid => int2.y (merge_point a (start_diagonal num_threads a tid)))
    (fun tid => int2.y (merge_point a (end_diagonal num_threads a tid))) /\
  covered_once num_threads (num_nonzeros a)
    (fun tid => int2.y (merge_point a (start_diagonal num_threads a tid)))
    (fun tid => int2.y (merge_point a (end_diagonal num_threads a tid))) /\
  forall tid num_vectors (vector_x_row_major vector_y_out : list V),
    0 <= tid < num_threads -> 0 <= num_vectors ->
    walk_y (consume_segment (row_end_offsets_of a) (column_indices a) (values a)
              vector_x_row_major num_vectors
              (merge_point a (start_diagonal num_threads a tid))
              (merge_point a (end_diagonal num_threads a tid)) vector_y_out)
    = int2.y (merge_point a (end_diagonal num_threads a tid)).
Proof.
  intros Hwf Hnt.
  pose proof (wf_rows a Hwf) as Hrows.
  pose proof (row_offsets_range a Hwf (num_rows a) ltac:(lia)) as Hnnz.
  rewrite (wf_last a Hwf) in Hnnz.
  assert (Hch : chained num_threads (num_nonzeros a)
    (fun tid => int2.y (merge_point a (start_diagonal num_threads a tid)))
    (fun tid => int2.y (merge_point a (end_diagonal num_threads a tid)))).
  { split; [|split; [|split]].
    - rewrite (first_thread_start a Hwf num_threads Hnt). reflexivity.
    - destruct (even_split_chained num_threads (num_rows a + num_nonzeros a))
        as (_ & Hlast & _); [lia|lia|].
      change (end_diagonal num_threads a (num_threads - 1)
              = num_rows a + num_nonzeros a) in Hlast.
      rewrite Hlast.
      destruct (merge_point_spec a Hwf (num_rows a + num_nonzeros a))
        as (_ & Hsum & Hr & _); lia.
    - intros t Ht.
      destruct (thread_points a Hwf num_threads Hnt t Ht) as (_ & _ & Hy & _).
      lia.
    - intros t Ht. cbv beta.
      rewrite (end_is_next_start a Hwf num_threads Hnt t Ht). reflexivity. }
  split; [exact Hch|]. split; [apply chained_covered_once; assumption|].
  intros tid num_vectors vector_x_row_major vector_y_out Ht Hnv.
  destruct (thread_points a Hwf num_threads Hnt tid Ht)
    as (Hx & Hxe & Hy & Hye & Hlo & Hhi & Helo & Hehi).
  unfold consume_segment. cbn [walk_y].
  destruct (consume_rows_spec (row_end_offsets_of a) (column_indices a) (values a)
              vector_x_row_major num_vectors Hnv
              (merge_point a (start_diagonal num_threads a tid))
              (int2.x (merge_point a (end_diagonal num_threads a tid)))
              vector_y_out ltac:(lia)) as (Hwy & _).
  cbv zeta in Hwy. rewrite Hwy.
  rewrite (row_resume_merge a Hwf) by lia. lia.
Qed.

(** On [skewed] with 4 threads the ranges of entries are [0,2), [2,6),
    [6,9), [9,9). *)
Lemma merge_threads_partition_entries_witness :
  chained 4 (num_nonzeros skewed)
    (fun tid => int2.y (merge_point skewed (start_diagonal 4 skewed tid)))
    (fun tid => int2.y (merge_point skewed (end_diagonal 4 skewed tid))) /\
  map (fun tid => (int2.y (merge_point skewed (start_diagonal 4 skewed tid)),
                   int2.y (merge_point skewed (end_diagonal 4 skewed tid))))
      [0; 1; 2; 3]
  = [(0, 2); (2, 6); (6, 9); (9, 9)].
Proof.
  split; [|reflexivity].
  apply (merge_threads_partition_entries skewed 4); [csr_wf_by_check|lia].
Defined.

(** X26.  The merge-path kernel balances rows and entries together: on a
    well-formed matrix, the segment of every thread runs forwards in both
    coordinates and covers at most [items_per_thread] merge items, rows
    and entries counted together, where [items_per_thread] is
    [(num_rows + num_nonzeros)] divided by [num_threads], rounded up. *)
Theorem merge_segments_balanced {V : Type} (a : CsrMatrix V)
    (num_threads tid : Z) :
  csr_wf a ->
  1 <= num_threads ->
  0 <= tid < num_threads ->
  let c := merge_point a (start_diagonal num_threads a tid) in
  let ce := merge_point a (end_diagonal num_threads a tid) in
  merge_coords num_threads a (row_end_offsets_of a) tid = Done (c, ce) /\
  0 <= int2.x ce - int2.x c /\ 0 <= int2.y ce - int2.y c /\
  (int2.x ce - int2.x c) + (int2.y ce - int2.y c)
  <= merge_items_per_thread num_threads a /\
  (merge_items_per_thread num_threads a - 1) * num_threads
  < num_rows a + num_nonzeros a
  <= merge_items_per_thread num_threads a * num_threads.
Proof.
  intros Hwf Hnt Ht c ce. subst c ce.
  pose proof (wf_rows a Hwf) as Hrows.
  pose proof (row_offsets_range a Hwf (num_rows a) ltac:(lia)) as Hnnz.
  rewrite (wf_last a Hwf) in Hnnz.
  destruct (diagonals_in_range a Hwf num_threads tid Hnt ltac:(lia))
    as (Hs & He & Hse).
  destruct (merge_point_spec a Hwf _ Hs) as (_ & Hsum & _).
  destruct (merge_point_spec a Hwf _ He) as (_ & Hsum' & _).
  destruct (thread_points a Hwf num_threads Hnt tid Ht)
    as (Hx & _ & Hy & _).
  split; [apply merge_coords_points; [exact Hwf|lia|lia]|].
  split; [lia|]. split; [lia|]. split.
  - assert (end_diagonal num_threads a tid
            <= start_diagonal num_threads a tid
               + merge_items_per_thread num_threads a).
    { unfold end_diagonal. lia. }
    lia.
  - unfold merge_items_per_thread. rewrite Z.quot_div_nonneg by lia.
    pose proof (Z.div_mod (num_rows a + num_nonzeros a + num_threads - 1)
                  num_threads ltac:(lia)) as Hdm.
    pose proof (Z.mod_pos_bound (num_rows a + num_nonzeros a + num_threads - 1)
                  num_threads ltac:(lia)) as Hm.
    nia.
Qed.

(** On [skewed], 13 merge items, with 4 threads: 4 items per thread, and
    thread 1 gets four entries of row 2 and no row end. *)
Lemma merge_segments_balanced_witness :
  merge_items_per_thread 4 skewed = 4 /\
  merge_coords 4 skewed (row_end_offsets_of skewed) 1
  = Done ({| int2.x := 2; int2.y := 2 |}, {| int2.x := 2; int2.y := 6 |}) /\
  (int2.x (merge_point skewed (end_diagonal 4 skewed 1))
   - int2.x (merge_point skewed (start_diagonal 4 skewed 1)))
  + (int2.y (merge_point skewed (end_diagonal 4 skewed 1))
     - int2.y (merge_point skewed (start_diagonal 4 skewed 1)))
  <= merge_items_per_thread 4 skewed.
Proof.
  split; [reflexivity|]. split; [reflexivity|].
  apply (merge_segments_balanced skewed 4 1); [csr_wf_by_check|lia|lia].
Defined.

(** ** The nonzero-split kernel beyond its last stored row *)

(** The nonzero-split kernel changes no entry outside the
    [num_rows * num_vectors] entries of the result. *)
Lemma nonzero_kernel_frame {V : Type} `{ValueOps V} (a : CsrMatrix V)
    (num_threads num_vectors : Z)
    (vector_x vector_y_out vector_x_row_major : list V) :
  csr_wf a ->
  1 <= num_threads <= 256 ->
  0 <= num_vectors ->
  num_rows a * num_vectors <= Z.of_nat (length vector_y_out) ->
  exists out,
    TestOmpNonzeroSplitCsrmm_call num_threads a vector_x vector_y_out
      num_vectors vector_x_row_major = Done out /\
    length out = length vector_y_out /\
    forall j, ~ (0 <= j < num_rows a * num_vectors) ->
      rd vzero out j = rd vzero vector_y_out j.
Proof.
  intros Hwf Hnt Hnv Hlen.
  set (cs := fun tid => {| int2.x := row_of_position a (thread_coord_y num_threads a tid);
                           int2.y := thread_coord_y num_threads a tid |}).
  set (ces := fun tid =>
                {| int2.x := row_of_position a (thread_coord_end_y num_threads a tid);
                   int2.y := thread_coord_end_y num_threads a tid |}).
  assert (Hcoords : forall tid, 0 <= tid < num_threads ->
            nonzero_coords num_threads a (row_end_offsets_of a) tid
            = Done (cs tid, ces tid)).
  { intros tid Ht. unfold nonzero_coords.
    destruct (row_of_position_spec a Hwf (thread_coord_y num_threads a tid))
      as [-> _].
    destruct (row_of_position_spec a Hwf (thread_coord_end_y num_threads a tid))
      as [-> _]. reflexivity. }
  destruct (parallel_phase_rows cs ces num_threads (row_end_offsets_of a)
              (column_indices a) (values a) num_vectors vector_x_row_major
              vector_y_out) as (s & Hrun & Hl & _ & Hframe); [lia|lia| |].
  { intros t t' Ht Ht'. unfold cs, ces. cbn [int2.x].
    apply (row_of_position_mono a Hwf). apply (nonzero_positions a Hwf); lia. }
  unfold TestOmpNonzeroSplitCsrmm_call, OmpNonzeroSplitCsrmm, nonzero_parallel.
  rewrite (parallel_phase_ext _ (fun tid => Done (cs tid, ces tid)))
    by exact Hcoords.
  rewrite Hrun. simpl.
  destruct (carry_fixup_applies num_threads a num_vectors s)
    as (out & Hfix & Hlo & _ & Hrest); [lia|lia|lia|].
  exists out. split; [exact Hfix|]. split; [lia|].
  intros j Hj. rewrite Hrest by exact Hj. apply Hframe.
  intros t Ht. unfold cs, ces. cbn [int2.x].
  destruct (row_of_position_spec a Hwf (thread_coord_y num_threads a t))
    as (_ & Hr & _).
  destruct (row_of_position_spec a Hwf (thread_coord_end_y num_threads a t))
    as (_ & Hr' & _).
  nia.
Qed.

Lemma add_carries_none {V : Type} `{ValueOps V} (s : shared) (r i : Z)
    (tids : list Z) (start : V) :
  (forall t, t ∈ tids -> rd 0 (row_carry_out s) t <> r) ->
  add_carries s r i tids start = start.
Proof.
  unfold add_carries. revert start.
  induction tids as [|t tids IH]; intros start Hnone; [reflexivity|].
  cbn [foldl]. destruct (Z.eqb_spec (rd 0 (row_carry_out s) t) r) as [Heq|Hne].
  - exfalso. apply (Hnone t); [left|exact Heq].
  - apply IH. intros t' Ht'. apply Hnone. right. exact Ht'.
Qed.

Section NonzeroSplitCalls.
Context {V : Type} `{ValueOps V} (a : CsrMatrix V) (Hwf : csr_wf a).
Variables (num_threads num_vectors : Z) (vector_x_row_major : list V).
Hypothesis Hnt : 1 <= num_threads <= 256.
Hypothesis Hnv : 0 <= num_vectors.

Local Abbreviation R := (row_of_position a (num_nonzeros a)).

Lemma nonzero_coords_points (tid : Z) :
  nonzero_coords num_threads a (row_end_offsets_of a) tid
  = Done (nonzero_first_point num_threads a tid,
          nonzero_end_point num_threads a tid).
Proof.
  unfold nonzero_coords, nonzero_first_point, nonzero_end_point.
  destruct (row_of_position_spec a Hwf (thread_coord_y num_threads a tid))
    as [-> _].
  destruct (row_of_position_spec a Hwf (thread_coord_end_y num_threads a tid))
    as [-> _]. reflexivity.
Qed.

(** No thread ends after row [R]. *)
Lemma nonzero_end_rows (tid : Z) :
  0 <= int2.x (nonzero_first_point num_threads a tid) /\
  int2.x (nonzero_end_point num_threads a tid) <= R.
Proof.
  unfold nonzero_first_point, nonzero_end_point. cbn [int2.x]. split.
  - apply (row_of_position_spec a Hwf).
  - apply (row_of_position_mono a Hwf). unfold thread_coord_end_y. lia.
Qed.

(** The state in which the parallel loop ends: the carry-outs depend on
    the coordinates only, and the rows from [R] on are as the caller
    passed them. *)
Lemma nonzero_parallel_state (vector_y_out : list V) :
  exists s,
    nonzero_parallel num_threads a (row_end_offsets_of a) (column_indices a)
      (values a) num_vectors vector_x_row_major (shared_init vector_y_out)
    = Done s /\
    length (shared_out s) = length vector_y_out /\
    (forall j, ~ (0 <= j < R * num_vectors) ->
       rd vzero (shared_out s) j = rd vzero vector_y_out j) /\
    (forall t, 0 <= t < num_threads ->
       rd 0 (row_carry_out s) t = int2.x (nonzero_end_point num_threads a t) /\
       forall i, 0 <= i < num_vectors ->
         rd vzero (rd [] (value_carry_out s) t) i
         = column_sum (column_indices a) (values a) vector_x_row_major
             num_vectors i
             (partial_start (row_end_offsets_of a)
                (nonzero_first_point num_threads a t)
                (nonzero_end_point num_threads a t))
             (int2.y (nonzero_end_point num_threads a t)) vzero).
Proof.
  unfold nonzero_parallel.
  destruct (parallel_phase_records
              (nonzero_coords num_threads a (row_end_offsets_of a)) num_threads
              (row_end_offsets_of a) (column_indices a) (values a) num_vectors
              vector_x_row_major vector_y_out)
    as (s & Hrun & Hrec & Hl); [lia|lia| |].
  { intros tid Ht. rewrite nonzero_coords_points. eauto. }
  destruct (parallel_phase_rows (nonzero_first_point num_threads a)
              (nonzero_end_point num_threads a) num_threads
              (row_end_offsets_of a) (column_indices a) (values a) num_vectors
              vector_x_row_major vector_y_out)
    as (s' & Hrun' & _ & _ & Hframe); [lia|lia| |].
  { intros t t' Ht Ht'. unfold nonzero_first_point, nonzero_end_point.
    cbn [int2.x].
    apply (row_of_position_mono a Hwf). apply (nonzero_positions a Hwf); lia. }
  rewrite (parallel_phase_ext _
             (fun tid => Done (nonzero_first_point num_threads a tid,
                               nonzero_end_point num_threads a tid)))
    in Hrun by (intros tid _; apply nonzero_coords_points).
  rewrite Hrun in Hrun'. injection Hrun' as Hs. subst s'.
  rewrite (parallel_phase_ext _
             (fun tid => Done (nonzero_first_point num_threads a tid,
                               nonzero_end_point num_threads a tid)))
    by (intros tid _; apply nonzero_coords_points).
  exists s. split; [exact Hrun|]. split; [exact Hl|]. split.
  - intros j Hj. apply Hframe. intros t Ht.
    destruct (nonzero_end_rows t) as [Hlo Hhi]. nia.
  - intros t Ht. destruct (Hrec t Ht) as (c & ce & Hc & Hrow & _ & Hval).
    rewrite nonzero_coords_points in Hc. injection Hc as Hc1 Hc2. subst c ce.
    split; [exact Hrow|exact Hval].
Qed.

(** One call: every row from [R] on gets the carry-outs recorded for it
    added to what it held, and rows after [R] get none. *)
Lemma nonzero_call_rows_from_R (s0 : shared) (vector_x vector_y_out0 vector_y_out : list V) :
  nonzero_parallel num_threads a (row_end_offsets_of a) (column_indices a)
    (values a) num_vectors vector_x_row_major (shared_init vector_y_out0)
  = Done s0 ->
  num_rows a * num_vectors <= Z.of_nat (length vector_y_out) ->
  exists out,
    TestOmpNonzeroSplitCsrmm_call num_threads a vector_x vector_y_out
      num_vectors vector_x_row_major = Done out /\
    length out = length vector_y_out /\
    (forall r i, R <= r < num_rows a -> 0 <= i < num_vectors ->
       rd vzero out (r * num_vectors + i)
       = add_carries s0 r i (seqZ 0 (num_threads - 1))
           (rd vzero vector_y_out (r * num_vectors + i))) /\
    (forall r i, R < r < num_rows a -> 0 <= i < num_vectors ->
       rd vzero out (r * num_vectors + i)
       = rd vzero vector_y_out (r * num_vectors + i)).
Proof.
  intros Hrun0 Hlen.
  destruct (nonzero_parallel_state vector_y_out0) as (s0' & Hrun0' & _ & _ & Hcar0).
  rewrite Hrun0 in Hrun0'. injection Hrun0' as Hs. subst s0'.
  destruct (nonzero_parallel_state vector_y_out) as (s & Hrun & Hl & Hframe & Hcar).
  unfold TestOmpNonzeroSplitCsrmm_call, OmpNonzeroSplitCsrmm.
  rewrite Hrun. simpl.
  destruct (carry_fixup_applies num_threads a num_vectors s)
    as (out & Hfix & Hlo & Happ & _); [lia|lia|lia|].
  exists out. split; [exact Hfix|]. split; [lia|].
  assert (Hfrom : forall r i, R <= r < num_rows a -> 0 <= i < num_vectors ->
            rd vzero out (r * num_vectors + i)
            = add_carries s r i (seqZ 0 (num_threads - 1))
                (rd vzero vector_y_out (r * num_vectors + i))).
  { intros r i Hr Hi. rewrite Happ by (pose proof (row_of_position_spec a Hwf
      (num_nonzeros a)); lia).
    rewrite Hframe by nia. reflexivity. }
  split.
  - intros r i Hr Hi. rewrite Hfrom by assumption.
    apply add_carries_ext. intros t Ht. apply elem_of_seqZ in Ht.
    destruct (Hcar t ltac:(lia)) as [-> Hv].
    destruct (Hcar0 t ltac:(lia)) as [-> Hv0].
    split; [reflexivity|]. rewrite (Hv i Hi), (Hv0 i Hi). reflexivity.
  - intros r i Hr Hi. rewrite Hfrom by (try assumption; lia).
    apply add_carries_none. intros t Ht. apply elem_of_seqZ in Ht.
    destruct (Hcar t ltac:(lia)) as [-> _].
    destruct (nonzero_end_rows t) as [_ Hhi]. lia.
Qed.
End NonzeroSplitCalls.

(** X6.  In the nonzero-split kernel on a well-formed matrix, the rows
    after the row [R] in which the last thread ends hold no entry, and the
    kernel returns their entries of [vector_y_out] exactly as they were
    passed in: no thread stores them and no carry-out is added to
    them. *)
Theorem nonzero_split_rows_after_last_entry {V : Type} `{ValueOps V}
    (a : CsrMatrix V) (num_threads num_vectors : Z)
    (vector_x vector_y_out vector_x_row_major : list V) :
  csr_wf a ->
  1 <= num_threads <= 256 ->
  0 <= num_vectors ->
  num_rows a * num_vectors <= Z.of_nat (length vector_y_out) ->
  exists out,
    TestOmpNonzeroSplitCsrmm_call num_threads a vector_x vector_y_out
      num_vectors vector_x_row_major = Done out /\
    forall r, row_of_position a (num_nonzeros a) < r < num_rows a ->
      rd 0 (row_offsets a) r = rd 0 (row_offsets a) (r + 1) /\
      forall i, 0 <= i < num_vectors ->
        rd vzero out (r * num_vectors + i)
        = rd vzero vector_y_out (r * num_vectors + i).
Proof.
  intros Hwf Hnt Hnv Hlen.
  destruct (nonzero_parallel_state a Hwf num_threads num_vectors
              vector_x_row_major Hnt Hnv vector_y_out) as (s & Hrun & _).
  destruct (nonzero_call_rows_from_R a Hwf num_threads num_vectors
              vector_x_row_major Hnt Hnv s vector_x vector_y_out vector_y_out
              Hrun Hlen) as (out & Hcall & _ & _ & Hafter).
  exists out. split; [exact Hcall|]. intros r Hr. split.
  - destruct (row_of_position_spec a Hwf (num_nonzeros a))
      as (_ & HR & _ & Habove).
    specialize (Habove ltac:(lia)).
    pose proof (row_offsets_mono a Hwf
                  (row_of_position a (num_nonzeros a) + 1) r
                  ltac:(lia) ltac:(lia)).
    pose proof (row_offsets_range a Hwf r ltac:(lia)).
    pose proof (row_offsets_range a Hwf (r + 1) ltac:(lia)).
    pose proof (row_offsets_mono a Hwf r (r + 1) ltac:(lia) ltac:(lia)).
    lia.
  - intros i Hi. apply Hafter; assumption.
Qed.

(** The theorem on a matrix whose last two rows are empty: they come back
    as -1, where the reference has 0. *)
Lemma nonzero_split_rows_after_last_entry_witness :
  row_of_position trailing_empty (num_nonzeros trailing_empty) = 0 /\
  SpmvGold trailing_empty [10; 100] [0; 0; 0] [-1; -1; -1] 1 0 = [210; 0; 0] /\
  exists out,
    TestOmpNonzeroSplitCsrmm_call 2 trailing_empty [10; 100] [-1; -1; -1] 1
      [10; 100] = Done out /\
    rd 0 out (1 * 1 + 0) = -1 /\ rd 0 out (2 * 1 + 0) = -1.
Proof.
  split; [reflexivity|]. split; [reflexivity|].
  destruct (nonzero_split_rows_after_last_entry trailing_empty 2 1 [10; 100]
              [-1; -1; -1] [10; 100]) as (out & Hrun & Hafter);
    [csr_wf_by_check|lia|lia|simpl; lia|].
  exists out. split; [exact Hrun|]. split.
  - destruct (Hafter 1) as [_ Hkept]; [vm_compute; split; reflexivity|].
    etransitivity; [exact (Hkept 0 ltac:(lia))|reflexivity].
  - destruct (Hafter 2) as [_ Hkept]; [vm_compute; split; reflexivity|].
    etransitivity; [exact (Hkept 0 ltac:(lia))|reflexivity].
Defined.

(** ** Threads whose segments follow one another along the path *)

Section PathThreads.
Context {V : Type} `{ValueOps V}.
Hypothesis Vsrt : semi_ring_theory (vzero : V) vone vadd vmul eq.
Add Ring Vring4 : Vsrt.
Context (a : CsrMatrix V) (Hwf : csr_wf a).
Variables (num_threads num_vectors : Z) (vector_x_row_major : list V).
Variables (cs ces : Z -> int2.t).
Hypothesis Hnt : 1 <= num_threads <= 256.
Hypothesis Hnv : 0 <= num_vectors.
Hypothesis Hfirst : cs 0 = {| int2.x := 0; int2.y := 0 |}.
Hypothesis Hnext : forall t, 0 <= t < num_threads - 1 -> ces t = cs (t + 1).
Hypothesis Hcs : forall t, 0 <= t < num_threads -> on_path a (cs t).
Hypothesis Hces : forall t, 0 <= t < num_threads -> on_path a (ces t).
Hypothesis Hord : forall t, 0 <= t < num_threads ->
  int2.x (cs t) <= int2.x (ces t) /\ int2.y (cs t) <= int2.y (ces t).

Local Abbreviation row_start r := (rd 0 (row_offsets a) r).
Local Abbreviation sum' i lo hi :=
  (column_sum (column_indices a) (values a) vector_x_row_major num_vectors
     i lo hi vzero).

Lemma path_later_start (t t' : Z) :
  0 <= t < t' -> t' < num_threads ->
  int2.x (ces t) <= int2.x (cs t') /\ int2.y (ces t) <= int2.y (cs t').
Proof.
  intros Ht Ht'.
  replace t' with (t + 1 + Z.of_nat (Z.to_nat (t' - t - 1))) in * by lia.
  induction (Z.to_nat (t' - t - 1)) as [|n IH].
  - rewrite Z.add_0_r. rewrite Hnext by lia. lia.
  - specialize (IH ltac:(lia) ltac:(lia)).
    replace (t + 1 + Z.of_nat (S n)) with (t + 1 + Z.of_nat n + 1) in * by lia.
    rewrite <- (Hnext (t + 1 + Z.of_nat n)) by lia.
    pose proof (Hord (t + 1 + Z.of_nat n) ltac:(lia)). lia.
Qed.

Lemma path_parallel_state (vector_y_out : list V) :
  num_rows a * num_vectors <= Z.of_nat (length vector_y_out) ->
  exists s,
    parallel_phase (fun tid => Done (cs tid, ces tid)) num_threads
      (row_end_offsets_of a) (column_indices a) (values a) num_vectors
      vector_x_row_major (shared_init vector_y_out) = Done s /\
    length (shared_out s) = length vector_y_out /\
    (forall t r i, 0 <= t < num_threads ->
       int2.x (cs t) <= r < int2.x (ces t) ->
       0 <= i < num_vectors ->
       rd vzero (shared_out s) (r * num_vectors + i)
       = sum' i (Z.max (int2.y (cs t)) (row_start r)) (row_start (r + 1))) /\
    (forall t i, 0 <= t < num_threads -> 0 <= i < num_vectors ->
       rd 0 (row_carry_out s) t = int2.x (ces t) /\
       rd vzero (rd [] (value_carry_out s) t) i
       = sum' i (Z.max (int2.y (cs t)) (row_start (int2.x (ces t))))
           (int2.y (ces t))).
Proof.
  intros Hlen.
  destruct (parallel_phase_records
              (fun tid => Done (cs tid, ces tid)) num_threads
              (row_end_offsets_of a) (column_indices a) (values a) num_vectors
              vector_x_row_major vector_y_out)
    as (s & Hrun & Hrec & Hl); [lia|lia| |].
  { intros tid Ht. eauto. }
  destruct (parallel_phase_rows cs ces num_threads
              (row_end_offsets_of a) (column_indices a) (values a) num_vectors
              vector_x_row_major vector_y_out)
    as (s' & Hrun' & _ & Hrows & _); [lia|lia| |].
  { intros t t' Ht Ht'. apply path_later_start; lia. }
  rewrite Hrun in Hrun'. injection Hrun' as Hs. subst s'.
  exists s. split; [exact Hrun|]. split; [exact Hl|]. split.
  - intros t r i Ht Hr Hi.
    destruct (Hcs t Ht) as (Hx & Hy & Hlo & _).
    destruct (Hces t Ht) as (Hxe & _).
    rewrite (Hrows t r i) by (try assumption; nia).
    rewrite subscript_row_end.
    rewrite (row_resume_merge a Hwf) by (try assumption; lia). reflexivity.
  - intros t i Ht Hi.
    destruct (Hrec t Ht) as (c & ce & Hc & Hrow & _ & Hval).
    injection Hc as Hc1 Hc2. subst c ce.
    destruct (Hcs t Ht) as (Hx & Hy & Hlo & _).
    destruct (Hces t Ht) as (Hxe & _).
    pose proof (Hord t Ht).
    split; [exact Hrow|]. rewrite (Hval i Hi). unfold partial_start.
    rewrite (row_resume_merge a Hwf) by (try assumption; lia). reflexivity.
Qed.

Lemma path_carries_sum (s : shared) (r i owner : Z) (start : V) :
  0 <= r < num_rows a -> 0 <= i < num_vectors ->
  0 <= owner < num_threads ->
  int2.x (cs owner) <= r < int2.x (ces owner) ->
  (forall t, 0 <= t < num_threads ->
     rd 0 (row_carry_out s) t = int2.x (ces t) /\
     rd vzero (rd [] (value_carry_out s) t) i
     = sum' i (Z.max (int2.y (cs t)) (row_start (int2.x (ces t))))
         (int2.y (ces t))) ->
  forall n : nat, Z.of_nat n <= num_threads - 1 ->
    add_carries s r i (seqZ 0 (Z.of_nat n)) start
    = vadd start
        (sum' i (row_start r)
           (Z.max (row_start r)
              (Z.min (int2.y (cs (Z.of_nat n))) (int2.y (cs owner))))).
Proof.
  intros Hr Hi Hown Hrange Hcar.
  destruct (Hcs owner Hown) as (Hox & Hoy & Holo & Hohi).
  induction n as [|n IH]; intros Hn.
  - change (Z.of_nat 0) with 0. rewrite seqZ_nil by lia. unfold add_carries.
    cbn [foldl]. rewrite Hfirst. cbn [int2.y].
    pose proof (row_offsets_range a Hwf r ltac:(lia)) as Hr0.
    rewrite column_sum_nil by lia. ring.
  - replace (Z.of_nat (S n)) with (Z.of_nat n + 1) by lia.
    rewrite add_carries_snoc by lia. cbv zeta. rewrite IH by lia.
    set (t := Z.of_nat n) in *.
    destruct (Hcar t ltac:(lia)) as [Hrow Hval]. rewrite Hrow, Hval.
    destruct (Hcs t ltac:(lia)) as (Htx & Hty & Htlo & Hthi).
    destruct (Hces t ltac:(lia)) as (Htxe & Htye & Htelo & Htehi).
    pose proof (Hord t ltac:(lia)) as Hto.
    pose proof (Hord owner Hown) as Hoo.
    rewrite <- (Hnext t) by lia.
    destruct (Z.eqb_spec (int2.x (ces t)) r) as [Heq|Hne].
    + assert (Hbefore : t < owner).
      { destruct (Z_lt_ge_dec t owner) as [Hlt|Hge]; [exact Hlt|].
        exfalso. destruct (Z.eq_dec t owner) as [Hsame|Hneq]; [subst owner; lia|].
        pose proof (path_later_start owner t ltac:(lia) ltac:(lia)). lia. }
      assert (Hye : int2.y (ces t) <= int2.y (cs owner)).
      { destruct (Z.eq_dec (t + 1) owner) as [Hsame|Hneq].
        - rewrite (Hnext t) by lia. rewrite Hsame. lia.
        - pose proof (path_later_start t owner ltac:(lia) ltac:(lia)). lia. }
      rewrite Heq in *.
      replace (Z.max (row_start r)
                 (Z.min (int2.y (cs t)) (int2.y (cs owner))))
        with (Z.max (int2.y (cs t)) (row_start r)) by lia.
      replace (Z.max (row_start r)
                 (Z.min (int2.y (ces t)) (int2.y (cs owner))))
        with (int2.y (ces t)) by lia.
      rewrite (column_sum_split Vsrt _ _ _ _ i (row_start r)
                 (Z.max (int2.y (cs t)) (row_start r))
                 (int2.y (ces t))) by lia.
      ring.
    + f_equal. f_equal.
      destruct (Z_lt_ge_dec (int2.x (ces t)) r) as [Hlt|Hgt].
      * pose proof (row_offsets_mono a Hwf (int2.x (ces t) + 1) r). lia.
      * assert (Hafter : owner <= t).
        { destruct (Z_le_gt_dec owner t) as [Hle|Hgt']; [exact Hle|].
          exfalso.
          destruct (Z.eq_dec (t + 1) owner) as [Hsame|Hneq].
          - rewrite (Hnext t) in * by lia. rewrite Hsame in *. lia.
          - pose proof (path_later_start t owner ltac:(lia) ltac:(lia)). lia. }
        assert (Hy1 : int2.y (cs owner) <= int2.y (cs t)).
        { destruct (Z.eq_dec owner t) as [->|Hneq]; [lia|].
          pose proof (path_later_start owner t ltac:(lia) ltac:(lia)). lia. }
        lia.
Qed.

(** Every row that lies in the whole-row range of some thread ends up
    with the sum of the products of its entries. *)
Lemma path_kernel_row_sums (vector_y_out : list V) :
  num_rows a * num_vectors <= Z.of_nat (length vector_y_out) ->
  exists out,
    (s ← parallel_phase (fun tid => Done (cs tid, ces tid)) num_threads
           (row_end_offsets_of a) (column_indices a) (values a) num_vectors
           vector_x_row_major (shared_init vector_y_out);
     carry_fixup num_threads a num_vectors s) = Done out /\
    length out = length vector_y_out /\
    forall r i owner, 0 <= r < num_rows a -> 0 <= i < num_vectors ->
      0 <= owner < num_threads ->
      int2.x (cs owner) <= r < int2.x (ces owner) ->
      rd vzero out (r * num_vectors + i)
      = sum' i (row_start r) (row_start (r + 1)).
Proof.
  intros Hlen.
  destruct (path_parallel_state vector_y_out Hlen)
    as (s & Hrun & Hl & Hrows & Hcar).
  rewrite Hrun. simpl.
  destruct (carry_fixup_applies num_threads a num_vectors s)
    as (out & Hfix & Hlo & Happ & _); [lia|lia|lia|].
  exists out. split; [exact Hfix|]. split; [lia|].
  intros r i owner Hr Hi Hown Hrange. rewrite Happ by lia.
  replace (num_threads - 1) with (Z.of_nat (Z.to_nat (num_threads - 1))) by lia.
  rewrite (path_carries_sum s r i owner) by (auto; lia).
  rewrite Z2Nat.id by lia.
  rewrite (Hrows owner r i) by (auto; lia).
  destruct (Hcs owner Hown) as (Hox & Hoy & Holo & Hohi).
  assert (Hy1 : int2.y (cs owner) <= int2.y (cs (num_threads - 1))).
  { destruct (Z.eq_dec owner (num_threads - 1)) as [->|Hneq]; [lia|].
    pose proof (path_later_start owner (num_threads - 1) ltac:(lia) ltac:(lia)).
    pose proof (Hord owner Hown). lia. }
  assert (Hy2 : int2.y (cs owner) <= row_start (r + 1)).
  { pose proof (row_offsets_mono a Hwf (int2.x (cs owner) + 1) (r + 1)).
    lia. }
  pose proof (row_offsets_mono a Hwf r (r + 1) ltac:(lia) ltac:(lia)) as Hrr.
  replace (Z.max (row_start r)
             (Z.min (int2.y (cs (num_threads - 1)))
                    (int2.y (cs owner))))
    with (Z.max (int2.y (cs owner)) (row_start r)) by lia.
  rewrite (column_sum_split Vsrt _ _ _ _ i (row_start r)
             (Z.max (int2.y (cs owner)) (row_start r))
             (row_start (r + 1))) by lia.
  ring.
Qed.
End PathThreads.

(** ** The nonzero-split kernel on the rows it stores *)

Section NonzeroPath.
Context {V : Type} (a : CsrMatrix V) (Hwf : csr_wf a).
Variable num_threads : Z.
Hypothesis Hnt : 1 <= num_threads.

(** The coordinate [RowPathSearch] finds for a position of the matrix
    lies on the merge path. *)
Lemma row_of_position_on_path (y : Z) :
  0 <= y <= num_nonzeros a ->
  on_path a {| int2.x := row_of_position a y; int2.y := y |}.
Proof.
  intros Hy. destruct (row_of_position_spec a Hwf y) as (_ & Hx & Hbelow & Habove).
  unfold on_path. cbn [int2.x int2.y].
  split; [exact Hx|]. split; [exact Hy|]. split; [|exact Habove].
  destruct (Z.eq_dec (row_of_position a y) 0) as [->|Hne].
  - rewrite (wf_first a Hwf). lia.
  - specialize (Hbelow (row_of_position a y - 1) ltac:(lia)).
    replace (row_of_position a y - 1 + 1) with (row_of_position a y)
      in Hbelow by lia. lia.
Qed.

Lemma nonzero_ranges (tid : Z) :
  0 <= tid ->
  0 <= thread_coord_y num_threads a tid <= thread_coord_end_y num_threads a tid /\
  thread_coord_end_y num_threads a tid <= num_nonzeros a.
Proof.
  intros Ht.
  pose proof (wf_rows a Hwf) as Hrows.
  pose proof (row_offsets_range a Hwf (num_rows a) ltac:(lia)) as Hnnz.
  rewrite (wf_last a Hwf) in Hnnz.
  assert (Hper : 0 <= nonzero_items_per_thread num_threads a).
  { unfold nonzero_items_per_thread. rewrite Z.quot_div_nonneg by lia.
    apply Z.div_pos; lia. }
  unfold thread_coord_end_y, thread_coord_y. nia.
Qed.

Lemma nonzero_first_thread_start :
  nonzero_first_point num_threads a 0 = {| int2.x := 0; int2.y := 0 |}.
Proof.
  unfold nonzero_first_point.
  assert (Hy : thread_coord_y num_threads a 0 = 0).
  { pose proof (wf_rows a Hwf) as Hrows.
    pose proof (row_offsets_range a Hwf (num_rows a) ltac:(lia)) as Hnnz.
    rewrite (wf_last a Hwf) in Hnnz. unfold thread_coord_y. lia. }
  rewrite Hy. f_equal.
  destruct (row_of_position_spec a Hwf 0) as (_ & Hx & Hbelow & _).
  destruct (Z.eq_dec (row_of_position a 0) 0) as [Hz|Hnz]; [exact Hz|].
  specialize (Hbelow 0 ltac:(lia)).
  pose proof (row_offsets_range a Hwf (0 + 1) ltac:(lia)). lia.
Qed.

Lemma nonzero_end_is_next_start (tid : Z) :
  0 <= tid < num_threads - 1 ->
  nonzero_end_point num_threads a tid = nonzero_first_point num_threads a (tid + 1).
Proof.
  intros Ht. unfold nonzero_end_point, nonzero_first_point.
  pose proof (wf_rows a Hwf) as Hrows.
  pose proof (row_offsets_range a Hwf (num_rows a) ltac:(lia)) as Hnnz.
  rewrite (wf_last a Hwf) in Hnnz.
  destruct (even_split_chained num_threads (num_nonzeros a))
    as (_ & _ & _ & Hn); [lia|lia|].
  specialize (Hn tid Ht).
  change (thread_coord_end_y num_threads a tid
          = thread_coord_y num_threads a (tid + 1)) in Hn.
  rewrite Hn. reflexivity.
Qed.

(** The whole-row ranges of the threads follow one another from row 0 to
    the row in which the last thread ends. *)
Lemma nonzero_rows_chained :
  chained num_threads (row_of_position a (num_nonzeros a))
    (fun tid => int2.x (nonzero_first_point num_threads a tid))
    (fun tid => int2.x (nonzero_end_point num_threads a tid)).
Proof.
  pose proof (wf_rows a Hwf) as Hrows.
  pose proof (row_offsets_range a Hwf (num_rows a) ltac:(lia)) as Hnnz.
  rewrite (wf_last a Hwf) in Hnnz.
  split; [|split; [|split]].
  - rewrite nonzero_first_thread_start. reflexivity.
  - unfold nonzero_end_point. cbn [int2.x].
    destruct (even_split_chained num_threads (num_nonzeros a))
      as (_ & Hlast & _); [lia|lia|].
    change (thread_coord_end_y num_threads a (num_threads - 1) = num_nonzeros a)
      in Hlast.
    rewrite Hlast. reflexivity.
  - intros t Ht. unfold nonzero_first_point, nonzero_end_point. cbn [int2.x].
    apply (row_of_position_mono a Hwf). apply nonzero_ranges. lia.
  - intros t Ht. cbv beta. rewrite nonzero_end_is_next_start by exact Ht.
    reflexivity.
Qed.
End NonzeroPath.

(** X7.  In exact arithmetic, on a well-formed matrix and with 1 to 256
    threads, the nonzero-split kernel leaves in every row before [R], the
    row in which the last thread ends, the sum of the products of the
    row's entries, for every vector column and whatever [vector_y_out]
    held: the rows it stores, it stores correctly. *)
Theorem nonzero_split_stored_rows {V : Type} `{ValueOps V} (a : CsrMatrix V)
    (num_threads num_vectors : Z)
    (vector_x vector_y_out vector_x_row_major : list V) :
  semi_ring_theory (vzero : V) vone vadd vmul eq ->
  csr_wf a ->
  1 <= num_threads <= 256 ->
  0 <= num_vectors ->
  num_rows a * num_vectors <= Z.of_nat (length vector_y_out) ->
  exists out,
    TestOmpNonzeroSplitCsrmm_call num_threads a vector_x vector_y_out
      num_vectors vector_x_row_major = Done out /\
    length out = length vector_y_out /\
    forall r i, 0 <= r < row_of_position a (num_nonzeros a) ->
      0 <= i < num_vectors ->
      rd vzero out (r * num_vectors + i)
      = column_sum (column_indices a) (values a) vector_x_row_major num_vectors
          i (rd 0 (row_offsets a) r) (rd 0 (row_offsets a) (r + 1)) vzero.
Proof.
  intros Vsrt Hwf Hnt Hnv Hlen.
  assert (Hnt1 : 1 <= num_threads) by lia.
  destruct (path_kernel_row_sums Vsrt a Hwf num_threads num_vectors
              vector_x_row_major (nonzero_first_point num_threads a)
              (nonzero_end_point num_threads a) Hnt Hnv
              (nonzero_first_thread_start a Hwf num_threads)
              (nonzero_end_is_next_start a Hwf num_threads Hnt1))
    with (vector_y_out := vector_y_out) as (out & Hrun & Hl & Hsum).
  - intros t Ht. apply (row_of_position_on_path a Hwf).
    pose proof (nonzero_ranges a Hwf num_threads Hnt1 t ltac:(lia)). lia.
  - intros t Ht. apply (row_of_position_on_path a Hwf).
    pose proof (nonzero_ranges a Hwf num_threads Hnt1 t ltac:(lia)). lia.
  - intros t Ht. unfold nonzero_first_point, nonzero_end_point.
    cbn [int2.x int2.y].
    pose proof (nonzero_ranges a Hwf num_threads Hnt1 t ltac:(lia)).
    split; [apply (row_of_position_mono a Hwf)|]; lia.
  - exact Hlen.
  - exists out. split; [|split; [exact Hl|]].
    + unfold TestOmpNonzeroSplitCsrmm_call, OmpNonzeroSplitCsrmm, nonzero_parallel.
      rewrite (parallel_phase_ext _
                 (fun tid => Done (nonzero_first_point num_threads a tid,
                                   nonzero_end_point num_threads a tid)))
        by (intros tid _; apply (nonzero_coords_points a Hwf)).
      exact Hrun.
    + intros r i Hr Hi.
      destruct (chained_covered_once num_threads
                  (row_of_position a (num_nonzeros a))
                  (fun tid => int2.x (nonzero_first_point num_threads a tid))
                  (fun tid => int2.x (nonzero_end_point num_threads a tid))
                  Hnt1 (nonzero_rows_chained a Hwf num_threads Hnt1) r Hr)
        as (owner & (Hown & Hrange) & _).
      destruct (row_of_position_spec a Hwf (num_nonzeros a)) as (_ & HR & _).
      apply (Hsum r i owner); [lia|exact Hi|exact Hown|exact Hrange].
Qed.

(** The theorem on [skewed] over the integers with 3 threads: rows 0, 1
    and 2 come out as in the reference. *)
Lemma nonzero_split_stored_rows_witness :
  row_of_position skewed (num_nonzeros skewed) = 3 /\
  exists out,
    TestOmpNonzeroSplitCsrmm_call 3 skewed [] [-1; -1; -1; -1] 1 [1; 10; 100]
    = Done out /\
    forall r, 0 <= r < 3 ->
      rd 0 out (r * 1 + 0)
      = column_sum (column_indices skewed) (values skewed) [1; 10; 100] 1 0
          (rd 0 (row_offsets skewed) r) (rd 0 (row_offsets skewed) (r + 1)) 0.
Proof.
  split; [reflexivity|].
  destruct (nonzero_split_stored_rows skewed 3 1 [] [-1; -1; -1; -1]
              [1; 10; 100] Z_semi_ring) as (out & Hrun & _ & Hsum);
    [csr_wf_by_check|lia|lia|simpl; lia|].
  exists out. split; [exact Hrun|]. intros r Hr.
  apply (Hsum r 0); [exact Hr|lia].
Defined.

(** ** A matrix without rows *)

(** X20.  On a well-formed matrix without rows, the reference and the
    two load-balanced kernels return [vector_y_out] exactly as it was
    passed in, for any number of threads from 1 to 256; so does the
    row-parallel kernel when its operand is row-major, under either output
    layout, and it returns the operand buffer unchanged as well. *)
Theorem kernels_on_empty_matrix {V : Type} `{ValueOps V} (a : CsrMatrix V)
    (g : globals) (xt_index : Z -> Z) (num_threads num_vectors : Z)
    (alpha beta : V)
    (x vector_x vector_y_in vector_y_out vector_x_row_major : list V) :
  csr_wf a ->
  num_rows a = 0 ->
  1 <= num_threads <= 256 ->
  0 <= num_vectors ->
  SpmvGold a x vector_y_in vector_y_out alpha beta = vector_y_out /\
  (g_input_row_major g = true ->
   OmpCsrSpmmT g xt_index num_threads a vector_x vector_y_out num_vectors
     vector_x_row_major = (vector_y_out, vector_x_row_major)) /\
  TestOmpMergeCsrmm_call num_threads a vector_x vector_y_out num_vectors
    vector_x_row_major = Done vector_y_out /\
  TestOmpNonzeroSplitCsrmm_call num_threads a vector_x vector_y_out num_vectors
    vector_x_row_major = Done vector_y_out.
Proof.
  intros Hwf Hrows Hnt Hnv. split; [|split; [|split]].
  - unfold SpmvGold. apply for_loop_nil. lia.
  - intros Hin. unfold OmpCsrSpmmT. rewrite Hin. cbn [negb]. f_equal.
    apply for_loop_nil. lia.
  - destruct (merge_kernel_two_buffers a Hwf num_threads num_vectors
                vector_x_row_major Hnt Hnv vector_x vector_x vector_y_out
                vector_y_out) as (out & out' & Hrun & _ & Hl & _ & _ & Hrest);
      [lia|lia|].
    rewrite Hrun. f_equal. apply (rd_ext vzero); [exact Hl|].
    intros j Hj. apply Hrest. lia.
  - destruct (nonzero_kernel_frame a num_threads num_vectors vector_x
                vector_y_out vector_x_row_major Hwf Hnt Hnv)
      as (out & Hrun & Hl & Hrest); [lia|].
    rewrite Hrun. f_equal. apply (rd_ext vzero); [exact Hl|].
    intros j Hj. apply Hrest. lia.
Qed.

(** The theorem on a matrix of no rows and three columns, 8 threads. *)
Lemma kernels_on_empty_matrix_witness :
  OmpCsrSpmmT column_major_out (fun _ => 0) 8 no_rows [1; 10; 100] [5; 6] 1
    [1; 10; 100] = ([5; 6], [1; 10; 100]) /\
  TestOmpMergeCsrmm_call 8 no_rows [1; 10; 100] [5; 6] 1 [1; 10; 100]
  = Done [5; 6] /\
  TestOmpNonzeroSplitCsrmm_call 8 no_rows [1; 10; 100] [5; 6] 1 [1; 10; 100]
  = Done [5; 6].
Proof.
  destruct (kernels_on_empty_matrix no_rows column_major_out (fun _ => 0) 8 1
              1 0 [1; 10; 100] [1; 10; 100] [] [5; 6] [1; 10; 100])
    as (_ & Hrow & Hmerge & Hsplit); [csr_wf_by_check|reflexivity|lia|lia|].
  split; [apply Hrow; reflexivity|]. split; [exact Hmerge|exact Hsplit].
Defined.

(** ** The test harness *)

Section HarnessFacts.
Context {V : Type} `{ValueOps V}.

Lemma memset_spec (all_ones : V) (count : Z) (buffer : list V) :
  length (memset all_ones count buffer) = length buffer /\
  (forall j, 0 <= j < count -> 0 <= j < Z.of_nat (length buffer) ->
     rd vzero (memset all_ones count buffer) j = all_ones) /\
  (forall j, ~ (0 <= j < count) ->
     rd vzero (memset all_ones count buffer) j = rd vzero buffer j).
Proof.
  unfold memset. destruct (Z_le_gt_dec 0 count) as [Hle|Hgt].
  2:{ rewrite for_loop_nil by lia. split; [done|]. split; [intros; lia|done]. }
  apply (for_loop_inv
    (fun n b =>
       length b = length buffer /\
       (forall j, 0 <= j < n -> 0 <= j < Z.of_nat (length buffer) ->
          rd vzero b j = all_ones) /\
       (forall j, ~ (0 <= j < n) -> rd vzero b j = rd vzero buffer j)));
    [exact Hle| |].
  - split; [done|]. split; [intros; lia|done].
  - intros n b Hn (Hl & Hset & Hrest). split; [|split].
    + rewrite length_wr. exact Hl.
    + intros j Hj Hjl. destruct (Z.eq_dec j n) as [->|Hne].
      * apply rd_wr_eq. lia.
      * rewrite rd_wr_ne by lia. apply Hset; lia.
    + intros j Hj. rewrite rd_wr_ne by lia. apply Hrest. lia.
Qed.

(** A loop of calls that each return the buffer they were given returns
    that buffer. *)
Lemma timing_loop_fixed (timing_iterations : Z)
    (kernel : list V -> outcome (list V)) (out : list V) :
  kernel out = Done out ->
  timing_loop timing_iterations kernel out = Done out.
Proof.
  intros Hfix. unfold timing_loop.
  destruct (Z_le_gt_dec 0 timing_iterations) as [Hle|Hgt].
  2:{ apply for_loopM_nil. lia. }
  destruct (for_loopM_inv (fun _ y => y = out) 0 timing_iterations
              (fun _ y => kernel y) out Hle eq_refl) as (y & Hrun & ->).
  - intros i y _ ->. exists out. split; [exact Hfix|reflexivity].
  - exact Hrun.
Qed.
End HarnessFacts.

(** X4.  [TestOmpMergeCsrmm] on a well-formed matrix with 1 to 256
    threads: the buffer it hands to [CompareResults] after the warm-up
    call and the buffer it returns after the [2 * timing_iterations]
    further calls are the same, and they are what one call of the kernel
    on the caller's buffer returns; the [memset] pattern leaves no
    trace. *)
Theorem TestOmpMergeCsrmm_checks_what_it_times {V : Type} `{ValueOps V}
    (all_ones : V) (num_threads : Z) (a : CsrMatrix V)
    (vector_x vector_y_out : list V) (timing_iterations num_vectors : Z)
    (vector_x_row_major : list V) :
  csr_wf a ->
  1 <= num_threads <= 256 ->
  0 <= num_vectors ->
  num_rows a * num_vectors <= Z.of_nat (length vector_y_out) ->
  exists out,
    TestOmpMergeCsrmm all_ones num_threads a vector_x vector_y_out
      timing_iterations num_vectors vector_x_row_major = Done (out, out) /\
    TestOmpMergeCsrmm_call num_threads a vector_x vector_y_out num_vectors
      vector_x_row_major = Done out.
Proof.
  intros Hwf Hnt Hnv Hlen.
  destruct (merge_kernel_two_buffers a Hwf num_threads num_vectors
              vector_x_row_major Hnt Hnv vector_x vector_x vector_y_out
              vector_y_out) as (out & _o & Hrun & _ & Hl & _); [lia|lia|].
  destruct (memset_spec all_ones (num_rows a * num_vectors) vector_y_out)
    as (Hml & _ & Hmrest).
  assert (Hwarm :
    TestOmpMergeCsrmm_call num_threads a vector_x
      (memset all_ones (num_rows a * num_vectors) vector_y_out) num_vectors
      vector_x_row_major = Done out).
  { apply (merge_kernel_same_tail a num_threads num_vectors vector_x vector_x
             vector_y_out); try assumption. }
  assert (Hagain :
    TestOmpMergeCsrmm_call num_threads a vector_x out num_vectors
      vector_x_row_major = Done out).
  { apply (merge_kernel_again a Hwf num_threads num_vectors vector_x_row_major
             Hnt Hnv vector_x vector_x vector_y_out out Hlen Hrun). }
  exists out. split; [|exact Hrun].
  unfold TestOmpMergeCsrmm. unfold TestOmpMergeCsrmm_call in Hwarm, Hagain.
  cbv zeta. rewrite Hwarm. cbn [mbind outcome_bind].
  rewrite (timing_loop_fixed timing_iterations _ out Hagain).
  cbn [mbind outcome_bind].
  rewrite (timing_loop_fixed timing_iterations _ out Hagain).
  reflexivity.
Qed.

(** The theorem on [skewed], 4 threads, 10 timing iterations. *)
Lemma TestOmpMergeCsrmm_checks_what_it_times_witness :
  exists out,
    TestOmpMergeCsrmm (-1) 4 skewed [1; 10; 100] [0; 0; 0; 0] 10 1 [1; 10; 100]
    = Done (out, out) /\
    TestOmpMergeCsrmm_call 4 skewed [1; 10; 100] [0; 0; 0; 0] 1 [1; 10; 100]
    = Done out.
Proof.
  apply (TestOmpMergeCsrmm_checks_what_it_times (-1) 4 skewed [1; 10; 100]
           [0; 0; 0; 0] 10 1 [1; 10; 100]);
    [csr_wf_by_check|lia|lia|simpl; lia].
Defined.

(** X25.  [TestOmpCsrSpmmT] with a row-major operand: the buffers handed
    to [CompareResults] after the warm-up call and the buffers left after
    the [2 * timing_iterations] further calls are the same, and they are
    what one call of the kernel on the caller's buffers returns; the
    [memset] pattern leaves no trace. *)
Theorem TestOmpCsrSpmmT_checks_what_it_times {V : Type} `{ValueOps V}
    (g : globals) (xt_index : Z -> Z -> Z) (all_ones : V) (num_threads : Z)
    (a : CsrMatrix V) (vector_x vector_y_out : list V)
    (timing_iterations num_vectors : Z) (vector_x_row_major : list V) :
  g_input_row_major g = true ->
  0 <= num_vectors ->
  num_rows a * num_vectors <= Z.of_nat (length vector_y_out) ->
  let res := OmpCsrSpmmT g (xt_index 0) num_threads a vector_x vector_y_out
               num_vectors vector_x_row_major in
  TestOmpCsrSpmmT g xt_index all_ones num_threads a vector_x vector_y_out
    timing_iterations num_vectors vector_x_row_major = (res, res).
Proof.
  intros Hin Hnv Hlen res.
  destruct (memset_spec all_ones (num_rows a * num_vectors) vector_y_out)
    as (Hml & _ & Hmrest).
  unfold TestOmpCsrSpmmT. cbv zeta.
  assert (Hwarm :
    OmpCsrSpmmT g (xt_index 0) num_threads a vector_x
      (memset all_ones (num_rows a * num_vectors) vector_y_out) num_vectors
      vector_x_row_major = res).
  { apply injective_projections.
    - apply OmpCsrSpmmT_same_tail; assumption.
    - subst res. rewrite !OmpCsrSpmmT_keeps_operand by exact Hin. reflexivity. }
  rewrite Hwarm.
  assert (Hagain : forall call,
    (let '(vector_y_out, vector_x_row_major) := res in
     OmpCsrSpmmT g (xt_index call) num_threads a vector_x vector_y_out
       num_vectors vector_x_row_major) = res).
  { intros call. rewrite (surjective_pairing res) at 1.
    apply (OmpCsrSpmmT_again g a num_vectors vector_x_row_major Hin Hnv
             (xt_index 0) (xt_index call) num_threads num_threads vector_x
             vector_x vector_y_out Hlen). }
  rewrite (for_loop_fixed 0 timing_iterations _ res)
    by (intros it _; apply Hagain).
  rewrite (for_loop_fixed 0 timing_iterations _ res)
    by (intros it _; apply Hagain).
  reflexivity.
Qed.

Lemma TestOmpCsrSpmmT_checks_what_it_times_witness :
  TestOmpCsrSpmmT column_major_out (fun call _ => call) (-1) 4 skewed [] 
    [0; 0; 0; 0; 0] 10 1 [1; 10; 100]
  = (([1; 0; 1277; 900; 0], [1; 10; 100]), ([1; 0; 1277; 900; 0], [1; 10; 100])) /\
  TestOmpCsrSpmmT column_major_out (fun call _ => call) (-1) 4 skewed []
    [0; 0; 0; 0; 0] 10 1 [1; 10; 100]
  = (OmpCsrSpmmT column_major_out (fun _ => 0) 4 skewed [] [0; 0; 0; 0; 0] 1 [1; 10; 100],
     OmpCsrSpmmT column_major_out (fun _ => 0) 4 skewed [] [0; 0; 0; 0; 0] 1 [1; 10; 100]).
Proof.
  split; [vm_compute; reflexivity|].
  apply (TestOmpCsrSpmmT_checks_what_it_times column_major_out (fun call _ => call)
           (-1) 4 skewed [] [0; 0; 0; 0; 0] 10 1 [1; 10; 100]);
    [reflexivity|lia|simpl; lia].
Defined.

Lemma timing_loop_iterates {V : Type} `{ValueOps V} (timing_iterations : Z)
    (kernel : list V -> outcome (list V)) (len : nat) (P : Z -> Prop)
    (idx : Z -> Z) (f : Z -> V -> V) :
  0 <= timing_iterations ->
  (forall y, length y = len ->
     exists out, kernel y = Done out /\ length out = len /\
       forall i, P i -> rd vzero out (idx i) = f i (rd vzero y (idx i))) ->
  forall y0, length y0 = len ->
    exists y, timing_loop timing_iterations kernel y0 = Done y /\
      length y = len /\
      forall i, P i ->
        rd vzero y (idx i)
        = Nat.iter (Z.to_nat timing_iterations) (f i) (rd vzero y0 (idx i)).
Proof.
  intros Hti Hk y0 Hl0. unfold timing_loop.
  apply (for_loopM_inv
    (fun n y =>
       length y = len /\
       forall i, P i ->
         rd vzero y (idx i) = Nat.iter (Z.to_nat n) (f i) (rd vzero y0 (idx i))));
    [exact Hti| |].
  - split; [exact Hl0|]. intros i _. reflexivity.
  - intros n y Hn (Hl & Hy). destruct (Hk y Hl) as (out & Hrun & Hlo & Hout).
    exists out. split; [exact Hrun|]. split; [exact Hlo|].
    intros i Hi. rewrite (Hout i Hi), (Hy i Hi).
    replace (Z.to_nat (n + 1)) with (S (Z.to_nat n)) by lia. reflexivity.
Qed.

(** X8.  [TestOmpNonzeroSplitCsrmm] on a well-formed matrix with at least
    one row: in the buffer handed to [CompareResults], row [R] (the row in
    which the last thread ends) holds the [memset] pattern with the
    carry-outs recorded for [R] added to it, and each of the
    [2 * timing_iterations] further calls adds those carry-outs once
    more. *)
Theorem TestOmpNonzeroSplitCsrmm_accumulates {V : Type} `{ValueOps V}
    (all_ones : V) (num_threads : Z) (a : CsrMatrix V)
    (vector_x vector_y_out : list V) (timing_iterations num_vectors : Z)
    (vector_x_row_major : list V) :
  csr_wf a ->
  1 <= num_rows a ->
  1 <= num_threads <= 256 ->
  0 <= num_vectors ->
  0 <= timing_iterations ->
  num_rows a * num_vectors <= Z.of_nat (length vector_y_out) ->
  let R := row_of_position a (num_nonzeros a) in
  exists s checked final,
    nonzero_parallel num_threads a (row_end_offsets_of a) (column_indices a)
      (values a) num_vectors vector_x_row_major
      (shared_init (memset all_ones (num_rows a * num_vectors) vector_y_out))
    = Done s /\
    TestOmpNonzeroSplitCsrmm all_ones num_threads a vector_x vector_y_out
      timing_iterations num_vectors vector_x_row_major = Done (checked, final) /\
    forall i, 0 <= i < num_vectors ->
      rd vzero checked (R * num_vectors + i)
      = add_carries s R i (seqZ 0 (num_threads - 1)) all_ones /\
      rd vzero final (R * num_vectors + i)
      = Nat.iter (Z.to_nat (1 + 2 * timing_iterations))
          (add_carries s R i (seqZ 0 (num_threads - 1))) all_ones.
Proof.
  intros Hwf Hrows Hnt Hnv Hti Hlen R.
  destruct (memset_spec all_ones (num_rows a * num_vectors) vector_y_out)
    as (Hml & Hmset & _).
  set (y0 := memset all_ones (num_rows a * num_vectors) vector_y_out) in *.
  destruct (nonzero_parallel_state a Hwf num_threads num_vectors
              vector_x_row_major Hnt Hnv y0) as (s & Hrun & _).
  assert (HR : 0 <= R < num_rows a).
  { subst R. destruct (row_of_position_spec a Hwf (num_nonzeros a))
      as (_ & Hr & Hbelow & _).
    destruct (Z.eq_dec (row_of_position a (num_nonzeros a)) (num_rows a))
      as [Heq|Hne]; [|lia].
    specialize (Hbelow (num_rows a - 1) ltac:(lia)).
    replace (num_rows a - 1 + 1) with (num_rows a) in Hbelow by lia.
    rewrite (wf_last a Hwf) in Hbelow. lia. }
  assert (Hk : forall y, length y = length vector_y_out ->
    exists out,
      OmpNonzeroSplitCsrmm num_threads a (row_end_offsets_of a) (column_indices a)
        (values a) vector_x y num_vectors vector_x_row_major = Done out /\
      length out = length vector_y_out /\
      forall i, 0 <= i < num_vectors ->
        rd vzero out (R * num_vectors + i)
        = add_carries s R i (seqZ 0 (num_threads - 1))
            (rd vzero y (R * num_vectors + i))).
  { intros y Hl.
    destruct (nonzero_call_rows_from_R a Hwf num_threads num_vectors
                vector_x_row_major Hnt Hnv s vector_x y0 y Hrun ltac:(lia))
      as (out & Hcall & Hlo & Hfrom & _).
    exists out. split; [exact Hcall|]. split; [lia|].
    intros i Hi. apply Hfrom; [fold R; lia|exact Hi]. }
  destruct (Hk y0 Hml) as (checked & Hwarm & Hlc & Hchecked).
  destruct (timing_loop_iterates timing_iterations _ (length vector_y_out)
              (fun i => 0 <= i < num_vectors) (fun i => R * num_vectors + i)
              (fun i => add_carries s R i (seqZ 0 (num_threads - 1)))
              Hti Hk checked Hlc) as (y1 & Hloop1 & Hl1 & Hy1).
  destruct (timing_loop_iterates timing_iterations _ (length vector_y_out)
              (fun i => 0 <= i < num_vectors) (fun i => R * num_vectors + i)
              (fun i => add_carries s R i (seqZ 0 (num_threads - 1)))
              Hti Hk y1 Hl1) as (final & Hloop2 & Hl2 & Hy2).
  exists s, checked, final. split; [exact Hrun|]. split.
  - unfold TestOmpNonzeroSplitCsrmm. cbv zeta. fold y0. rewrite Hwarm.
    cbn [mbind outcome_bind]. rewrite Hloop1. cbn [mbind outcome_bind].
    rewrite Hloop2. reflexivity.
  - intros i Hi.
    assert (Hstart : rd vzero y0 (R * num_vectors + i) = all_ones).
    { apply Hmset; nia. }
    split.
    + rewrite (Hchecked i Hi), Hstart. reflexivity.
    + rewrite (Hy2 i Hi), (Hy1 i Hi), (Hchecked i Hi), Hstart.
      replace (Z.to_nat (1 + 2 * timing_iterations))
        with (Z.to_nat timing_iterations + (Z.to_nat timing_iterations + 1))%nat
        by lia.
      rewrite !Nat.iter_add. reflexivity.
Qed.

(** The theorem on [skewed] with 4 threads and 2 timing iterations: the
    last row is -1 + 900 when it is checked and -1 + 5 * 900 at the
    end. *)
Lemma TestOmpNonzeroSplitCsrmm_accumulates_witness :
  TestOmpNonzeroSplitCsrmm (-1) 4 skewed [1; 10; 100] [0; 0; 0; 0] 2 1
    [1; 10; 100]
  = Done ([1; 0; 1277; 899], [1; 0; 1277; 4499]) /\
  exists s checked final,
    TestOmpNonzeroSplitCsrmm (-1) 4 skewed [1; 10; 100] [0; 0; 0; 0] 2 1
      [1; 10; 100] = Done (checked, final) /\
    rd 0 final (row_of_position skewed (num_nonzeros skewed) * 1 + 0)
    = Nat.iter (Z.to_nat (1 + 2 * 2))
        (add_carries s (row_of_position skewed (num_nonzeros skewed)) 0
           (seqZ 0 (4 - 1))) (-1).
Proof.
  split; [vm_compute; reflexivity|].
  destruct (TestOmpNonzeroSplitCsrmm_accumulates (-1) 4 skewed [1; 10; 100]
              [0; 0; 0; 0] 2 1 [1; 10; 100])
    as (s & checked & final & _ & Hrun & Hrow);
    [csr_wf_by_check|simpl; lia|lia|lia|lia|simpl; lia|].
  exists s, checked, final. split; [exact Hrun|]. apply (Hrow 0). lia.
Defined.

(** ** The copy loop *)

Section CopyFacts.
Context {V : Type} `{ValueOps V}.

(** Copying forwards is safe when the destination starts at or before
    the source, or after its end. *)
Lemma copy_loop_forward (fuel : nat) :
  forall (size x y : Z) (m : @heap V),
    0 <= size -> (Z.to_nat size <= fuel)%nat ->
    y <= x \/ x + size <= y ->
    exists m2, copy_loop fuel size x y m = Done m2 /\
      (forall i, 0 <= i < size -> m2 (y + i) = m (x + i)) /\
      (forall q, ~ (y <= q < y + size) -> m2 q = m q).
Proof.
  induction fuel as [|fuel IH]; intros size x y m Hsize Hfuel Hpos.
  - assert (size = 0) as -> by lia. exists m. simpl.
    split; [done|]. split; [intros; lia|done].
  - simpl. destruct (Z.eqb_spec size 0) as [->|Hnz].
    + exists m. split; [done|]. split; [intros; lia|done].
    + rewrite not_int_min by lia.
      destruct (IH (size - 1) (x + 1) (y + 1) (store m y (m x)))
        as (m2 & Hrun & Hy & Hframe); [lia|lia|lia|].
      exists m2. split; [exact Hrun|]. split.
      * intros i Hi. destruct (Z.eq_dec i 0) as [->|Hi0].
        -- rewrite !Z.add_0_r. rewrite Hframe by lia. apply store_eq.
        -- replace (y + i) with (y + 1 + (i - 1)) by lia.
           rewrite Hy by lia. rewrite store_ne by lia. f_equal. lia.
      * intros q Hq. rewrite Hframe by lia. apply store_ne. lia.
Qed.

(** With the destination [k > 0] elements after the source, the first [k]
    source elements are repeated. *)
Lemma copy_loop_overlap (k : Z) (fuel : nat) :
  0 < k ->
  forall (size x : Z) (m : @heap V),
    0 <= size -> (Z.to_nat size <= fuel)%nat ->
    exists m2, copy_loop fuel size x (x + k) m = Done m2 /\
      (forall i, 0 <= i < size -> m2 (x + k + i) = m (x + i mod k)) /\
      (forall q, ~ (x + k <= q < x + k + size) -> m2 q = m q).
Proof.
  intros Hk. induction fuel as [|fuel IH]; intros size x m Hsize Hfuel.
  - assert (size = 0) as -> by lia. exists m. simpl.
    split; [done|]. split; [intros; lia|done].
  - simpl. destruct (Z.eqb_spec size 0) as [->|Hnz].
    + exists m. split; [done|]. split; [intros; lia|done].
    + rewrite not_int_min by lia.
      destruct (IH (size - 1) (x + 1) (store m (x + k) (m x)))
        as (m2 & Hrun & Hy & Hframe); [lia|lia|].
      replace (x + 1 + k) with (x + k + 1) in * by lia.
      exists m2. split; [exact Hrun|]. split.
      * intros i Hi. destruct (Z.eq_dec i 0) as [->|Hi0].
        -- rewrite Z.mod_0_l by lia. rewrite !Z.add_0_r.
           rewrite Hframe by lia. apply store_eq.
        -- replace (x + k + i) with (x + k + 1 + (i - 1)) by lia.
           rewrite Hy by lia.
           pose proof (Z.mod_pos_bound (i - 1) k Hk) as Hm.
           pose proof (Z.div_mod (i - 1) k ltac:(lia)) as Hdm.
           destruct (Z.eq_dec ((i - 1) mod k) (k - 1)) as [Hlast|Hmid].
           ++ replace (x + 1 + (i - 1) mod k) with (x + k) by lia.
              rewrite store_eq.
              replace (i mod k) with 0; [f_equal; lia|].
              apply (Z.mod_unique_pos _ _ ((i - 1) / k + 1)); lia.
           ++ rewrite store_ne by lia.
              replace (i mod k) with ((i - 1) mod k + 1); [f_equal; lia|].
              apply (Z.mod_unique_pos _ _ ((i - 1) / k)); lia.
      * intros q Hq. rewrite Hframe by lia. apply store_ne. lia.
Qed.

(** With a negative [size] the two [while (size--)] loops count down to
    the least [int]: they take [size - int_min] steps, and then the
    decrement overflows. *)
Lemma while_loops_negative_size (fuel : nat) (a : V) :
  forall (size x y : Z) (m : @heap V),
    int_min <= size < 0 ->
    let stop := if Z.of_nat fuel <? size - int_min
                then OutOfFuel else SignedOverflow in
    axpy_2 fuel size a x y m = Fault stop /\
    copy_loop fuel size x y m = Fault stop.
Proof.
  induction fuel as [|fuel IH]; intros size x y m Hneg stop; subst stop;
    cbn [axpy_2 copy_loop];
    (destruct (Z.eqb_spec size 0) as [?|_]; [lia|]);
    destruct (Z.eqb_spec size int_min) as [Hmin|Hmin].
  - destruct (Z.ltb_spec (Z.of_nat 0) (size - int_min)); [lia|].
    split; reflexivity.
  - destruct (Z.ltb_spec (Z.of_nat 0) (size - int_min)); [|lia].
    split; reflexivity.
  - destruct (Z.ltb_spec (Z.of_nat (S fuel)) (size - int_min)); [lia|].
    split; reflexivity.
  - destruct (IH (size - 1) (x + 1) (y + 1) (store m y (vmul a (m x)))
                ltac:(lia)) as [Haxpy _].
    destruct (IH (size - 1) (x + 1) (y + 1) (store m y (m x)) ltac:(lia))
      as [_ Hcopy].
    rewrite Haxpy, Hcopy.
    destruct (Z.ltb_spec (Z.of_nat fuel) (size - 1 - int_min));
      destruct (Z.ltb_spec (Z.of_nat (S fuel)) (size - int_min));
      try lia; split; reflexivity.
Qed.
End CopyFacts.

(** X21.  [copy] of [n >= 0] elements stops after [n] steps and returns
    its argument [vector_x].  When the destination starts at or before the
    source, or after its last element, the destination then holds the [n]
    source elements as they were on entry, overlapping or not; when the
    destination starts [k > 0] elements after the source, element [i] of
    the destination holds source element [i mod k], so an overlapping
    source is not copied but its first [k] elements are repeated.
    Nothing outside the destination changes. *)
Theorem copy_forward_semantics {V : Type} `{ValueOps V} (fuel : nat)
    (n : Z) (a : V) (vector_x vector_y : Z) (m : heap) :
  0 <= n ->
  (Z.to_nat n <= fuel)%nat ->
  exists m2,
    copy fuel n a vector_x vector_y m = Done (vector_x, m2) /\
    (forall q, ~ (vector_y <= q < vector_y + n) -> m2 q = m q) /\
    (vector_y <= vector_x \/ vector_x + n <= vector_y ->
     forall i, 0 <= i < n -> m2 (vector_y + i) = m (vector_x + i)) /\
    (vector_x < vector_y ->
     forall i, 0 <= i < n ->
       m2 (vector_y + i) = m (vector_x + i mod (vector_y - vector_x))).
Proof.
  intros Hn Hfuel. unfold copy.
  destruct (Z_le_gt_dec vector_y vector_x) as [Hle|Hgt].
  - destruct (copy_loop_forward fuel n vector_x vector_y m Hn Hfuel)
      as (m2 & Hrun & Hy & Hframe); [lia|].
    exists m2. rewrite Hrun. split; [reflexivity|]. split; [exact Hframe|].
    split; [intros _; exact Hy|intros; lia].
  - destruct (copy_loop_overlap (vector_y - vector_x) fuel ltac:(lia) n
                vector_x m Hn Hfuel) as (m2 & Hrun & Hy & Hframe).
    replace (vector_x + (vector_y - vector_x)) with vector_y in * by lia.
    exists m2. rewrite Hrun. split; [reflexivity|]. split; [exact Hframe|].
    split; [|intros _; exact Hy].
    intros [Hle|Hdisj] i Hi; [lia|].
    rewrite Hy by exact Hi. rewrite Z.mod_small by lia. reflexivity.
Qed.

(** The theorem with the destination one element after the source:
    copying three elements of [5, 6, 7, 8] from address 0 to address 1
    leaves [5, 5, 5, 5]. *)
Lemma copy_forward_semantics_witness :
  exists m2 : heap,
    copy 3 3 2 0 1 (fun q => 5 + q) = Done (0, m2) /\
    m2 (1 + 2) = 5 + (0 + 2 mod (1 - 0)).
Proof.
  destruct (copy_forward_semantics (V := Z) 3 3 2 0 1 (fun q => 5 + q))
    as (m2 & Hrun & _ & _ & Hover); [lia|simpl; lia|].
  exists m2. split; [exact Hrun|]. apply Hover; lia.
Defined.

(** X22.  The sizes outside the intended use.  With [size = 0] the three
    loops leave the memory as it is.  With a negative [size], [axpy_]
    still does nothing, since its test is [i < size]; [axpy_2] and [copy]
    test [size--] against zero, which a negative counter going down does
    not reach, so they never return: they store one element per step for
    [size + 2^31] steps, and then [size--] is applied to the least [int]
    and overflows.  ([fuel] is the number of steps allowed.) *)
Theorem loops_on_empty_and_negative_sizes {V : Type} `{ValueOps V}
    (size : Z) (a : V) (vector_x vector_y : Z) (m : heap) (fuel : nat) :
  int_min <= size <= 0 ->
  axpy_ size a vector_x vector_y m = m /\
  (size = 0 ->
   axpy_2 fuel size a vector_x vector_y m = Done m /\
   copy fuel size a vector_x vector_y m = Done (vector_x, m)) /\
  (size < 0 ->
   let stop := if Z.of_nat fuel <? size + 2 ^ 31
               then OutOfFuel else SignedOverflow in
   axpy_2 fuel size a vector_x vector_y m = Fault stop /\
   copy fuel size a vector_x vector_y m = Fault stop).
Proof.
  intros Hsize. split; [|split].
  - unfold axpy_. apply for_loop_nil. lia.
  - intros ->. unfold copy. destruct fuel; simpl; split; reflexivity.
  - intros Hneg. unfold copy.
    destruct (while_loops_negative_size fuel a size vector_x vector_y m
                ltac:(lia)) as [Haxpy Hcopy].
    cbv zeta in Haxpy, Hcopy. cbv zeta.
    replace (size + 2 ^ 31) with (size - int_min) by (unfold int_min; lia).
    rewrite Haxpy, Hcopy. split; reflexivity.
Qed.

(** The theorem at [size = -1] with 1000 steps allowed, and two steps
    above the least [int] with 5 steps allowed. *)
Lemma loops_on_empty_and_negative_sizes_witness :
  axpy_ (-1) 2 0 4 (fun q => q) = (fun q => q) /\
  axpy_2 1000 (-1) 2 0 4 (fun q => q) = Fault OutOfFuel /\
  copy 5 (int_min + 2) 2 0 4 (fun q => q) = Fault SignedOverflow.
Proof.
  destruct (loops_on_empty_and_negative_sizes (V := Z) (-1) 2 0 4 (fun q => q)
              1000) as (Hfor & _ & Hwhile); [unfold int_min; lia|].
  destruct (loops_on_empty_and_negative_sizes (V := Z) (int_min + 2) 2 0 4
              (fun q => q) 5) as (_ & _ & Hlow); [unfold int_min; lia|].
  split; [exact Hfor|]. split.
  - apply Hwhile. lia.
  - apply Hlow. unfold int_min. lia.
Defined.

(** ** Two computations of [RunTests] *)

(** X23.  The number of timing iterations [RunTests] settles on.  A value
    given on the command line (anything but -1) is used as it is.
    Otherwise, for a positive amount of work [num_nonzeros * num_vectors]
    the number is [2^34] divided by the work, clamped to [[10, 1000]], so
    the following test [timing_iterations < 2] never succeeds; and for a
    matrix without entries (or [num_vectors = 0]) the division is by
    zero. *)
Theorem RunTests_timing_iterations_range (timing_iterations : Z)
    (num_nonzeros num_vectors : Z) :
  (timing_iterations <> -1 ->
   RunTests_timing_iterations timing_iterations num_nonzeros num_vectors
   = Some timing_iterations) /\
  (num_nonzeros * num_vectors = 0 ->
   RunTests_timing_iterations (-1) num_nonzeros num_vectors = None) /\
  (0 < num_nonzeros * num_vectors < 2 ^ 31 ->
   exists n,
     RunTests_timing_iterations (-1) num_nonzeros num_vectors = Some n /\
     n = Z.min 1000 (Z.max 10 (2 ^ 34 / (num_nonzeros * num_vectors))) /\
     10 <= n <= 1000).
Proof.
  unfold RunTests_timing_iterations, to_ull. split; [|split].
  - intros Hne. destruct (Z.eqb_spec timing_iterations (-1)); [lia|reflexivity].
  - intros ->. reflexivity.
  - intros Hwork. change (-1 =? -1) with true. cbv iota zeta.
    destruct (Z.ltb_spec (num_nonzeros * num_vectors) int_min) as [Hlow|_];
      [unfold int_min in Hlow; lia|].
    destruct (Z.ltb_spec int_max (num_nonzeros * num_vectors)) as [Hhigh|_];
      [unfold int_max in Hhigh; lia|].
    cbn [orb]. rewrite Z.mod_small by lia.
    destruct (Z.eqb_spec (num_nonzeros * num_vectors) 0) as [?|_]; [lia|].
    change (Z.shiftl 16 30) with (2 ^ 34).
    rewrite Z.quot_div_nonneg by lia.
    set (n := Z.min 1000 (Z.max 10 (2 ^ 34 / (num_nonzeros * num_vectors)))).
    assert (Hn : 10 <= n <= 1000) by (subst n; lia).
    exists n. destruct (Z.ltb_spec n 2); [lia|]. repeat split; lia.
Qed.

(** A product that does not fit an [int], 2^10 entries times 2^22
    vectors, has no result. *)
Example RunTests_timing_iterations_overflow :
  RunTests_timing_iterations (-1) 1024 4194304 = None.
Proof. reflexivity. Qed.

(** 1000 entries times 32 vectors: 1000 iterations; 2^20 entries times 32
    vectors: 512. *)
Lemma RunTests_timing_iterations_range_witness :
  RunTests_timing_iterations (-1) 1000 32 = Some 1000 /\
  RunTests_timing_iterations (-1) (2 ^ 20) 32 = Some 512 /\
  RunTests_timing_iterations (-1) 0 32 = None /\
  exists n, RunTests_timing_iterations (-1) (2 ^ 20) 32 = Some n /\ 10 <= n <= 1000.
Proof.
  split; [reflexivity|]. split; [reflexivity|]. split; [reflexivity|].
  destruct (RunTests_timing_iterations_range (-1) (2 ^ 20) 32)
    as (_ & _ & Hauto).
  destruct Hauto as (n & Hrun & _ & Hn); [simpl; lia|].
  exists n. split; [exact Hrun|exact Hn].
Defined.

(** X24.  The row-length statistics [RunTests] prints.  On a well-formed
    matrix with at least as many rows as columns, the loop looks at the
    first [num_cols] rows only: of those rows, [max] is the largest length
    (0 if there is none) and [min] the smallest, or the initial
    100000000 if no row is shorter than that.  Rows from [num_cols] on
    are not looked at. *)
Theorem RunTests_min_max_first_rows {V : Type} (csr_matrix : CsrMatrix V) :
  csr_wf csr_matrix ->
  num_cols csr_matrix <= num_rows csr_matrix ->
  let length_of i :=
    rd 0 (row_offsets csr_matrix) (i + 1) - rd 0 (row_offsets csr_matrix) i in
  let min := fst (RunTests_min_max csr_matrix) in
  let max := snd (RunTests_min_max csr_matrix) in
  (forall i, 0 <= i < num_cols csr_matrix -> length_of i <= max) /\
  (forall i, 0 <= i < num_cols csr_matrix -> length_of i <= 100000000 ->
     min <= length_of i) /\
  (max = 0 \/ exists i, 0 <= i < num_cols csr_matrix /\ length_of i = max) /\
  (min = 100000000 \/
   exists i, 0 <= i < num_cols csr_matrix /\ length_of i = min).
Proof.
  intros Hwf Hcols length_of min max. subst min max.
  unfold RunTests_min_max.
  apply (for_loop_inv
    (fun n (st : Z * Z) =>
       (forall i, 0 <= i < n -> length_of i <= snd st) /\
       (forall i, 0 <= i < n -> length_of i <= 100000000 -> fst st <= length_of i) /\
       (snd st = 0 \/ exists i, 0 <= i < n /\ length_of i = snd st) /\
       (fst st = 100000000 \/ exists i, 0 <= i < n /\ length_of i = fst st)));
    [exact (wf_cols csr_matrix Hwf)| |].
  - simpl. split; [intros; lia|]. split; [intros; lia|]. split; left; reflexivity.
  - intros n [mn mx] Hn (Hall & Hmin & Hmax & Hmn). simpl in Hall, Hmin, Hmax, Hmn.
    fold (length_of n). cbv zeta.
    set (d := length_of n) in *.
    assert (Hmx : (if d >? mx then d else mx) = Z.max d mx).
    { destruct (Z.gtb_spec d mx); lia. }
    assert (Hmi : (if d <? mn then d else mn) = Z.min d mn).
    { destruct (Z.ltb_spec d mn); lia. }
    rewrite Hmx, Hmi. cbn [fst snd].
    split; [|split; [|split]].
    + intros i Hi. destruct (Z.eq_dec i n) as [->|Hne]; [fold d; lia|].
      specialize (Hall i ltac:(lia)). lia.
    + intros i Hi Hbig. destruct (Z.eq_dec i n) as [->|Hne]; [fold d; lia|].
      specialize (Hmin i ltac:(lia) Hbig). lia.
    + destruct (Z_le_gt_dec d mx) as [Hle|Hgt].
      * rewrite Z.max_r by lia.
        destruct Hmax as [Hz|(i & Hi & Hi')];
          [left; exact Hz|right; exists i; split; [lia|exact Hi']].
      * rewrite Z.max_l by lia. right. exists n. split; [lia|reflexivity].
    + destruct (Z_le_gt_dec mn d) as [Hle|Hgt].
      * rewrite Z.min_r by lia.
        destruct Hmn as [Hz|(i & Hi & Hi')];
          [left; exact Hz|right; exists i; split; [lia|exact Hi']].
      * rewrite Z.min_l by lia. right. exists n. split; [lia|reflexivity].
Qed.

(** On [skewed] (4 rows, 3 columns) the loop reports 0 and 7 from rows
    0 to 2. *)
Lemma RunTests_min_max_first_rows_witness :
  RunTests_min_max skewed = (0, 7) /\
  (forall i, 0 <= i < num_cols skewed ->
     rd 0 (row_offsets skewed) (i + 1) - rd 0 (row_offsets skewed) i
     <= snd (RunTests_min_max skewed)).
Proof.
  split; [reflexivity|].
  destruct (RunTests_min_max_first_rows skewed) as [Hmax _];
    [csr_wf_by_check|simpl; lia|exact Hmax].
Defined.
